(** * Screenshot service: cache manager, job queue and rate limiter

    A shallow embedding of the stateful collaborators of the screenshot
    service and of the helpers they call:

      - [RateLimiter]                              src/lib/rate-limiter.ts
      - [validateUrl], [sanitizeScreenshotParams]  ./security, the second
                                                   half of rate-limiter.ts
      - [CacheManager]                             ./cache-manager,
                                                   src/unnamed/part_001
      - [JobQueue]                                 src/lib/job-queue.ts
      - the answer of the job status route         the third handler of
                                                   src/app/api/screenshot/route.ts
      - the handlers of the routes                 src/unnamed/part_000,
                                                   src/app/api/screenshot/route.ts

    followed by the properties of the specification that concern them.

    Conventions of the embedding.
      - A JavaScript number that holds a size, a count or a millisecond
        timestamp is a [Z]; the post-load delay, which may be fractional, is
        a canonical rational [Qc].
      - A JavaScript string is a [string]; [toLowerCase] and [trim] act on
        the ASCII letters and the ASCII white space.
      - [Date.now()], [Math.random()], the failures of the file system and
        the browser are inputs of the operation that consults them; the
        URL parser, SHA-256 over the JSON text and the base64 encoder are
        parameters.
      - An [async] method is the function from the state before its call
        to the state after its last [await]; the worker loop of the job
        queue, which other calls interleave with, is taken apart into the
        turns of the event loop it runs in, and so is [CacheManager.set]
        where two calls of it overlap.
      - A [Map] whose iteration order is observed (the cache index, sorted
        by a stable sort) is an insertion-ordered association list; a [Map]
        only looked up, inserted into and deleted from is a [gmap]. *)

From Stdlib Require Import ZArith QArith Qcanon Ascii String Lia.
From stdpp Require Import gmap strings list sorting pretty.

Local Open Scope string_scope.
Local Open Scope Z_scope.

(* ===================================================================== *)
(** * JavaScript strings *)
(* ===================================================================== *)

Module JS.

Definition bytes := list Byte.byte.

Definition is_upper (a : ascii) : bool :=
  let n := nat_of_ascii a in (Nat.leb 65 n) && (Nat.leb n 90).

Definition lower_ascii (a : ascii) : ascii :=
  if is_upper a then ascii_of_nat (nat_of_ascii a + 32) else a.

(** [String.prototype.toLowerCase] *)
Fixpoint toLowerCase (s : string) : string :=
  match s with
  | EmptyString => EmptyString
  | String a r => String (lower_ascii a) (toLowerCase r)
  end.

(** White space removed by [trim]: TAB, LF, VT, FF, CR and SPACE. *)
Definition is_space (a : ascii) : bool :=
  let n := nat_of_ascii a in
  ((Nat.leb 9 n) && (Nat.leb n 13)) || Nat.eqb n 32.

Fixpoint trimStart (s : string) : string :=
  match s with
  | EmptyString => EmptyString
  | String a r => if is_space a then trimStart r else s
  end.

Fixpoint trimEnd (s : string) : string :=
  match s with
  | EmptyString => EmptyString
  | String a r =>
      match trimEnd r with
      | EmptyString => if is_space a then EmptyString else String a EmptyString
      | r' => String a r'
      end
  end.

(** [String.prototype.trim] *)
Definition trim (s : string) : string := trimEnd (trimStart s).

(** [s.startsWith(p)], also the test of an anchored literal pattern [/^p/] *)
Definition startsWith (s p : string) : bool := String.prefix p s.

(** [s.includes(p)], also the test of an unanchored literal pattern [/p/] *)
Fixpoint includes (s p : string) : bool :=
  String.prefix p s ||
  match s with
  | EmptyString => false
  | String _ r => includes r p
  end.

(** [s.split(",")[0]]: the text before the first comma *)
Fixpoint beforeComma (s : string) : string :=
  match s with
  | EmptyString => EmptyString
  | String a r => if Ascii.eqb a "," then EmptyString else String a (beforeComma r)
  end.

(** Truthiness of a string: every string but the empty one. *)
Definition truthy (s : string) : bool := negb (String.eqb s "").

(** Truthiness of [string | null]. *)
Definition truthy_opt (o : option string) : bool :=
  match o with
  | Some s => truthy s
  | None => false
  end.

End JS.

(* ===================================================================== *)
(** * The rate limiter ([RateLimiter], src/lib/rate-limiter.ts) *)
(* ===================================================================== *)

Module RateLimiter.

Record RateLimitEntry := mkEntry { count : Z; resetTime : Z }.

(** The three proxy headers [getClientIP] reads; [None] is the [null]
    that [headers.get] answers for a header that is absent. *)
Record Request := mkRequest {
  x_forwarded_for : option string;
  x_real_ip : option string;
  cf_connecting_ip : option string
}.

Record t := mkLimiter {
  requests : gmap string RateLimitEntry;
  maxRequests : Z;
  windowMs : Z
}.

(** [new RateLimiter(maxRequests = 10, windowMs = 60000)] *)
Definition new (maxRequests windowMs : Z) : t :=
  mkLimiter ∅ maxRequests windowMs.

(** The exported instance, [new RateLimiter(10, 60000)]. *)
Definition rateLimiter : t := new 10 60000.

Definition getClientIP (request : Request) : string :=
  let forwarded := x_forwarded_for request in
  let realIP := x_real_ip request in
  let cfConnectingIP := cf_connecting_ip request in
  if JS.truthy_opt cfConnectingIP then default "" cfConnectingIP
  else if JS.truthy_opt realIP then default "" realIP
  else if JS.truthy_opt forwarded
       then JS.trim (JS.beforeComma (default "" forwarded))
       else "unknown".

Record Result := mkResult { allowed : bool; remaining : Z; resetAt : Z }.

Definition set_requests (rl : t) (m : gmap string RateLimitEntry) : t :=
  mkLimiter m (maxRequests rl) (windowMs rl).

(** [checkLimit(request)], with the value of [Date.now()] as [now]. *)
Definition checkLimit (rl : t) (request : Request) (now : Z) : Result * t :=
  let clientIP := getClientIP request in
  match requests rl !! clientIP with
  | Some entry =>
      if now >? resetTime entry then
        let resetTime := now + windowMs rl in
        (mkResult true (maxRequests rl - 1) resetTime,
         set_requests rl (<[clientIP := mkEntry 1 resetTime]> (requests rl)))
      else if count entry >=? maxRequests rl then
        (mkResult false 0 (resetTime entry), rl)
      else
        let entry' := mkEntry (count entry + 1) (resetTime entry) in
        (mkResult true (maxRequests rl - count entry') (resetTime entry'),
         set_requests rl (<[clientIP := entry']> (requests rl)))
  | None =>
      let resetTime := now + windowMs rl in
      (mkResult true (maxRequests rl - 1) resetTime,
       set_requests rl (<[clientIP := mkEntry 1 resetTime]> (requests rl)))
  end.

(** The periodic sweep: windows whose reset time has passed are dropped. *)
Definition cleanup (rl : t) (now : Z) : t :=
  set_requests rl (filter (fun kv => negb (now >? resetTime kv.2) = true) (requests rl)).

(** A run of calls by one client, at the given values of the clock. *)
Fixpoint checkLimits (rl : t) (request : Request) (times : list Z)
  : list Result * t :=
  match times with
  | [] => ([], rl)
  | now :: rest =>
      let '(r, rl1) := checkLimit rl request now in
      let '(rs, rl2) := checkLimits rl1 request rest in
      (r :: rs, rl2)
  end.

(** The client has no window, or its window has expired at [now]. *)
Definition window_closed (rl : t) (request : Request) (now : Z) : Prop :=
  match requests rl !! getClientIP request with
  | Some entry => now > resetTime entry
  | None => True
  end.

(** ** The limiter as a transition system *)

Inductive Op :=
| OpCheck (request : Request) (now : Z)
| OpCleanup (now : Z).

Definition exec (rl : t) (op : Op) : t :=
  match op with
  | OpCheck request now => (checkLimit rl request now).2
  | OpCleanup now => cleanup rl now
  end.

(** The states of a limiter constructed with the given settings. *)
Inductive reachable (maxRequests windowMs : Z) : t -> Prop :=
| reachable_new : reachable maxRequests windowMs (new maxRequests windowMs)
| reachable_step rl op :
    reachable maxRequests windowMs rl -> reachable maxRequests windowMs (exec rl op).

(** The answers to a run of calls inside one window. *)
Definition counted (rl : t) (c reset : Z) (n : nat) : list Result :=
  map (fun k => mkResult true (maxRequests rl - (c + Z.of_nat k)) reset) (seq 1 n).

End RateLimiter.

(* ===================================================================== *)
(** * URL validation and parameter clamping ([./security]) *)
(* ===================================================================== *)

Module Security.

(** What [new URL(url)] exposes to [validateUrl]. *)
Record ParsedURL := mkURL { protocol : string; hostname : string }.

Record Validation := mkValidation { valid : bool; error : option string }.

Inductive Format := png | jpeg | webp | avif | bmp.

Definition format_str (f : Format) : string :=
  match f with
  | png => "png" | jpeg => "jpeg" | webp => "webp" | avif => "avif" | bmp => "bmp"
  end.

(** The return type of [sanitizeScreenshotParams], which is also
    [ScreenshotJob["params"]]. *)
Record Params := mkParams {
  url : string;
  fullPage : bool;
  width : Z;
  height : Z;
  format : Format;
  delay : Qc
}.

(** A blocked-host pattern: a literal compared with [===], or a regular
    expression, given by its [test]. *)
Inductive Pattern :=
| Lit (s : string)
| Re (test : string -> bool).

Definition char_in (lo hi : nat) (o : option ascii) : bool :=
  match o with
  | Some a => Nat.leb lo (nat_of_ascii a) && Nat.leb (nat_of_ascii a) hi
  | None => false
  end.

(** [/^172\.(1[6-9]|2[0-9]|3[01])\./] *)
Definition re_172 (h : string) : bool :=
  JS.startsWith h "172." &&
  ((char_in 49 49 (String.get 4 h) && char_in 54 57 (String.get 5 h)) ||
   (char_in 50 50 (String.get 4 h) && char_in 48 57 (String.get 5 h)) ||
   (char_in 51 51 (String.get 4 h) && char_in 48 49 (String.get 5 h))) &&
  char_in 46 46 (String.get 6 h).

Definition blockedPatterns : list Pattern :=
  [ Lit "localhost"; Lit "127.0.0.1"; Lit "0.0.0.0"; Lit "::1";
    Re (fun h => JS.startsWith h "192.168.");
    Re (fun h => JS.startsWith h "10.");
    Re re_172;
    Re (fun h => JS.startsWith h "169.254.");
    Re (fun h => JS.startsWith h "fe80:");
    Re (fun h => JS.startsWith h "fc00:");
    Re (fun h => JS.startsWith h "fd00:");
    Re (fun h => JS.startsWith h "224.");
    Re (fun h => JS.startsWith h "ff00:") ].

Definition matches (hostname : string) (p : Pattern) : bool :=
  match p with
  | Lit s => String.eqb hostname s
  | Re test => test hostname
  end.

Definition suspiciousDomains : list string :=
  [ "bit.ly"; "tinyurl.com"; "t.co"; "goo.gl"; "ow.ly"; "short.link" ].

(** [/javascript:/i], [/data:/i], [/vbscript:/i], [/file:/i], [/ftp:/i]:
    each is tested on the lower-cased text. *)
Definition suspiciousPatterns : list string :=
  [ "javascript:"; "data:"; "vbscript:"; "file:"; "ftp:" ].

Definition invalid (msg : string) : Validation := mkValidation false (Some msg).

Section WithURLParser.

(** [new URL(url)]; [None] when the constructor throws. *)
Variable parseURL : string -> option ParsedURL.

Definition validateUrl (url : string) : Validation :=
  match parseURL url with
  | None => invalid "Invalid URL format"
  | Some parsedUrl =>
      let hostname := JS.toLowerCase (hostname parsedUrl) in
      if negb (existsb (String.eqb (protocol parsedUrl)) ["http:"; "https:"])
      then invalid "Only HTTP and HTTPS protocols are allowed"
      else if existsb (matches hostname) blockedPatterns
      then invalid "Local and private network addresses are not allowed"
      else if existsb (fun domain => JS.includes hostname domain) suspiciousDomains
      then invalid "URL shorteners and suspicious domains are not allowed"
      else if existsb (fun p => JS.includes (JS.toLowerCase url) p) suspiciousPatterns
      then invalid "Suspicious URL pattern detected"
      else mkValidation true None
  end.

(** The grounds on which the specification has a URL rejected: it is
    malformed, or its protocol is not HTTP or HTTPS, or its host is a
    local or private address, or its host contains the domain of a URL
    shortener, or its text contains a dangerous pseudo-protocol. *)
Definition rejected (url : string) : Prop :=
  match parseURL url with
  | None => True
  | Some parsedUrl =>
      let hostname := JS.toLowerCase (hostname parsedUrl) in
      existsb (String.eqb (protocol parsedUrl)) ["http:"; "https:"] = false \/
      existsb (matches hostname) blockedPatterns = true \/
      existsb (fun domain => JS.includes hostname domain) suspiciousDomains = true \/
      existsb (fun p => JS.includes (JS.toLowerCase url) p) suspiciousPatterns = true
  end.

End WithURLParser.

(** A JavaScript number as [Number.parseFloat] can answer it. *)
Inductive Float := NaN | PosInf | NegInf | Fin (q : Qc).

(** The request body as [sanitizeScreenshotParams] reads it: each field
    holds the value of the built-in conversion the code applies to it.
      - [raw_url]: [params.url], [None] when it is [undefined];
      - [raw_fullPage]: [Boolean(params.fullPage)];
      - [raw_width], [raw_height]: [Number.parseInt(String(..))], [None]
        for [NaN];
      - [raw_format]: [String(params.format)];
      - [raw_delay]: [Number.parseFloat(String(params.delay))]. *)
Record RawParams := mkRaw {
  raw_url : option string;
  raw_fullPage : bool;
  raw_width : option Z;
  raw_height : option Z;
  raw_format : string;
  raw_delay : Float
}.

(** The text [new URL(params.url)] and the patterns see: [String(params.url)]. *)
Definition url_text (u : option string) : string := default "undefined" u.

(** [n || d] for an integer or [NaN] *)
Definition or_int (n : option Z) (d : Z) : Z :=
  match n with
  | Some z => if z =? 0 then d else z
  | None => d
  end.

Definition Qc_ltb (a b : Qc) : bool :=
  match (a ?= b)%Qc with Lt => true | _ => false end.

(** [Math.min(Math.max(d || 0, 0), 10)] *)
Definition clamp_delay (d : Float) : Qc :=
  match d with
  | NaN => 0%Qc
  | PosInf => Q2Qc 10
  | NegInf => 0%Qc
  | Fin q =>
      let q0 := if Qc_eq_bool q 0%Qc then 0%Qc else q in
      let lo := if Qc_ltb q0 0%Qc then 0%Qc else q0 in
      if Qc_ltb (Q2Qc 10) lo then Q2Qc 10 else lo
  end.

Definition sanitizeScreenshotParams (params : RawParams) : Params :=
  let formatStr := JS.toLowerCase (raw_format params) in
  let validFormat :=
    if existsb (String.eqb formatStr) ["jpeg"; "jpg"] then jpeg
    else if String.eqb formatStr "webp" then webp
    else if String.eqb formatStr "avif" then avif
    else if String.eqb formatStr "bmp" then bmp
    else png in
  {| url := JS.trim (default "" (raw_url params));
     fullPage := raw_fullPage params;
     width := Z.min (Z.max (or_int (raw_width params) 1280) 320) 3840;
     height := Z.min (Z.max (or_int (raw_height params) 800) 240) 2160;
     format := validFormat;
     delay := clamp_delay (raw_delay params) |}.

End Security.

(* ===================================================================== *)
(** * An insertion-ordered [Map<string, V>] *)
(* ===================================================================== *)

Module JSMap.

Definition t (V : Type) := list (string * V).

Fixpoint get {V} (m : t V) (k : string) : option V :=
  match m with
  | [] => None
  | (k', v) :: r => if String.eqb k' k then Some v else get r k
  end.

(** [set] keeps the position of a key already present and appends a new one. *)
Fixpoint set {V} (m : t V) (k : string) (v : V) : t V :=
  match m with
  | [] => [(k, v)]
  | (k', v') :: r => if String.eqb k' k then (k, v) :: r else (k', v') :: set r k v
  end.

(** [delete] leaves no binding of the key behind. *)
Fixpoint delete {V} (m : t V) (k : string) : t V :=
  match m with
  | [] => []
  | (k', v') :: r => if String.eqb k' k then delete r k else (k', v') :: delete r k
  end.

Definition keys {V} (m : t V) : list string := fst <$> m.
Definition values {V} (m : t V) : list V := snd <$> m.

End JSMap.

(* ===================================================================== *)
(** * The fingerprint cache ([CacheManager], src/unnamed/part_001) *)
(* ===================================================================== *)

Module Cache.

Import Security.

Record Metadata := mkMeta {
  m_url : string;
  m_params : Params;
  m_format : string;
  createdAt : Z;
  lastAccessed : Z;
  size : Z
}.

Record CacheEntry := mkCacheEntry {
  key : string;
  filePath : string;
  metadata : Metadata
}.

(** The object [generateCacheKey] serialises and hashes. *)
Record NormalizedParams := mkNormalized {
  n_url : string;
  n_fullPage : bool;
  n_width : Z;
  n_height : Z;
  n_format : string;
  n_delay : Qc
}.

Record t := mkCache {
  cache : JSMap.t CacheEntry;
  cacheDir : string;
  maxCacheSize : Z;
  maxCacheAge : Z
}.

(** [new CacheManager(cacheDir, maxCacheSize, maxCacheAge)] *)
Definition new (cacheDir : string) (maxCacheSize maxCacheAge : Z) : t :=
  mkCache [] cacheDir maxCacheSize maxCacheAge.

Definition defaultMaxCacheSize : Z := 100 * 1024 * 1024.
Definition defaultMaxCacheAge : Z := 24 * 60 * 60 * 1000.

Definition set_cache (c : t) (m : JSMap.t CacheEntry) : t :=
  mkCache m (cacheDir c) (maxCacheSize c) (maxCacheAge c).

(** ** The disk

    A directory of files, and the failures the environment injects into
    one operation: an operation of [fs] throws when its flag is set, and
    where the file it needs is missing. *)

Record IO := mkIO {
  writeFile_fails : string -> bool;
  stat_fails : string -> bool;
  readFile_fails : string -> bool;
  unlink_fails : string -> bool
}.

Definition writeFile (io : IO) (fs : gmap string JS.bytes) (path : string)
    (data : JS.bytes) : option (gmap string JS.bytes) :=
  if writeFile_fails io path then None else Some (<[path := data]> fs).

(** [(await fs.stat(path)).size] *)
Definition stat_size (io : IO) (fs : gmap string JS.bytes) (path : string)
    : option Z :=
  if stat_fails io path then None
  else (fun data : JS.bytes => Z.of_nat (List.length data)) <$> fs !! path.

Definition readFile (io : IO) (fs : gmap string JS.bytes) (path : string)
    : option JS.bytes :=
  if readFile_fails io path then None else fs !! path.

Definition unlink (io : IO) (fs : gmap string JS.bytes) (path : string)
    : option (gmap string JS.bytes) :=
  if unlink_fails io path then None
  else match fs !! path with
       | Some _ => Some (delete path fs)
       | None => None
       end.

(** ** Keys and paths *)

(** [n || d] for a number that is an integer *)
Definition or_num (n d : Z) : Z := if n =? 0 then d else n.

Definition formatOf (params : Params) : string :=
  let f := JS.toLowerCase (format_str (format params)) in
  if JS.truthy f then f else "png".

Definition normalizedParams (url : string) (params : Params) : NormalizedParams :=
  {| n_url := JS.trim (JS.toLowerCase url);
     n_fullPage := fullPage params;
     n_width := if fullPage params then 0 else or_num (width params) 1280;
     n_height := if fullPage params then 0 else or_num (height params) 800;
     n_format := formatOf params;
     n_delay := if Qc_eq_bool (delay params) 0%Qc then 0%Qc else delay params |}.

(** [path.join(this.cacheDir, `${key}.${format}`)] *)
Definition getFilePath (c : t) (key format : string) : string :=
  cacheDir c +:+ "/" +:+ key +:+ "." +:+ format.

(** [entries.reduce((sum, entry) => sum + entry.metadata.size, 0)] *)
Definition sumSizes (entries : list CacheEntry) : Z :=
  fold_left (fun sum entry => sum + size (metadata entry)) entries 0.

Definition totalSize (c : t) : Z := sumSizes (JSMap.values (cache c)).

(** [entries.sort((a, b) => a.metadata.lastAccessed - b.metadata.lastAccessed)]:
    ascending, and stable, so that entries accessed at the same instant
    stay in the order of the index. *)
Fixpoint insertByAccess (e : CacheEntry) (l : list CacheEntry) : list CacheEntry :=
  match l with
  | [] => [e]
  | x :: r =>
      if lastAccessed (metadata e) <=? lastAccessed (metadata x)
      then e :: l
      else x :: insertByAccess e r
  end.

Definition sortByAccess (l : list CacheEntry) : list CacheEntry :=
  foldr insertByAccess [] l.

(** ** Eviction *)

Definition delete (io : IO) (key : string) (c : t) (fs : gmap string JS.bytes)
    : t * gmap string JS.bytes :=
  match JSMap.get (cache c) key with
  | None => (c, fs)
  | Some entry =>
      match unlink io fs (filePath entry) with
      | Some fs' => (set_cache c (JSMap.delete (cache c) key), fs')
      | None => (set_cache c (JSMap.delete (cache c) key), fs)
      end
  end.

Definition deleteAll (io : IO) (keys : list string) (c : t)
    (fs : gmap string JS.bytes) : t * gmap string JS.bytes :=
  fold_left (fun st key => delete io key st.1 st.2) keys (c, fs).

(** The loop of [enforceSize]. [currentSize <= maxCacheSize * 0.8] is
    compared exactly, as [5 * currentSize <= 4 * maxCacheSize]: for the
    sizes a disk holds, the rounded product [maxCacheSize * 0.8] and the
    exact one have the same integers below them. *)
Fixpoint evictLoop (io : IO) (entries : list CacheEntry) (currentSize : Z)
    (c : t) (fs : gmap string JS.bytes) : t * gmap string JS.bytes :=
  match entries with
  | [] => (c, fs)
  | entry :: rest =>
      if 5 * currentSize <=? 4 * maxCacheSize c then (c, fs)
      else
        let '(c', fs') := delete io (key entry) c fs in
        evictLoop io rest (currentSize - size (metadata entry)) c' fs'
  end.

Definition enforceSize (io : IO) (c : t) (fs : gmap string JS.bytes)
    : t * gmap string JS.bytes :=
  let totalSize := totalSize c in
  if totalSize <=? maxCacheSize c then (c, fs)
  else
    let entries := sortByAccess (JSMap.values (cache c)) in
    evictLoop io entries totalSize c fs.

(** The entries the loop of [enforceSize] deletes: a prefix of the sorted
    entries. *)
Fixpoint evicted (maxSize : Z) (entries : list CacheEntry) (currentSize : Z)
    : list CacheEntry :=
  match entries with
  | [] => []
  | entry :: rest =>
      if 5 * currentSize <=? 4 * maxSize then []
      else entry :: evicted maxSize rest (currentSize - size (metadata entry))
  end.

Section WithDigest.

(** [createHash("sha256").update(JSON.stringify(n)).digest("hex")] *)
Variable digest : NormalizedParams -> string.

Definition generateCacheKey (url : string) (params : Params) : string :=
  digest (normalizedParams url params).

Definition touch (entry : CacheEntry) (now : Z) : CacheEntry :=
  let m := metadata entry in
  mkCacheEntry (key entry) (filePath entry)
    (mkMeta (m_url m) (m_params m) (m_format m) (createdAt m) now (size m)).

(** [get(url, params)], with the value of [Date.now()] as [now]. *)
Definition get (io : IO) (c : t) (fs : gmap string JS.bytes)
    (url : string) (params : Params) (now : Z)
    : option JS.bytes * t * gmap string JS.bytes :=
  let key := generateCacheKey url params in
  match JSMap.get (cache c) key with
  | None => (None, c, fs)
  | Some entry =>
      if now - createdAt (metadata entry) >? maxCacheAge c then
        let '(c', fs') := delete io key c fs in (None, c', fs')
      else
        let c1 := set_cache c (JSMap.set (cache c) key (touch entry now)) in
        match readFile io fs (filePath entry) with
        | Some buffer => (Some buffer, c1, fs)
        | None => let '(c2, fs2) := delete io key c1 fs in (None, c2, fs2)
        end
  end.

(** [set(url, params, buffer)], for a call that runs alone: no other
    call works on the index while this one is suspended in an [await]
    ([put] and [resumePut] below follow a call turn by turn). [now1]
    and [now2] are the two values of [Date.now()] that become
    [createdAt] and [lastAccessed]. *)
Definition set (io : IO) (c : t) (fs : gmap string JS.bytes)
    (url : string) (params : Params) (buffer : JS.bytes) (now1 now2 : Z)
    : t * gmap string JS.bytes :=
  let key := generateCacheKey url params in
  let format := formatOf params in
  let filePath := getFilePath c key format in
  match writeFile io fs filePath buffer with
  | None => (c, fs)
  | Some fs1 =>
      match stat_size io fs1 filePath with
      | None => (c, fs1)
      | Some size =>
          let entry :=
            mkCacheEntry key filePath
              (mkMeta url params format now1 now2 size) in
          enforceSize io (set_cache c (JSMap.set (cache c) key entry)) fs1
      end
  end.

End WithDigest.

(** ** A call of [set], turn by turn

    [set] is suspended in [fs.writeFile], in [fs.stat] and, through
    [enforceSize] and [delete], in [fs.unlink]. While it is suspended,
    other calls work on the same index: the job queue and the two
    handlers of the synchronous route share one [cacheManager]. A [Put]
    is a call of [set] at one of these awaits, with the locals it
    resumes with, or a call that has returned. *)

Inductive Put :=
| InWriteFile (key format filePath : string) (url : string) (params : Params)
    (buffer : JS.bytes)
| InStat (key format filePath : string) (url : string) (params : Params)
| InUnlink (rest : list CacheEntry) (currentSize : Z) (entry : CacheEntry)
    (path : string)
| Returned.

(** The loop of [enforceSize] from the test of a round to the next
    [fs.unlink]: [entries] is what is left of the sorted snapshot and
    [currentSize] the counter of the call, both locals of the call. A
    [delete] that finds its key gone returns at once, and the loop goes
    on to the next round. *)
Fixpoint evictNext (c : t) (entries : list CacheEntry) (currentSize : Z) : Put :=
  match entries with
  | [] => Returned
  | entry :: rest =>
      if 5 * currentSize <=? 4 * maxCacheSize c then Returned
      else
        match JSMap.get (cache c) (key entry) with
        | Some stored => InUnlink rest currentSize entry (filePath stored)
        | None => evictNext c rest (currentSize - size (metadata entry))
        end
  end.

(** [enforceSize] up to its first [fs.unlink]. *)
Definition enforceSizeStart (c : t) : Put :=
  let totalSize := totalSize c in
  if totalSize <=? maxCacheSize c then Returned
  else evictNext c (sortByAccess (JSMap.values (cache c))) totalSize.

(** One turn of a call of [set]: the operation it is suspended in
    completes, as [io] and the disk have it, and the call runs on to its
    next await or to its end. [now1] and [now2] are read in the turn that
    follows [fs.stat]. *)
Definition resumePut (io : IO) (c : t) (fs : gmap string JS.bytes) (p : Put)
    (now1 now2 : Z) : Put * t * gmap string JS.bytes :=
  match p with
  | InWriteFile key format filePath url params buffer =>
      match writeFile io fs filePath buffer with
      | None => (Returned, c, fs)
      | Some fs1 => (InStat key format filePath url params, c, fs1)
      end
  | InStat key format filePath url params =>
      match stat_size io fs filePath with
      | None => (Returned, c, fs)
      | Some size =>
          let entry :=
            mkCacheEntry key filePath (mkMeta url params format now1 now2 size) in
          let c1 := set_cache c (JSMap.set (cache c) key entry) in
          (enforceSizeStart c1, c1, fs)
      end
  | InUnlink rest currentSize entry path =>
      let fs' := default fs (unlink io fs path) in
      let c' := set_cache c (JSMap.delete (cache c) (key entry)) in
      (evictNext c' rest (currentSize - size (metadata entry)), c', fs')
  | Returned => (Returned, c, fs)
  end.

(** A call that takes all its turns one after the other. *)
Fixpoint runPut (turns : nat) (io : IO) (c : t) (fs : gmap string JS.bytes)
    (p : Put) (now1 now2 : Z) : Put * t * gmap string JS.bytes :=
  match turns with
  | O => (p, c, fs)
  | S turns' =>
      let '(p', c', fs') := resumePut io c fs p now1 now2 in
      runPut turns' io c' fs' p' now1 now2
  end.

Section StartOfPut.

Variable digest : NormalizedParams -> string.

(** The call [set(url, params, buffer)] up to [fs.writeFile]. *)
Definition put (c : t) (url : string) (params : Params) (buffer : JS.bytes) : Put :=
  let key := generateCacheKey digest url params in
  let format := formatOf params in
  let filePath := getFilePath c key format in
  InWriteFile key format filePath url params buffer.

End StartOfPut.

(** ** Notions used to state the properties *)

(** The index is a [Map]: one binding per key; and every entry is stored
    under its own key, in the file that [set] derives from the key, with
    the size of a file. *)
Definition entry_ok (c : t) (k : string) (e : CacheEntry) : Prop :=
  key e = k /\
  filePath e = getFilePath c k (formatOf (m_params (metadata e))) /\
  0 <= size (metadata e).

Definition wf (c : t) : Prop :=
  NoDup (JSMap.keys (cache c)) /\
  Forall (fun kv => entry_ok c kv.1 kv.2) (cache c).

(** [a] was last accessed no later than [b]. *)
Definition older (a b : CacheEntry) : Prop :=
  lastAccessed (metadata a) <= lastAccessed (metadata b).

(** The normal form of a request in the words of the specification: the
    URL lower-cased and trimmed, the full-page flag, the format, the
    delay, and the viewport unless the full-page flag is set. *)
Definition spec_normal_form (url : string) (params : Params)
    : string * bool * Format * Qc * option (Z * Z) :=
  (JS.trim (JS.toLowerCase url), fullPage params, format params, delay params,
   if fullPage params then None else Some (width params, height params)).

(** The hourly sweep. *)
Definition cleanup (io : IO) (c : t) (fs : gmap string JS.bytes) (now : Z)
    : t * gmap string JS.bytes :=
  let expiredKeys :=
    fmap fst (filter (fun kv => (now - createdAt (metadata kv.2) >? maxCacheAge c) = true)
                    (cache c)) in
  deleteAll io expiredKeys c fs.

Definition clear (io : IO) (c : t) (fs : gmap string JS.bytes)
    : t * gmap string JS.bytes :=
  deleteAll io (JSMap.keys (cache c)) c fs.

(** ** Statistics *)

Record Stats := mkStats {
  totalEntries : nat;
  s_totalSize : Z;
  maxSize : Z;
  maxAge : Z;
  oldestEntry : option Z;
  newestEntry : option Z;
  hitRate : Qc
}.

(** [Math.min(...xs)] and [Math.max(...xs)] of a list that is not empty;
    [None] stands for the [null] that [getStats] answers for an empty one. *)
Definition minOf (xs : list Z) : option Z :=
  match xs with
  | [] => None
  | x :: r => Some (foldr Z.min x r)
  end.

Definition maxOf (xs : list Z) : option Z :=
  match xs with
  | [] => None
  | x :: r => Some (foldr Z.max x r)
  end.

(** The placeholder of the source: [this.cache.size > 0 ? 0.75 : 0]. *)
Definition calculateHitRate (c : t) : Qc :=
  match cache c with
  | [] => 0%Qc
  | _ => Q2Qc (3 # 4)
  end.

Definition getStats (c : t) : Stats :=
  let entries := JSMap.values (cache c) in
  mkStats (length entries) (sumSizes entries) (maxCacheSize c) (maxCacheAge c)
    (minOf ((fun e => createdAt (metadata e)) <$> entries))
    (maxOf ((fun e => createdAt (metadata e)) <$> entries))
    (calculateHitRate c).

(** ** The cache as a transition system *)

Inductive Op :=
| OpGet (io : IO) (url : string) (params : Params) (now : Z)
| OpSet (io : IO) (url : string) (params : Params) (buffer : JS.bytes) (now1 now2 : Z)
| OpCleanup (io : IO) (now : Z)
| OpClear (io : IO).

Definition exec (digest : NormalizedParams -> string)
    (st : t * gmap string JS.bytes) (op : Op) : t * gmap string JS.bytes :=
  match op with
  | OpGet io url params now =>
      let r := get digest io st.1 st.2 url params now in (r.1.2, r.2)
  | OpSet io url params buffer now1 now2 =>
      set digest io st.1 st.2 url params buffer now1 now2
  | OpCleanup io now => cleanup io st.1 st.2 now
  | OpClear io => clear io st.1 st.2
  end.

(** The states a cache with a maximum size that is not negative goes
    through, whatever is on the disk when it is constructed. *)
Inductive reachable (digest : NormalizedParams -> string)
    : t * gmap string JS.bytes -> Prop :=
| reachable_new dir maxSize maxAge fs :
    0 <= maxSize -> reachable digest (new dir maxSize maxAge, fs)
| reachable_step st op :
    reachable digest st -> reachable digest (exec digest st op).

(** Every entry of the index has its file on the disk. *)
Definition files_present (c : t) (fs : gmap string JS.bytes) : Prop :=
  forall k e, JSMap.get (cache c) k = Some e -> is_Some (fs !! filePath e).

(** The index is well formed and within the maximum size. *)
Definition bounded (c : t) : Prop :=
  wf c /\ 0 <= maxCacheSize c /\ totalSize c <= maxCacheSize c.

End Cache.

(* ===================================================================== *)
(** * The job queue ([JobQueue], src/lib/job-queue.ts) *)
(* ===================================================================== *)

Module JobQueue.

Import Security.

Inductive Status := pending | processing | completed | failed.

Record JobResult := mkResult {
  data : string;
  r_format : string;
  timestamp : string;
  fromCache : bool
}.

Record ScreenshotJob := mkJob {
  id : string;
  status : Status;
  params : Params;
  result : option JobResult;
  error : option string;
  createdAt : Z;
  completedAt : option Z
}.

(** The fields of the class, and [suspended]: the activation of
    [processQueue] that waits at an [await] inside the [try] block, with
    its locals [jobId] and [job]. Between two turns of the event loop the
    worker is either absent or suspended there. *)
Record t := mkQueue {
  jobs : gmap string ScreenshotJob;
  processingQueue : list string;
  isProcessing : bool;
  suspended : option (string * ScreenshotJob)
}.

Definition new : t := mkQueue ∅ [] false None.

(** What a [catch] clause can receive: an [Error] with its message, or a
    value that is not an instance of [Error]. *)
Inductive Thrown := ErrorObj (message : string) | NonError.

(** How the [try] block of [processQueue] ends. *)
Inductive Outcome :=
| Done (screenshot : JS.bytes) (fromCache : bool)
| Threw (e : Thrown).

(** What the worker does to the outside world while it captures. *)
Inductive Effect :=
| Capture (p : Params)
| Sleep (ms : Z).

(** [job_${Date.now()}_${Math.random().toString(36).substr(2, 9)}] *)
Definition generateJobId (now : Z) (random : string) : string :=
  "job_" +:+ pretty now +:+ "_" +:+ random.

Definition set_status (job : ScreenshotJob) (s : Status) : ScreenshotJob :=
  mkJob (id job) s (params job) (result job) (error job) (createdAt job)
        (completedAt job).

(** ** The worker loop *)

(** From the test of [while (this.processingQueue.length > 0)] to the
    first [await] of the next job, or to the end of the loop. *)
Fixpoint loopHead (jobs : gmap string ScreenshotJob) (queue : list string)
    : gmap string ScreenshotJob * list string * option (string * ScreenshotJob) :=
  match queue with
  | [] => (jobs, [], None)
  | jobId :: rest =>
      if negb (JS.truthy jobId) then loopHead jobs rest
      else match jobs !! jobId with
           | None => loopHead jobs rest
           | Some job =>
               let job' := set_status job processing in
               (<[jobId := job']> jobs, rest, Some (jobId, job'))
           end
  end.

(** The loop, entered with [isProcessing] set; [this.isProcessing = false]
    once the queue is drained. *)
Definition whileLoop (q : t) : t :=
  let '(jobs', queue', w) := loopHead (jobs q) (processingQueue q) in
  mkQueue jobs' queue' (match w with Some _ => isProcessing q | None => false end) w.

Definition processQueue (q : t) : t :=
  if isProcessing q then q
  else whileLoop (mkQueue (jobs q) (processingQueue q) true (suspended q)).

Definition maxRetries : nat := 2.

Inductive LoopResult :=
| Captured (screenshot : JS.bytes)
| Raised (e : Thrown)
| LoopExit
| OutOfFuel.

Section WithEnvironment.

(** [Buffer.from(screenshot).toString("base64")] *)
Variable base64 : JS.bytes -> string.

(** [createHash("sha256").update(JSON.stringify(n)).digest("hex")] *)
Variable digest : Cache.NormalizedParams -> string.

(** The browser: how the [n]-th call of [captureScreenshot] of the job
    at hand ends, [n] counted from [0]. *)
Variable attempt : nat -> JS.bytes + Thrown.

(** [while (retryCount <= maxRetries) { try { .. break } catch { .. } }] *)
Fixpoint retryLoop (fuel : nat) (p : Params) (retryCount : nat)
    : LoopResult * list Effect :=
  match fuel with
  | O => (OutOfFuel, [])
  | S fuel' =>
      if Nat.leb retryCount maxRetries then
        match attempt retryCount with
        | inl screenshot => (Captured screenshot, [Capture p])
        | inr error =>
            let retryCount := S retryCount in
            if Nat.ltb maxRetries retryCount then (Raised error, [Capture p])
            else
              let '(r, effects) := retryLoop fuel' p retryCount in
              (r, Capture p :: Sleep 2000 :: effects)
        end
      else (LoopExit, [])
  end.

(** The clock and the disk faults the body of one job meets. *)
Record JobEnv := mkJobEnv {
  io_get : Cache.IO;
  now_get : Z;
  io_set : Cache.IO;
  now_created : Z;
  now_accessed : Z
}.

(** The [try] block of [processQueue], up to the point where the
    screenshot is at hand or an error is on its way to [catch]. *)
Definition runJob (env : JobEnv) (job : ScreenshotJob) (cm : Cache.t)
    (fs : gmap string JS.bytes)
    : Outcome * list Effect * Cache.t * gmap string JS.bytes :=
  let p := params job in
  let '(screenshot, cm1, fs1) :=
    Cache.get digest (io_get env) cm fs (url p) p (now_get env) in
  match screenshot with
  | Some buffer => (Done buffer true, [], cm1, fs1)
  | None =>
      match retryLoop (S maxRetries) p 0 with
      | (Captured buffer, effects) =>
          let '(cm2, fs2) :=
            Cache.set digest (io_set env) cm1 fs1 (url p) p buffer
                      (now_created env) (now_accessed env) in
          (Done buffer false, effects, cm2, fs2)
      | (Raised e, effects) => (Threw e, effects, cm1, fs1)
      | (_, effects) =>
          (Threw (ErrorObj "Failed to capture screenshot"), effects, cm1, fs1)
      end
  end.

(** [error instanceof Error ? error.message : "Unknown error occurred"] *)
Definition errorMessage (e : Thrown) : string :=
  match e with
  | ErrorObj message => message
  | NonError => "Unknown error occurred"
  end.

(** The end of the [try] block and the [catch] clause; [now] is
    [Date.now()] and [iso] is [new Date().toISOString()]. *)
Definition settle (job : ScreenshotJob) (o : Outcome) (now : Z) (iso : string)
    : ScreenshotJob :=
  match o with
  | Done screenshot fromCache =>
      let base64Screenshot := base64 screenshot in
      mkJob (id job) completed (params job)
        (Some (mkResult
                 ("data:image/" +:+ format_str (format (params job))
                    +:+ ";base64," +:+ base64Screenshot)
                 (format_str (format (params job))) iso fromCache))
        (error job) (createdAt job) (Some now)
  | Threw e =>
      mkJob (id job) failed (params job) (result job)
        (Some (errorMessage e)) (createdAt job) (Some now)
  end.

(** The worker resumes after the last [await] of a job: it settles the
    job and goes round the loop. The source writes to the job object
    it has taken from the map; here the settled record is stored under
    the identifier of the job, which is the same as long as that
    identifier has not been given to another job in the meantime. *)
Definition resume (q : t) (o : Outcome) (now : Z) (iso : string) : t :=
  match suspended q with
  | None => q
  | Some (jobId, job) =>
      let job' := settle job o now iso in
      whileLoop (mkQueue (<[jobId := job']> (jobs q)) (processingQueue q)
                         (isProcessing q) None)
  end.

End WithEnvironment.

(** ** The public operations *)

(** The part of [createJob] that creates the record and enqueues it. *)
Definition register (q : t) (sanitizedParams : Params) (jobId : string)
    (now : Z) : t :=
  let job := mkJob jobId pending sanitizedParams None None now None in
  mkQueue (<[jobId := job]> (jobs q)) (processingQueue q ++ [jobId])
          (isProcessing q) (suspended q).

Record Created := mkCreated { jobId : string; c_error : option string }.

Section WithURLParser.

Variable parseURL : string -> option ParsedURL.

(** [createJob(params)]; [now_id] and [random] are what [generateJobId]
    draws, [now] is the [Date.now()] of [createdAt]. *)
Definition createJob (q : t) (params : RawParams) (now_id : Z)
    (random : string) (now : Z) : Created * t :=
  let urlValidation := validateUrl parseURL (url_text (raw_url params)) in
  if negb (valid urlValidation)
  then (mkCreated "" (Security.error urlValidation), q)
  else
    let sanitizedParams := sanitizeScreenshotParams params in
    if negb (JS.truthy (url sanitizedParams))
    then (mkCreated "" (Some "URL is required"), q)
    else
      let jobId := generateJobId now_id random in
      let q1 := register q sanitizedParams jobId now in
      let q2 := if negb (isProcessing q1) then processQueue q1 else q1 in
      (mkCreated jobId None, q2).

End WithURLParser.

(** [getJob(jobId)]: [job || null] *)
Definition getJob (q : t) (jobId : string) : option ScreenshotJob :=
  jobs q !! jobId.

(** [job.completedAt && job.completedAt < oneHourAgo] *)
Definition stale (now : Z) (job : ScreenshotJob) : bool :=
  match completedAt job with
  | Some t => negb (t =? 0) && (t <? now - 60 * 60 * 1000)
  | None => false
  end.

Definition cleanup (q : t) (now : Z) : t :=
  mkQueue (filter (fun kv => stale now kv.2 = false) (jobs q))
          (processingQueue q) (isProcessing q) (suspended q).

(** ** The job status route

    The handler of [GET /api/screenshot/status/:jobId] answers with this
    projection of the job that [getJob] hands it. *)

Record StatusResponse := mkResponse {
  s_jobId : string;
  s_status : Status;
  s_createdAt : string;
  s_completedAt : option string;
  s_result : option JobResult;
  s_error : option string
}.

Section WithDates.

(** [new Date(ms).toISOString()] *)
Variable toISOString : Z -> string.

Definition statusResponse (job : ScreenshotJob) : StatusResponse :=
  mkResponse (id job) (status job) (toISOString (createdAt job))
    (match completedAt job with
     | Some t => if t =? 0 then None else Some (toISOString t)
     | None => None
     end)
    (result job) (error job).

End WithDates.

(** ** The scheduler as a transition system *)

Inductive Event :=
| Register (sanitizedParams : Params) (now_id : Z) (random : string) (now : Z)
| ProcessQueue
| Resume (o : Outcome) (now : Z) (iso : string)
| Cleanup (now : Z).

(** Identifiers are drawn fresh, and the worker resumes only where it is
    suspended. *)
Definition enabled (q : t) (ev : Event) : Prop :=
  match ev with
  | Register _ now_id random _ => jobs q !! generateJobId now_id random = None
  | Resume _ _ _ => suspended q <> None
  | _ => True
  end.

Section WithEncoder.

Variable base64 : JS.bytes -> string.

Definition exec (q : t) (ev : Event) : t :=
  match ev with
  | Register p now_id random now => register q p (generateJobId now_id random) now
  | ProcessQueue => processQueue q
  | Resume o now iso => resume base64 q o now iso
  | Cleanup now => cleanup q now
  end.

Inductive reachable : t -> Prop :=
| reachable_new : reachable new
| reachable_step q ev : reachable q -> enabled q ev -> reachable (exec q ev).

End WithEncoder.

Definition terminal (s : Status) : bool :=
  match s with
  | completed | failed => true
  | _ => false
  end.

(** ** Notions used to state the properties *)

(** What holds of the scheduler between two turns of the event loop:
    the queued identifiers are distinct and name pending jobs, the
    worker is suspended on a job that is being processed, or is absent
    with [isProcessing] cleared, and a job carries a completion time
    exactly when its status is terminal. *)
Definition Inv (q : t) : Prop :=
  (forall jobId, jobId ∈ processingQueue q ->
     JS.truthy jobId = true /\
     exists job, jobs q !! jobId = Some job /\ status job = pending) /\
  NoDup (processingQueue q) /\
  match suspended q with
  | Some (jobId, job) =>
      jobs q !! jobId = Some job /\ status job = processing /\ isProcessing q = true
  | None => isProcessing q = false
  end /\
  (forall jobId job, jobs q !! jobId = Some job ->
     (completedAt job = None <-> terminal (status job) = false)).

(** The worker loop runs in the event. *)
Definition worker_event (ev : Event) : Prop :=
  match ev with
  | ProcessQueue | Resume _ _ _ => True
  | _ => False
  end.

(** What one event may do to the job stored under [jobId]. *)
Definition lifecycle_step (q : t) (ev : Event) (q' : t) (jobId : string) : Prop :=
  match jobs q !! jobId, jobs q' !! jobId with
  | None, None => True
  | None, Some job' =>
      (* created *)
      status job' = pending /\ completedAt job' = None /\
      exists p now_id random now,
        ev = Register p now_id random now /\ jobId = generateJobId now_id random
  | Some job, None =>
      (* swept after completion *)
      terminal (status job) = true /\ exists now, ev = Cleanup now
  | Some job, Some job' =>
      job' = job \/
      (* dequeued by the worker loop *)
      (status job = pending /\ status job' = processing /\
       completedAt job' = None /\ worker_event ev /\
       (jobId ∈ processingQueue q) /\ (jobId ∉ processingQueue q') /\
       suspended q' = Some (jobId, job')) \/
      (* settled by the worker loop *)
      (status job = processing /\ terminal (status job') = true /\
       completedAt job = None /\
       exists o now iso, ev = Resume o now iso /\ completedAt job' = Some now)
  end.

(** ** Statistics *)

Definition status_eqb (a b : Status) : bool :=
  match a, b with
  | pending, pending | processing, processing
  | completed, completed | failed, failed => true
  | _, _ => false
  end.

(** [Array.from(this.jobs.values())], as a collection: the order of a
    [gmap] is not the insertion order of the [Map]. *)
Definition getAllJobs (q : t) : list ScreenshotJob := (map_to_list (jobs q)).*2.

(** [Array.from(this.jobs.values()).filter((job) => job.status === s).length] *)
Definition countStatus (q : t) (s : Status) : nat :=
  length (filter (fun job => status_eqb (status job) s = true) (getAllJobs q)).

Record QueueStats := mkQueueStats {
  total : nat;
  n_pending : nat;
  n_processing : nat;
  n_completed : nat;
  n_failed : nat;
  s_isProcessing : bool
}.

Definition getQueueStats (q : t) : QueueStats :=
  mkQueueStats (size (jobs q)) (countStatus q pending) (countStatus q processing)
               (countStatus q completed) (countStatus q failed) (isProcessing q).

(** ** The scheduler as its callers drive it *)

(** What happens to the scheduler in one turn of the event loop: a call
    of [createJob], the resumption of the worker, or the retention sweep. *)
Inductive Call :=
| CallCreate (raw : RawParams) (now_id : Z) (random : string) (now : Z)
| CallResume (o : Outcome) (now : Z) (iso : string)
| CallCleanup (now : Z).

Definition call_ok (q : t) (c : Call) : Prop :=
  match c with
  | CallCreate _ now_id random _ => jobs q !! generateJobId now_id random = None
  | CallResume _ _ _ => suspended q <> None
  | CallCleanup _ => True
  end.

Section WithCollaborators.

Variable parseURL : string -> option ParsedURL.
Variable base64 : JS.bytes -> string.

Definition call (q : t) (c : Call) : t :=
  match c with
  | CallCreate raw now_id random now => (createJob parseURL q raw now_id random now).2
  | CallResume o now iso => resume base64 q o now iso
  | CallCleanup now => cleanup q now
  end.

Inductive served : t -> Prop :=
| served_new : served new
| served_call q c : served q -> call_ok q c -> served (call q c).

End WithCollaborators.

(** One worker: the job that is being processed is the one the worker is
    suspended on; no job is lost: a pending job is in the queue; and
    every job is stored under its own identifier. *)
Definition Tracked (q : t) : Prop :=
  (forall jobId job, jobs q !! jobId = Some job -> status job = processing ->
     suspended q = Some (jobId, job)) /\
  (forall jobId job, jobs q !! jobId = Some job -> status job = pending ->
     jobId ∈ processingQueue q) /\
  (forall jobId job, jobs q !! jobId = Some job -> id job = jobId).

Definition set_params (job : ScreenshotJob) (p : Params) : ScreenshotJob :=
  mkJob (id job) (status job) p (result job) (error job) (createdAt job)
        (completedAt job).

(** [n] captures with a wait of two seconds between one and the next. *)
Fixpoint attempts (p : Params) (n : nat) : list Effect :=
  match n with
  | O => []
  | 1%nat => [Capture p]
  | S n' => Capture p :: Sleep 2000 :: attempts p n'
  end.

End JobQueue.

(* ===================================================================== *)
(** * The route handlers *)
(* ===================================================================== *)

(** [POST /api/screenshot/async] (src/unnamed/part_000), [POST
    /api/screenshot] with the query parser of its [GET], and [GET
    /api/screenshot/status/:jobId] (src/app/api/screenshot/route.ts). *)

Module Routes.

Import Security.

(** The JSON bodies the handlers answer with. *)
Inductive Body :=
| RateLimitExceeded (resetTime : string) (remaining : Z)
| Failure (error : option string)
| JobCreated (jobId : string) (statusUrl : string)
| Image (image : string) (format : Format) (timestamp : string) (fromCache : bool)
| JobStatus (response : JobQueue.StatusResponse).

(** A response: its status, its body and the headers that differ from
    one response to the next, with the numbers they print kept as
    numbers. [getSecurityHeaders()], which every JSON response carries,
    and the constant [X-RateLimit-Limit] are left out. *)
Record Response := mkResponse {
  status : Z;
  body : Body;
  x_ratelimit_remaining : option Z;
  x_ratelimit_reset : option Z;
  retry_after : option Z;
  x_cache : option string
}.

(** [Math.ceil(x / d)] for a positive [d] *)
Definition ceil_div (x d : Z) : Z := - ((- x) / d).

Definition failure (status : Z) (error : option string) : Response :=
  mkResponse status (Failure error) None None None None.

Section WithDates.

(** [new Date(ms).toISOString()] *)
Variable toISOString : Z -> string.

(** The answer to a request over the limit; [now] is the [Date.now()]
    that [Retry-After] is computed from. *)
Definition rateLimitExceeded (rateLimitResult : RateLimiter.Result) (now : Z)
    : Response :=
  let resetDate := toISOString (RateLimiter.resetAt rateLimitResult) in
  mkResponse 429
    (RateLimitExceeded resetDate (RateLimiter.remaining rateLimitResult))
    (Some (RateLimiter.remaining rateLimitResult))
    (Some (RateLimiter.resetAt rateLimitResult))
    (Some (ceil_div (RateLimiter.resetAt rateLimitResult - now) 1000))
    None.

End WithDates.

(** ** [POST /api/screenshot/async] *)

Module Async.

Section WithCollaborators.

Variable parseURL : string -> option ParsedURL.
Variable toISOString : Z -> string.

(** [body] is what [await request.json()] and the first property
    access on its value come to: the object [createJob] reads, or
    the error thrown on the way to it (a text that is not JSON, the
    value [null]). [now] and [now_retry] are the values of
    [Date.now()] in [checkLimit] and in the [Retry-After] header;
    [now_id], [random] and [now_created] are what [createJob]
    draws. *)
Definition POST (rl : RateLimiter.t) (q : JobQueue.t)
    (request : RateLimiter.Request) (now now_retry : Z)
    (body : JobQueue.Thrown + RawParams)
    (now_id : Z) (random : string) (now_created : Z)
    : Response * RateLimiter.t * JobQueue.t :=
  let '(rateLimitResult, rl1) := RateLimiter.checkLimit rl request now in
  if negb (RateLimiter.allowed rateLimitResult)
  then (rateLimitExceeded toISOString rateLimitResult now_retry, rl1, q)
  else
    match body with
    | inl _ =>
        (failure 500 (Some "Failed to create screenshot job. Please try again."),
         rl1, q)
    | inr body =>
        let '(result, q1) :=
          JobQueue.createJob parseURL q body now_id random now_created in
        if JS.truthy_opt (JobQueue.c_error result)
        then (failure 400 (JobQueue.c_error result), rl1, q1)
        else
          (mkResponse 200
             (JobCreated (JobQueue.jobId result)
                ("/api/screenshot/status/" +:+ JobQueue.jobId result))
             (Some (RateLimiter.remaining rateLimitResult))
             (Some (RateLimiter.resetAt rateLimitResult))
             None None,
           rl1, q1)
    end.

End WithCollaborators.

End Async.

(** ** [/api/screenshot] *)

Module Sync.

(** What [searchParams.get] answers for the six names the handler of
    [GET] asks for; [None] is [null]. *)
Record SearchParams := mkSearch {
  sp_url : option string;
  sp_fullPage : option string;
  sp_width : option string;
  sp_height : option string;
  sp_format : option string;
  sp_delay : option string
}.

(** [searchParams.get(name) || d] *)
Definition or_text (value : option string) (d : string) : string :=
  match value with
  | Some s => if JS.truthy s then s else d
  | None => d
  end.

(** [Math.min(Math.max(n, lo), hi)] for an integer or [NaN]; [NaN]
    stays [NaN]. *)
Definition clamp_int (n : option Z) (lo hi : Z) : option Z :=
  match n with
  | Some z => Some (Z.min (Z.max z lo) hi)
  | None => None
  end.

(** [Math.min(Math.max(d, 0), 10)] *)
Definition clamp_float (d : Float) : Float :=
  match d with
  | NaN => NaN
  | PosInf => Fin (Q2Qc 10)
  | NegInf => Fin 0%Qc
  | Fin q =>
      let lo := if Qc_ltb q 0%Qc then 0%Qc else q in
      Fin (if Qc_ltb (Q2Qc 10) lo then Q2Qc 10 else lo)
  end.

Section WithNumberParsers.

(** [Number.parseInt], [None] for [NaN], and [Number.parseFloat]. *)
Variable parseInt : string -> option Z.
Variable parseFloat : string -> Float.

(** [parseScreenshotParams(searchParams)]: the object it returns, as
    [sanitizeScreenshotParams] reads it. *)
Definition parseScreenshotParams (searchParams : SearchParams) : RawParams :=
  let url := or_text (sp_url searchParams) "" in
  let fullPage :=
    bool_decide (sp_fullPage searchParams = Some "1")
    || bool_decide (sp_fullPage searchParams = Some "true") in
  let width := clamp_int (parseInt (or_text (sp_width searchParams) "1280")) 320 3840 in
  let height := clamp_int (parseInt (or_text (sp_height searchParams) "800")) 240 2160 in
  let formatParam := or_text (sp_format searchParams) "png" in
  let format :=
    if existsb (String.eqb formatParam) ["png"; "jpeg"; "webp"; "avif"; "bmp"]
    then formatParam else "png" in
  let delay := clamp_float (parseFloat (or_text (sp_delay searchParams) "0")) in
  mkRaw (Some url) fullPage width height format delay.

End WithNumberParsers.

(** The [catch] clause of the two handlers. *)
Definition classify (error : JobQueue.Thrown) : Response :=
  match error with
  | JobQueue.ErrorObj message =>
      if JS.includes message "timeout"
      then failure 408 (Some "Request timeout. The page took too long to load.")
      else if JS.includes message "net::ERR_NAME_NOT_RESOLVED"
      then failure 400 (Some "Unable to resolve the provided URL.")
      else failure 500 (Some "Failed to capture screenshot. Please try again.")
  | JobQueue.NonError =>
      failure 500 (Some "Failed to capture screenshot. Please try again.")
  end.

Section WithCollaborators.

Variable digest : Cache.NormalizedParams -> string.
Variable parseURL : string -> option ParsedURL.
Variable base64 : JS.bytes -> string.
Variable toISOString : Z -> string.

(** The handler of [POST], run without another request in between.
    [body] is as for the asynchronous route; [env] holds the clock
    and the disk faults that [cacheManager.get] and [cacheManager.set]
    meet; [captured] is how the one call of [captureScreenshot] ends,
    were it made; [now_stamp] is the time of the [timestamp]. The
    list of effects tells whether the browser was called. A [Buffer]
    is truthy, so the test [!screenshot] after the capture never
    fires. *)
Definition POST (rl : RateLimiter.t) (cm : Cache.t) (fs : gmap string JS.bytes)
    (request : RateLimiter.Request) (now now_retry : Z)
    (body : JobQueue.Thrown + RawParams) (env : JobQueue.JobEnv)
    (captured : JS.bytes + JobQueue.Thrown) (now_stamp : Z)
    : Response * list JobQueue.Effect * RateLimiter.t * Cache.t
      * gmap string JS.bytes :=
  let '(rateLimitResult, rl1) := RateLimiter.checkLimit rl request now in
  let ok (params : Params) (screenshot : JS.bytes) (fromCache : bool) :=
    mkResponse 200
      (Image (base64 screenshot) (format params) (toISOString now_stamp) fromCache)
      (Some (RateLimiter.remaining rateLimitResult))
      (Some (RateLimiter.resetAt rateLimitResult))
      None (Some (if fromCache then "HIT" else "MISS")) in
  if negb (RateLimiter.allowed rateLimitResult)
  then (rateLimitExceeded toISOString rateLimitResult now_retry, [], rl1, cm, fs)
  else
    match body with
    | inl error => (classify error, [], rl1, cm, fs)
    | inr body =>
        let params := sanitizeScreenshotParams body in
        if negb (JS.truthy (url params))
        then (failure 400 (Some "URL is required"), [], rl1, cm, fs)
        else
          let urlValidation := validateUrl parseURL (url params) in
          if negb (valid urlValidation)
          then (failure 400 (Security.error urlValidation), [], rl1, cm, fs)
          else
            let '(screenshot, cm1, fs1) :=
              Cache.get digest (JobQueue.io_get env) cm fs (url params) params
                        (JobQueue.now_get env) in
            match screenshot with
            | Some buffer => (ok params buffer true, [], rl1, cm1, fs1)
            | None =>
                match captured with
                | inl buffer =>
                    let '(cm2, fs2) :=
                      Cache.set digest (JobQueue.io_set env) cm1 fs1 (url params)
                                params buffer (JobQueue.now_created env)
                                (JobQueue.now_accessed env) in
                    (ok params buffer false, [JobQueue.Capture params], rl1, cm2, fs2)
                | inr error =>
                    (classify error, [JobQueue.Capture params], rl1, cm1, fs1)
                end
            end
    end.

End WithCollaborators.

End Sync.

(** ** [GET /api/screenshot/status/:jobId] *)

Module Status.

Section WithDates.

Variable toISOString : Z -> string.

Definition GET (q : JobQueue.t) (jobId : string) : Response :=
  if negb (JS.truthy jobId)
  then failure 400 (Some "Job ID is required")
  else
    match JobQueue.getJob q jobId with
    | None => failure 404 (Some "Job not found")
    | Some job =>
        mkResponse 200 (JobStatus (JobQueue.statusResponse toISOString job))
                   None None None None
    end.

End WithDates.

End Status.

End Routes.

(* ===================================================================== *)
(** * Sample inputs *)
(* ===================================================================== *)

Module Sample.

Import Security.

(** A stand-in for the digest: the URL and the format of the normal form. *)
Definition digest (n : Cache.NormalizedParams) : string :=
  Cache.n_url n +:+ "#" +:+ Cache.n_format n.

Definition request : Params := mkParams "https://example.com" false 1280 800 png 0%Qc.

(** The same page, full-page, asked for in two spellings and two viewports. *)
Definition fullA : Params := mkParams "  HTTPS://Example.COM/a " true 1280 800 webp 0%Qc.
Definition fullB : Params := mkParams "https://example.com/a" true 320 240 webp 0%Qc.

(** A disk on which nothing fails. *)
Definition io : Cache.IO :=
  Cache.mkIO (fun _ => false) (fun _ => false) (fun _ => false) (fun _ => false).

(** A disk on which no file can be unlinked. *)
Definition io_no_unlink : Cache.IO :=
  Cache.mkIO (fun _ => false) (fun _ => false) (fun _ => false) (fun _ => true).

Definition bytes5 : JS.bytes := [Byte.x01; Byte.x02; Byte.x03; Byte.x04; Byte.x05].

Definition entry (k : string) (accessed size : Z) : Cache.CacheEntry :=
  Cache.mkCacheEntry k ("/cache/" +:+ k +:+ ".png")
    (Cache.mkMeta "https://example.com" request "png" 0 accessed size).

(** A cache of at most 10 bytes that holds 8. *)
Definition smallCache : Cache.t :=
  Cache.mkCache [("b", entry "b" 20 4); ("a", entry "a" 10 4)] "/cache" 10
                Cache.defaultMaxCacheAge.

Definition emptyCache : Cache.t :=
  Cache.new "/cache" Cache.defaultMaxCacheSize Cache.defaultMaxCacheAge.

(** A stand-in for [new URL(url)] on texts of the shape
    [scheme://host/path]: the scheme with its colon, lower-cased, and the
    host up to the first slash. *)
Fixpoint upTo (stop : ascii) (s : string) : string :=
  match s with
  | EmptyString => EmptyString
  | String a r => if Ascii.eqb a stop then EmptyString else String a (upTo stop r)
  end.

Definition parseURL (url : string) : option ParsedURL :=
  match String.index 0 "://" url with
  | Some i =>
      let scheme := String.substring 0 i url in
      let rest := String.substring (i + 3) (String.length url - (i + 3)) url in
      if JS.truthy scheme
      then Some (mkURL (JS.toLowerCase scheme +:+ ":") (upTo "/" rest))
      else None
  | None => None
  end.

Definition raw (u : string) : RawParams :=
  mkRaw (Some u) false (Some 1280) (Some 800) "png" (Fin 0%Qc).

(** A stand-in for the base64 encoder. *)
Definition base64 (b : JS.bytes) : string := "".

Definition job : JobQueue.ScreenshotJob :=
  JobQueue.mkJob "job_1_a" JobQueue.processing request None None 5 None.

(** The same job, had it been submitted for another page. *)
Definition otherJob : JobQueue.ScreenshotJob :=
  JobQueue.mkJob "job_1_a" JobQueue.processing fullB None None 5 None.

Definition env : JobQueue.JobEnv := JobQueue.mkJobEnv io 10 io 20 20.

(** A browser that times out on every attempt. *)
Definition timesOut (n : nat) : JS.bytes + JobQueue.Thrown :=
  inr (JobQueue.ErrorObj "Navigation timeout of 30000 ms exceeded").

(** A browser that fails once and then delivers. *)
Definition secondTime (n : nat) : JS.bytes + JobQueue.Thrown :=
  match n with
  | O => inr (JobQueue.ErrorObj "net::ERR_CONNECTION_RESET")
  | _ => inl bytes5
  end.

(** A limiter whose only client has used up its window. *)
Definition exhausted : RateLimiter.t :=
  RateLimiter.mkLimiter {[ "unknown" := RateLimiter.mkEntry 10 61000 ]} 10 60000.

Definition bytes4 : JS.bytes := [Byte.x0a; Byte.x0b; Byte.x0c; Byte.x0d].

(** A cache of at most 10 bytes that holds two files of 4 bytes, stored
    at the times 1 and 2. *)
Definition twoFiles : Cache.t * gmap string JS.bytes :=
  let s := Cache.set digest io (Cache.new "/cache" 10 Cache.defaultMaxCacheAge) ∅
             "https://example.com/1" request bytes4 1 1 in
  Cache.set digest io s.1 s.2 "https://example.com/2" request bytes4 2 2.

(** A request without proxy headers: the client [unknown]. *)
Definition anonymous : RateLimiter.Request := RateLimiter.mkRequest None None None.

(** A stand-in for [toISOString]: the milliseconds in decimal. *)
Definition toISOString (ms : Z) : string := pretty ms.

End Sample.

(* ===================================================================== *)
(** * Properties of the rate limiter *)
(* ===================================================================== *)

Section RateLimiterProperties.

Import RateLimiter.

Implicit Types (rl : RateLimiter.t) (request : Request) (now : Z).

Lemma checkLimit_settings rl request now :
  maxRequests (checkLimit rl request now).2 = maxRequests rl /\
  windowMs (checkLimit rl request now).2 = windowMs rl.
Proof.
  unfold checkLimit.
  destruct (requests rl !! getClientIP request) as [entry|]; [|done].
  destruct (now >? resetTime entry); [done|].
  destruct (count entry >=? maxRequests rl); done.
Qed.

(** A call that finds no window, or an expired one, opens a window. *)
Lemma checkLimit_opens rl request now :
  window_closed rl request now ->
  checkLimit rl request now =
    (mkResult true (maxRequests rl - 1) (now + windowMs rl),
     set_requests rl
       (<[getClientIP request := mkEntry 1 (now + windowMs rl)]> (requests rl))).
Proof.
  unfold window_closed, checkLimit.
  destruct (requests rl !! getClientIP request) as [entry|]; [|done].
  intros Hexp. destruct (Z.gtb_spec now (resetTime entry)); [done|lia].
Qed.

(** A call inside the window, below the maximum, is counted. *)
Lemma checkLimit_counts rl request now c reset :
  requests rl !! getClientIP request = Some (mkEntry c reset) ->
  now <= reset -> c < maxRequests rl ->
  checkLimit rl request now =
    (mkResult true (maxRequests rl - (c + 1)) reset,
     set_requests rl (<[getClientIP request := mkEntry (c + 1) reset]> (requests rl))).
Proof.
  intros Hl Hnow Hc. unfold checkLimit. rewrite Hl. simpl.
  destruct (Z.gtb_spec now reset); [lia|].
  destruct (Z.geb_spec c (maxRequests rl)); [lia|done].
Qed.

(** A call inside the window, at the maximum, is denied and changes nothing. *)
Lemma checkLimit_denies rl request now entry :
  requests rl !! getClientIP request = Some entry ->
  now <= resetTime entry -> maxRequests rl <= count entry ->
  checkLimit rl request now = (mkResult false 0 (resetTime entry), rl).
Proof.
  intros Hl Hnow Hc. unfold checkLimit. rewrite Hl.
  destruct (Z.gtb_spec now (resetTime entry)); [lia|].
  destruct (Z.geb_spec (count entry) (maxRequests rl)); [done|lia].
Qed.

Lemma counted_shift rl c reset n :
  map (fun k => mkResult true (maxRequests rl - (c + 1 + Z.of_nat k)) reset) (seq 1 n)
  = map (fun k => mkResult true (maxRequests rl - (c + Z.of_nat k)) reset) (seq 2 n).
Proof.
  rewrite <- (seq_shift n 1), map_map. apply map_ext. intros k.
  f_equal. lia.
Qed.

Lemma checkLimits_in_window times : forall rl request c reset,
  requests rl !! getClientIP request = Some (mkEntry c reset) ->
  Forall (fun now => now <= reset) times ->
  c + Z.of_nat (length times) <= maxRequests rl ->
  (checkLimits rl request times).1 = counted rl c reset (length times) /\
  requests (checkLimits rl request times).2 =
    <[getClientIP request := mkEntry (c + Z.of_nat (length times)) reset]> (requests rl) /\
  maxRequests (checkLimits rl request times).2 = maxRequests rl /\
  windowMs (checkLimits rl request times).2 = windowMs rl.
Proof.
  induction times as [|now rest IH]; intros rl request c reset Hl Hin Hc.
  - simpl. rewrite Z.add_0_r. rewrite insert_id; done.
  - apply Forall_cons in Hin as [Hnow Hrest].
    cbn [checkLimits length] in *.
    rewrite (checkLimit_counts rl request now c reset) by (done || lia).
    set (rl1 := set_requests rl _).
    assert (Hl1 : requests rl1 !! getClientIP request = Some (mkEntry (c + 1) reset))
      by (subst rl1; simpl; apply lookup_insert_eq).
    assert (Hc1 : c + 1 + Z.of_nat (length rest) <= maxRequests rl1)
      by (subst rl1; simpl; lia).
    destruct (IH rl1 request (c + 1) reset Hl1 Hrest Hc1) as (Hr & Hs & Hm & Hw).
    destruct (checkLimits rl1 request rest) as [rs rl2]. simpl in *.
    split; [|split; [|split]].
    + rewrite Hr. unfold counted. simpl. f_equal. apply counted_shift.
    + rewrite Hs, insert_insert_eq. do 2 f_equal. lia.
    + rewrite Hm. done.
    + rewrite Hw. done.
Qed.

(** A run of calls that starts by opening a window and stays inside it. *)
Lemma checkLimits_from_closed rl request t1 rest :
  window_closed rl request t1 ->
  Forall (fun now => now <= t1 + windowMs rl) rest ->
  1 + Z.of_nat (length rest) <= maxRequests rl ->
  (checkLimits rl request (t1 :: rest)).1 =
    map (fun k => mkResult true (maxRequests rl - Z.of_nat k) (t1 + windowMs rl))
        (seq 1 (S (length rest))) /\
  requests (checkLimits rl request (t1 :: rest)).2 =
    <[getClientIP request := mkEntry (1 + Z.of_nat (length rest)) (t1 + windowMs rl)]>
      (requests rl) /\
  maxRequests (checkLimits rl request (t1 :: rest)).2 = maxRequests rl /\
  windowMs (checkLimits rl request (t1 :: rest)).2 = windowMs rl.
Proof.
  intros Hclosed Hin Hlen. cbn [checkLimits].
  rewrite (checkLimit_opens rl request t1 Hclosed).
  set (rl1 := set_requests rl _).
  assert (Hl1 : requests rl1 !! getClientIP request
                = Some (mkEntry 1 (t1 + windowMs rl)))
    by (subst rl1; simpl; apply lookup_insert_eq).
  destruct (checkLimits_in_window rest rl1 request 1 (t1 + windowMs rl) Hl1 Hin)
    as (Hr & Hs & Hm & Hw); [subst rl1; simpl; lia|].
  destruct (checkLimits rl1 request rest) as [rs rl2]. simpl in *.
  split; [|split; [|split]]; [| |done|done].
  - rewrite Hr. unfold counted. cbn [seq map]. f_equal.
    rewrite <- (seq_shift (length rest) 1), map_map.
    apply map_ext. intros k. f_equal. subst rl1. simpl. lia.
  - rewrite Hs, insert_insert_eq. done.
Qed.

Lemma checkLimits_denied times : forall rl request entry,
  requests rl !! getClientIP request = Some entry ->
  maxRequests rl <= count entry ->
  Forall (fun now => now <= resetTime entry) times ->
  checkLimits rl request times =
    (map (fun _ => mkResult false 0 (resetTime entry)) times, rl).
Proof.
  induction times as [|now rest IH]; intros rl request entry Hl Hc Hin; [done|].
  apply Forall_cons in Hin as [Hnow Hrest]. cbn [checkLimits].
  rewrite (checkLimit_denies rl request now entry Hl Hnow Hc).
  rewrite (IH rl request entry Hl Hc Hrest). done.
Qed.

(** C4. With at most 10 requests per window of 60000 ms, let a client
    call [checkLimit] at [t1], where it has no live window, and then nine
    more times no later than [t1 + 60000]. For every [k] from 1 to 10 the
    first [k] calls are all allowed, the [k]-th with [remaining = 10 - k]
    while the stored count is [k] and the reset time is [t1 + 60000]. An
    eleventh call inside the window is denied with [remaining = 0] and
    the same reset time, and leaves the limiter as it was. A call after
    the reset time opens a new window with count 1 and reset time
    [now + 60000], and is allowed with [remaining = 9]. *)
Theorem C4_fixed_window_of_ten rl request (t1 : Z) (later : list Z) (t11 now : Z) :
  maxRequests rl = 10 -> windowMs rl = 60000 ->
  window_closed rl request t1 ->
  length later = 9%nat ->
  Forall (fun t => t <= t1 + 60000) later ->
  t11 <= t1 + 60000 ->
  now > t1 + 60000 ->
  let ip := getClientIP request in
  let rl10 := (checkLimits rl request (t1 :: later)).2 in
  (forall k, (1 <= k <= 10)%nat ->
     (checkLimits rl request (take k (t1 :: later))).1 =
       map (fun i => mkResult true (10 - Z.of_nat i) (t1 + 60000)) (seq 1 k) /\
     requests (checkLimits rl request (take k (t1 :: later))).2 !! ip =
       Some (mkEntry (Z.of_nat k) (t1 + 60000))) /\
  checkLimit rl10 request t11 = (mkResult false 0 (t1 + 60000), rl10) /\
  checkLimit rl10 request now =
    (mkResult true 9 (now + 60000),
     set_requests rl10 (<[ip := mkEntry 1 (now + 60000)]> (requests rl10))).
Proof.
  intros Hmax Hwin Hclosed Hlen Hin H11 Hnow ip rl10.
  assert (Hprefix : forall k, (1 <= k <= 10)%nat ->
    (checkLimits rl request (take k (t1 :: later))).1 =
      map (fun i => mkResult true (10 - Z.of_nat i) (t1 + 60000)) (seq 1 k) /\
    requests (checkLimits rl request (take k (t1 :: later))).2 =
      <[ip := mkEntry (Z.of_nat k) (t1 + 60000)]> (requests rl) /\
    maxRequests (checkLimits rl request (take k (t1 :: later))).2 = 10 /\
    windowMs (checkLimits rl request (take k (t1 :: later))).2 = 60000).
  { intros k Hk. destruct k as [|k]; [lia|]. rewrite firstn_cons.
    assert (Hlk : length (take k later) = k) by (rewrite length_take; lia).
    destruct (checkLimits_from_closed rl request t1 (take k later) Hclosed)
      as (Hr & Hs & Hm & Hw).
    - rewrite Hwin. by apply Forall_take.
    - rewrite Hlk, Hmax. lia.
    - rewrite Hlk, Hmax, Hwin in *. rewrite Hr, Hs, Hm, Hw.
      repeat split. do 2 f_equal. lia. }
  assert (Hall : take 10 (t1 :: later) = t1 :: later)
    by (apply firstn_all2; simpl; lia).
  destruct (Hprefix 10%nat ltac:(lia)) as (_ & Hs & Hm & Hw).
  rewrite Hall in Hs, Hm, Hw. fold rl10 in Hs, Hm, Hw.
  split; [|split].
  - intros k Hk. destruct (Hprefix k Hk) as (Hr & Hsk & _).
    split; [done|]. rewrite Hsk. apply lookup_insert_eq.
  - apply (checkLimit_denies rl10 request t11 (mkEntry 10 (t1 + 60000))).
    + rewrite Hs. apply lookup_insert_eq.
    + done.
    + simpl. lia.
  - rewrite (checkLimit_opens rl10 request now).
    + by rewrite Hm, Hw.
    + unfold window_closed. fold ip. rewrite Hs, lookup_insert_eq. simpl. lia.
Qed.

Lemma C4_fixed_window_of_ten_witness :
  let request := mkRequest None None None in
  let rl10 := (checkLimits rateLimiter request (1000 :: replicate 9 2000)).2 in
  checkLimit rl10 request 3000 = (mkResult false 0 61000, rl10) /\
  checkLimit rl10 request 70000 =
    (mkResult true 9 130000,
     set_requests rl10 (<["unknown" := mkEntry 1 130000]> (requests rl10))).
Proof.
  intros request rl10.
  refine (proj2 (C4_fixed_window_of_ten rateLimiter request 1000
                   (replicate 9 2000) 3000 70000 _ _ _ _ _ _ _)).
  - reflexivity.
  - reflexivity.
  - exact I.
  - reflexivity.
  - repeat constructor; lia.
  - lia.
  - lia.
Defined.

(** C10. A denied check mutates nothing. When the client's window has not
    expired and its count has reached the maximum, [checkLimit] answers
    with a denial and returns the limiter unchanged: the same windows for
    every client, the denied client's count and reset time included. So a
    run of such calls, however long, is a run of denials that ends in the
    state it started from. *)
Theorem C10_denied_check_mutates_nothing rl request (now : Z) entry :
  requests rl !! getClientIP request = Some entry ->
  now <= resetTime entry ->
  count entry >= maxRequests rl ->
  allowed (checkLimit rl request now).1 = false /\
  (checkLimit rl request now).2 = rl /\
  (forall ip, requests (checkLimit rl request now).2 !! ip = requests rl !! ip) /\
  (forall times, Forall (fun t => t <= resetTime entry) times ->
     checkLimits rl request times =
       (map (fun _ => mkResult false 0 (resetTime entry)) times, rl)).
Proof.
  intros Hl Hnow Hc.
  rewrite (checkLimit_denies rl request now entry Hl Hnow) by lia.
  repeat split. intros times Hin.
  apply checkLimits_denied; [done|lia|done].
Qed.

Lemma C10_denied_check_mutates_nothing_witness :
  (checkLimit Sample.exhausted (mkRequest None None None) 3000).2 = Sample.exhausted.
Proof.
  refine (proj1 (proj2 (C10_denied_check_mutates_nothing Sample.exhausted
                          (mkRequest None None None) 3000 (mkEntry 10 61000) _ _ _))).
  - reflexivity.
  - simpl. lia.
  - simpl. lia.
Defined.

End RateLimiterProperties.

(* ===================================================================== *)
(** * Properties of the insertion-ordered map *)
(* ===================================================================== *)

Section JSMapProperties.

Context {V : Type}.
Implicit Types (m : JSMap.t V) (k : string) (v : V).

Lemma get_set_eq m k v : JSMap.get (JSMap.set m k v) k = Some v.
Proof.
  induction m as [|[k' v'] r IH]; simpl.
  - by rewrite String.eqb_refl.
  - destruct (String.eqb k' k) eqn:E; simpl.
    + by rewrite String.eqb_refl.
    + by rewrite E.
Qed.

Lemma get_set_ne m k k' v :
  k <> k' -> JSMap.get (JSMap.set m k v) k' = JSMap.get m k'.
Proof.
  intros Hne. induction m as [|[k0 v0] r IH]; simpl.
  - by apply String.eqb_neq in Hne as ->.
  - destruct (String.eqb_spec k0 k) as [->|Hk]; simpl.
    + by apply String.eqb_neq in Hne as ->.
    + by rewrite IH.
Qed.

Lemma get_delete_eq m k : JSMap.get (JSMap.delete m k) k = None.
Proof.
  induction m as [|[k' v'] r IH]; simpl; [done|].
  destruct (String.eqb k' k) eqn:E; simpl; [done|]. by rewrite E.
Qed.

Lemma get_delete_ne m k k' :
  k <> k' -> JSMap.get (JSMap.delete m k) k' = JSMap.get m k'.
Proof.
  intros Hne. induction m as [|[k0 v0] r IH]; simpl; [done|].
  destruct (String.eqb_spec k0 k) as [->|Hk]; simpl.
  - by apply String.eqb_neq in Hne as ->.
  - by rewrite IH.
Qed.

Lemma get_Some_elem m k v : JSMap.get m k = Some v -> (k, v) ∈ m.
Proof.
  induction m as [|[k' v'] r IH]; simpl; [done|].
  destruct (String.eqb_spec k' k) as [->|Hk].
  - intros [= ->]. left.
  - intros H. right. by apply IH.
Qed.

Lemma get_None_keys m k : JSMap.get m k = None <-> k ∉ JSMap.keys m.
Proof.
  induction m as [|[k' v'] r IH]; simpl.
  - split; [intros _; apply not_elem_of_nil | done].
  - rewrite not_elem_of_cons. destruct (String.eqb_spec k' k) as [->|Hk].
    + split; [done | intros [? _]; done].
    + rewrite IH. split; [intros ?; split; [congruence | done] | intros [_ ?]; done].
Qed.

Lemma elem_get m k v : NoDup (JSMap.keys m) -> (k, v) ∈ m -> JSMap.get m k = Some v.
Proof.
  induction m as [|[k' v'] r IH]; simpl; intros Hnd Hin.
  - by apply elem_of_nil in Hin.
  - apply NoDup_cons in Hnd as [Hk' Hnd].
    apply elem_of_cons in Hin as [[= -> ->]|Hin].
    + by rewrite String.eqb_refl.
    + destruct (String.eqb_spec k' k) as [->|Hk]; [|by apply IH].
      exfalso. apply Hk'. by apply (list_elem_of_fmap_2 fst) in Hin.
Qed.

Lemma keys_delete m k :
  JSMap.keys (JSMap.delete m k) = filter (fun k' => k' <> k) (JSMap.keys m).
Proof.
  induction m as [|[k' v'] r IH]; simpl; [done|].
  destruct (String.eqb_spec k' k) as [->|Hk].
  - rewrite filter_cons_False by (simpl; tauto). done.
  - rewrite filter_cons_True by done. simpl. by rewrite IH.
Qed.

Lemma NoDup_keys_delete m k :
  NoDup (JSMap.keys m) -> NoDup (JSMap.keys (JSMap.delete m k)).
Proof. intros H. rewrite keys_delete. by apply NoDup_filter. Qed.

Lemma delete_subseteq m k : JSMap.delete m k ⊆ m.
Proof.
  induction m as [|[k' v'] r IH]; simpl; [done|].
  destruct (String.eqb k' k).
  - intros x Hx. right. by apply IH.
  - intros x Hx. apply elem_of_cons in Hx as [->|Hx]; [left | right; by apply IH].
Qed.

Lemma delete_absent m k : k ∉ JSMap.keys m -> JSMap.delete m k = m.
Proof.
  induction m as [|[k' v'] r IH]; simpl; [done|].
  rewrite not_elem_of_cons. intros [Hne Hk].
  destruct (String.eqb_spec k' k) as [->|_]; [done|]. by rewrite IH.
Qed.

(** Deleting a key of a map removes exactly its value. *)
Lemma values_delete m k v :
  NoDup (JSMap.keys m) -> JSMap.get m k = Some v ->
  JSMap.values m ≡ₚ v :: JSMap.values (JSMap.delete m k).
Proof.
  induction m as [|[k' v'] r IH]; simpl; [done|].
  intros Hnd Hget. apply NoDup_cons in Hnd as [Hk' Hnd].
  destruct (String.eqb_spec k' k) as [->|Hk].
  - injection Hget as ->. by rewrite delete_absent.
  - simpl. rewrite (IH Hnd Hget). apply Permutation_swap.
Qed.

Lemma keys_set m k v :
  JSMap.keys (JSMap.set m k v) =
    if bool_decide (k ∈ JSMap.keys m) then JSMap.keys m else (JSMap.keys m ++ [k])%list.
Proof.
  induction m as [|[k' v'] r IH]; simpl; [done|].
  destruct (String.eqb_spec k' k) as [->|Hk]; simpl.
  - rewrite bool_decide_eq_true_2 by left. done.
  - rewrite IH. destruct (bool_decide (k ∈ JSMap.keys r)) eqn:E.
    + apply bool_decide_eq_true in E.
      rewrite bool_decide_eq_true_2 by (by right). done.
    + apply bool_decide_eq_false in E.
      rewrite bool_decide_eq_false_2; [done|].
      rewrite elem_of_cons. intros [?|?]; congruence.
Qed.

Lemma NoDup_keys_set m k v :
  NoDup (JSMap.keys m) -> NoDup (JSMap.keys (JSMap.set m k v)).
Proof.
  intros Hnd. rewrite keys_set. case_bool_decide; [done|].
  apply NoDup_app. split; [done|]. split.
  - intros x Hx Hx'. apply list_elem_of_singleton in Hx' as ->. done.
  - apply NoDup_singleton.
Qed.

Lemma elem_set m k v k' v' :
  (k', v') ∈ JSMap.set m k v -> (k' = k /\ v' = v) \/ (k', v') ∈ m.
Proof.
  induction m as [|[k0 v0] r IH]; simpl.
  - intros H. apply list_elem_of_singleton in H as [= -> ->]. by left.
  - destruct (String.eqb_spec k0 k) as [->|Hk].
    + intros H. apply elem_of_cons in H as [[= -> ->]|H]; [by left|].
      right. by right.
    + intros H. apply elem_of_cons in H as [[= -> ->]|H]; [right; left|].
      destruct (IH H) as [?|?]; [by left | right; by right].
Qed.

End JSMapProperties.

(* ===================================================================== *)
(** * Properties of the fingerprint cache *)
(* ===================================================================== *)

Section CacheProperties.

Import Security Cache.

Implicit Types (c : Cache.t) (fs : gmap string JS.bytes) (io : IO).
Implicit Types (e : CacheEntry) (k : string).

(** ** Sums of sizes *)

Lemma sumSizes_from (l : list CacheEntry) (a : Z) :
  fold_left (fun sum entry => sum + size (metadata entry)) l a = a + sumSizes l.
Proof.
  unfold sumSizes. revert a. induction l as [|e l IH]; intros a; simpl; [lia|].
  rewrite (IH (a + _)), (IH (0 + _)). lia.
Qed.

Lemma sumSizes_cons e (l : list CacheEntry) :
  sumSizes (e :: l) = size (metadata e) + sumSizes l.
Proof. unfold sumSizes at 1. simpl. rewrite sumSizes_from. lia. Qed.

Lemma sumSizes_app (l1 l2 : list CacheEntry) :
  sumSizes (l1 ++ l2) = sumSizes l1 + sumSizes l2.
Proof.
  induction l1 as [|e l1 IH]; simpl; [done|].
  rewrite !sumSizes_cons, IH. lia.
Qed.

Lemma sumSizes_perm (l1 l2 : list CacheEntry) :
  l1 ≡ₚ l2 -> sumSizes l1 = sumSizes l2.
Proof.
  induction 1 as [|x l l' _ IH|x y l|l l' l'' _ IH1 _ IH2];
    rewrite ?sumSizes_cons; lia.
Qed.

(** ** The sort *)

Lemma insertByAccess_perm e (l : list CacheEntry) : insertByAccess e l ≡ₚ e :: l.
Proof.
  induction l as [|x l IH]; simpl; [done|].
  destruct (lastAccessed (metadata e) <=? lastAccessed (metadata x)); [done|].
  rewrite IH. apply Permutation_swap.
Qed.

Lemma sortByAccess_perm (l : list CacheEntry) : sortByAccess l ≡ₚ l.
Proof.
  induction l as [|x l IH]; simpl; [done|].
  rewrite insertByAccess_perm. by f_equiv.
Qed.

Lemma insertByAccess_sorted e (l : list CacheEntry) :
  StronglySorted older l -> StronglySorted older (insertByAccess e l).
Proof.
  induction 1 as [|x l Hs IH Hx]; simpl.
  - repeat constructor.
  - destruct (Z.leb_spec (lastAccessed (metadata e)) (lastAccessed (metadata x))).
    + constructor; [by constructor|]. constructor; [done|].
      eapply Forall_impl; [exact Hx|]. unfold older. intros; simpl in *; lia.
    + constructor; [done|].
      rewrite insertByAccess_perm. constructor; [unfold older; lia | done].
Qed.

Lemma sortByAccess_sorted (l : list CacheEntry) :
  StronglySorted older (sortByAccess l).
Proof.
  induction l as [|x l IH]; simpl; [constructor|].
  by apply insertByAccess_sorted.
Qed.

(** In a sorted list nothing before a cut is younger than anything after it. *)
Lemma sorted_cut (l1 l2 : list CacheEntry) a b :
  StronglySorted older (l1 ++ l2) -> a ∈ l1 -> b ∈ l2 -> older a b.
Proof.
  induction l1 as [|x l1 IH]; simpl; intros Hs Ha Hb.
  - by apply elem_of_nil in Ha.
  - apply StronglySorted_inv in Hs as [Hs Hx].
    apply elem_of_cons in Ha as [->|Ha]; [|by apply IH].
    rewrite Forall_forall in Hx. apply Hx. apply elem_of_app. by right.
Qed.

(** ** [delete] *)

Lemma delete_index io k c fs :
  (delete io k c fs).1 = set_cache c (JSMap.delete (cache c) k).
Proof.
  unfold delete. destruct (JSMap.get (cache c) k) as [e|] eqn:E.
  - destruct (unlink io fs (filePath e)); done.
  - apply get_None_keys in E. rewrite delete_absent by done. by destruct c.
Qed.

Lemma wf_delete c k : wf c -> wf (set_cache c (JSMap.delete (cache c) k)).
Proof.
  intros [Hnd Hok]. split; simpl.
  - by apply NoDup_keys_delete.
  - rewrite Forall_forall in Hok |- *. intros kv Hkv.
    apply (Hok kv). by apply (delete_subseteq (cache c) k).
Qed.

Lemma wf_set c k e :
  wf c -> entry_ok c k e -> wf (set_cache c (JSMap.set (cache c) k e)).
Proof.
  intros [Hnd Hok] He. split; simpl.
  - by apply NoDup_keys_set.
  - rewrite Forall_forall in Hok |- *. intros [k' e'] Hkv.
    apply elem_set in Hkv as [[-> ->]|Hkv]; [exact He | exact (Hok _ Hkv)].
Qed.

Lemma wf_values_get c e :
  wf c -> e ∈ JSMap.values (cache c) -> JSMap.get (cache c) (key e) = Some e.
Proof.
  intros [Hnd Hok] He. apply list_elem_of_fmap_1 in He as ([k e'] & -> & Hin).
  rewrite Forall_forall in Hok. destruct (Hok _ Hin) as [Hk _]. simpl in *.
  rewrite Hk. by apply elem_get.
Qed.

(** Deleting an entry of the index lowers the total by its size. *)
Lemma totalSize_delete c e :
  wf c -> JSMap.get (cache c) (key e) = Some e ->
  totalSize (set_cache c (JSMap.delete (cache c) (key e))) =
    totalSize c - size (metadata e).
Proof.
  intros [Hnd _] Hget. unfold totalSize. simpl.
  rewrite (sumSizes_perm _ _ (values_delete _ _ _ Hnd Hget)), sumSizes_cons. lia.
Qed.

(** ** The eviction loop *)

Lemma evicted_prefix (maxSize : Z) (entries : list CacheEntry) : forall cs,
  evicted maxSize entries cs = take (length (evicted maxSize entries cs)) entries.
Proof.
  induction entries as [|e rest IH]; intros cs; simpl; [done|].
  destruct (5 * cs <=? 4 * maxSize); simpl; [done|]. by rewrite <- IH.
Qed.

(** The loop goes on only while the aggregate is above the threshold. *)
Lemma evicted_minimal (maxSize : Z) (entries : list CacheEntry) : forall cs (j : nat),
  (j < length (evicted maxSize entries cs))%nat ->
  5 * (cs - sumSizes (take j entries)) > 4 * maxSize.
Proof.
  induction entries as [|e rest IH]; intros cs j; simpl; [lia|].
  destruct (Z.leb_spec (5 * cs) (4 * maxSize)); simpl; [lia|].
  destruct j as [|j]; simpl; intros Hj.
  - unfold sumSizes. simpl. lia.
  - rewrite sumSizes_cons. specialize (IH (cs - size (metadata e)) j). lia.
Qed.

(** The loop stops before the end only at or below the threshold. *)
Lemma evicted_stop (maxSize : Z) (entries : list CacheEntry) : forall cs,
  (length (evicted maxSize entries cs) < length entries)%nat ->
  5 * (cs - sumSizes (evicted maxSize entries cs)) <= 4 * maxSize.
Proof.
  induction entries as [|e rest IH]; intros cs; simpl; [lia|].
  destruct (Z.leb_spec (5 * cs) (4 * maxSize)); simpl; intros Hlen.
  - unfold sumSizes. simpl. lia.
  - rewrite sumSizes_cons. specialize (IH (cs - size (metadata e))). lia.
Qed.

Lemma evictLoop_spec io (entries : list CacheEntry) : forall c fs,
  wf c -> JSMap.values (cache c) ≡ₚ entries ->
  let c' := (evictLoop io entries (totalSize c) c fs).1 in
  let ev := evicted (maxCacheSize c) entries (totalSize c) in
  wf c' /\ cacheDir c' = cacheDir c /\ maxCacheSize c' = maxCacheSize c /\
  maxCacheAge c' = maxCacheAge c /\
  JSMap.values (cache c') ≡ₚ drop (length ev) entries.
Proof.
  induction entries as [|e rest IH]; intros c fs Hwf Hperm; simpl.
  - done.
  - destruct (5 * totalSize c <=? 4 * maxCacheSize c); simpl; [done|].
    assert (Hget : JSMap.get (cache c) (key e) = Some e).
    { apply wf_values_get; [done|]. rewrite Hperm. left. }
    pose proof (delete_index io (key e) c fs) as Hd.
    destruct (delete io (key e) c fs) as [c1 fs1]. simpl in Hd. subst c1.
    set (c1 := set_cache c (JSMap.delete (cache c) (key e))).
    assert (Hperm1 : JSMap.values (cache c1) ≡ₚ rest).
    { apply (Permutation_cons_inv (a := e)).
      rewrite <- Hperm. symmetry. apply values_delete; [apply Hwf | done]. }
    rewrite <- (totalSize_delete c e Hwf Hget). fold c1.
    destruct (IH c1 fs1 (wf_delete c (key e) Hwf) Hperm1) as (? & ? & ? & ? & ?).
    done.
Qed.

(** What [enforceSize] leaves in the index. *)
Lemma enforceSize_spec io c fs :
  wf c -> 0 <= maxCacheSize c ->
  let c' := (enforceSize io c fs).1 in
  let sorted := sortByAccess (JSMap.values (cache c)) in
  let ev := evicted (maxCacheSize c) sorted (totalSize c) in
  wf c' /\ cacheDir c' = cacheDir c /\ maxCacheSize c' = maxCacheSize c /\
  maxCacheAge c' = maxCacheAge c /\
  totalSize c' <= maxCacheSize c /\
  (totalSize c <= maxCacheSize c -> c' = c) /\
  (maxCacheSize c < totalSize c ->
     JSMap.values (cache c') ≡ₚ drop (length ev) sorted /\
     5 * totalSize c' <= 4 * maxCacheSize c).
Proof.
  intros Hwf Hmax. unfold enforceSize.
  destruct (Z.leb_spec (totalSize c) (maxCacheSize c)) as [Hle|Hgt]; simpl.
  - split_and!; [done|done|done|done|lia|done|intros; exfalso; lia].
  - assert (Hperm : JSMap.values (cache c) ≡ₚ sortByAccess (JSMap.values (cache c)))
      by (symmetry; apply sortByAccess_perm).
    destruct (evictLoop_spec io _ c fs Hwf Hperm) as (Hwf' & Hd & Hm & Ha & Hvals).
    set (sorted := sortByAccess (JSMap.values (cache c))) in *.
    set (c' := (evictLoop io sorted (totalSize c) c fs).1) in *.
    set (ev := evicted (maxCacheSize c) sorted (totalSize c)) in *.
    assert (Htot' : totalSize c' = sumSizes (drop (length ev) sorted))
      by (unfold totalSize; by apply sumSizes_perm).
    assert (Htot : totalSize c = sumSizes ev + totalSize c').
    { rewrite Htot'. unfold totalSize. rewrite (sumSizes_perm _ _ Hperm).
      fold sorted. rewrite <- (take_drop (length ev) sorted) at 1.
      rewrite sumSizes_app. f_equal. f_equal. symmetry. apply evicted_prefix. }
    assert (Hthr : 5 * totalSize c' <= 4 * maxCacheSize c).
    { destruct (decide (length ev < length sorted)%nat) as [Hlt|Hge].
      - pose proof (evicted_stop (maxCacheSize c) sorted (totalSize c) Hlt).
        fold ev in H. lia.
      - rewrite Htot', drop_ge by lia. unfold sumSizes. simpl. lia. }
    split_and!; [done|done|done|done|lia|intros; exfalso; lia|intros _; split; [done|lia]].
Qed.

(** ** File paths *)

Lemma includes_dot (r x : string) : JS.includes (r +:+ String "." x) "." = true.
Proof.
  induction r as [|a r IH]; simpl.
  - by destruct x.
  - rewrite IH. apply orb_true_r.
Qed.

Lemma formatOf_no_dot (p : Params) : JS.includes (formatOf p) "." = false.
Proof. unfold formatOf. by destruct (format p). Qed.

Lemma key_ext_inj (k : string) : forall k' f f',
  JS.includes f "." = false -> JS.includes f' "." = false ->
  k +:+ "." +:+ f = k' +:+ "." +:+ f' -> k = k'.
Proof.
  induction k as [|a k IH]; intros [|a' k'] f f' Hf Hf' H;
    cbv [String.append] in H; fold String.append in H.
  - done.
  - injection H as _ H. rewrite H, includes_dot in Hf. done.
  - injection H as _ H. rewrite <- H, includes_dot in Hf'. done.
  - injection H as -> H. f_equal. eapply IH; [exact Hf | exact Hf' | exact H].
Qed.

Lemma getFilePath_inj c k k' (p p' : Params) :
  getFilePath c k (formatOf p) = getFilePath c k' (formatOf p') -> k = k'.
Proof.
  unfold getFilePath. intros H.
  apply (inj (String.append (cacheDir c))) in H.
  cbv [String.append] in H; fold String.append in H.
  injection H as H.
  eapply key_ext_inj; [apply formatOf_no_dot | apply formatOf_no_dot | exact H].
Qed.

(** Entries under different keys live in different files. *)
Lemma wf_paths c k1 k2 e1 e2 :
  wf c -> JSMap.get (cache c) k1 = Some e1 -> JSMap.get (cache c) k2 = Some e2 ->
  filePath e1 = filePath e2 -> k1 = k2.
Proof.
  intros [_ Hok] H1 H2 Hp. rewrite Forall_forall in Hok.
  destruct (Hok _ (get_Some_elem _ _ _ H1)) as (_ & Hp1 & _).
  destruct (Hok _ (get_Some_elem _ _ _ H2)) as (_ & Hp2 & _).
  simpl in *. rewrite Hp1, Hp2 in Hp. by eapply getFilePath_inj.
Qed.

(** [delete] of one key leaves the files of the other keys alone. *)
Lemma delete_keeps io k0 c fs k e :
  wf c -> JSMap.get (cache (delete io k0 c fs).1) k = Some e ->
  JSMap.get (cache c) k = Some e /\
  (delete io k0 c fs).2 !! filePath e = fs !! filePath e.
Proof.
  intros Hwf. rewrite delete_index. simpl. intros Hget.
  assert (Hne : k0 <> k) by (intros ->; by rewrite get_delete_eq in Hget).
  rewrite get_delete_ne in Hget by done. split; [done|].
  unfold delete. destruct (JSMap.get (cache c) k0) as [e0|] eqn:E0; [|done].
  unfold unlink. destruct (unlink_fails io (filePath e0)); [done|].
  destruct (fs !! filePath e0) eqn:Ef; [|done]. simpl.
  apply lookup_delete_ne. intros Hp. apply Hne. by eapply wf_paths.
Qed.

Lemma evictLoop_keeps io (entries : list CacheEntry) : forall cs c fs k e,
  wf c -> JSMap.get (cache (evictLoop io entries cs c fs).1) k = Some e ->
  JSMap.get (cache c) k = Some e /\
  (evictLoop io entries cs c fs).2 !! filePath e = fs !! filePath e.
Proof.
  induction entries as [|e0 rest IH]; intros cs c fs k e Hwf; simpl; [done|].
  destruct (5 * cs <=? 4 * maxCacheSize c); [done|].
  pose proof (delete_index io (key e0) c fs) as Hd.
  pose proof (delete_keeps io (key e0) c fs k e Hwf) as Hk.
  destruct (delete io (key e0) c fs) as [c1 fs1]. simpl in Hd, Hk.
  intros Hget.
  assert (Hwf1 : wf c1) by (subst c1; by apply wf_delete).
  destruct (IH _ c1 fs1 k e Hwf1 Hget) as [Hget1 Hfs1].
  destruct (Hk Hget1) as [Hget0 Hfs0]. split; [done|]. congruence.
Qed.

Lemma enforceSize_keeps io c fs k e :
  wf c -> JSMap.get (cache (enforceSize io c fs).1) k = Some e ->
  JSMap.get (cache c) k = Some e /\
  (enforceSize io c fs).2 !! filePath e = fs !! filePath e.
Proof.
  intros Hwf. unfold enforceSize.
  destruct (totalSize c <=? maxCacheSize c); [done|].
  by apply evictLoop_keeps.
Qed.

Lemma evictLoop_age io (entries : list CacheEntry) : forall cs c fs,
  maxCacheAge (evictLoop io entries cs c fs).1 = maxCacheAge c.
Proof.
  induction entries as [|e0 rest IH]; intros cs c fs; simpl; [done|].
  destruct (5 * cs <=? 4 * maxCacheSize c); [done|].
  pose proof (delete_index io (key e0) c fs) as Hd.
  destruct (delete io (key e0) c fs) as [c1 fs1]. simpl in Hd.
  rewrite IH. by subst c1.
Qed.

Lemma enforceSize_age io c fs :
  maxCacheAge (enforceSize io c fs).1 = maxCacheAge c.
Proof.
  unfold enforceSize. destruct (totalSize c <=? maxCacheSize c); [done|].
  apply evictLoop_age.
Qed.

(** ** Every operation keeps the index bounded *)

Lemma totalSize_delete_le c k :
  wf c -> totalSize (set_cache c (JSMap.delete (cache c) k)) <= totalSize c.
Proof.
  intros Hwf. destruct (JSMap.get (cache c) k) as [e|] eqn:E.
  - pose proof Hwf as [_ Hok]. rewrite Forall_forall in Hok.
    destruct (Hok _ (get_Some_elem _ _ _ E)) as (Hk & _ & Hsz). simpl in *.
    subst k. rewrite (totalSize_delete c e Hwf E). lia.
  - apply get_None_keys in E. unfold totalSize. simpl.
    rewrite delete_absent by done. lia.
Qed.

Lemma bounded_delete io k c fs : bounded c -> bounded (delete io k c fs).1.
Proof.
  intros (Hwf & Hmax & Htot). rewrite delete_index.
  split_and!; [by apply wf_delete | done |].
  pose proof (totalSize_delete_le c k Hwf). simpl in *. lia.
Qed.

Lemma bounded_deleteAll io (keys : list string) : forall c fs,
  bounded c -> bounded (deleteAll io keys c fs).1.
Proof.
  unfold deleteAll.
  induction keys as [|k keys IH]; intros c fs Hb; simpl; [done|].
  pose proof (bounded_delete io k c fs Hb) as Hb1.
  destruct (delete io k c fs) as [c1 fs1]. by apply IH.
Qed.

Lemma sumSizes_set (m : JSMap.t CacheEntry) k e e' :
  JSMap.get m k = Some e ->
  sumSizes (JSMap.values (JSMap.set m k e')) =
    sumSizes (JSMap.values m) - size (metadata e) + size (metadata e').
Proof.
  induction m as [|[k0 e0] m IH]; simpl; [done|].
  destruct (String.eqb k0 k); simpl.
  - intros [= ->]. rewrite !sumSizes_cons. lia.
  - intros H. rewrite !sumSizes_cons, (IH H). lia.
Qed.

Lemma bounded_touch c k e (now : Z) :
  bounded c -> JSMap.get (cache c) k = Some e ->
  bounded (set_cache c (JSMap.set (cache c) k (touch e now))).
Proof.
  intros (Hwf & Hmax & Htot) Hget. split_and!; [|done|].
  - apply wf_set; [done|]. pose proof Hwf as [_ Hok].
    rewrite Forall_forall in Hok. exact (Hok _ (get_Some_elem _ _ _ Hget)).
  - unfold totalSize in *. simpl. rewrite (sumSizes_set _ _ _ _ Hget). simpl. lia.
Qed.

(** ** [set] *)

Lemma stat_size_nonneg io fs path sz : stat_size io fs path = Some sz -> 0 <= sz.
Proof.
  unfold stat_size. destruct (stat_fails io path); [done|].
  destruct (fs !! path); simpl; [|done]. intros [= <-]. lia.
Qed.

Section WithDigest.

Variable digest : NormalizedParams -> string.

(** The entry that a successful [set] puts into the index. *)
Lemma set_success io c fs url params buffer now1 now2 fs1 sz :
  let key := generateCacheKey digest url params in
  let path := getFilePath c key (formatOf params) in
  writeFile io fs path buffer = Some fs1 ->
  stat_size io fs1 path = Some sz ->
  set digest io c fs url params buffer now1 now2 =
    enforceSize io
      (set_cache c
         (JSMap.set (cache c) key
            (mkCacheEntry key path
               (mkMeta url params (formatOf params) now1 now2 sz))))
      fs1.
Proof. intros key path Hw Hs. unfold set. fold key path. by rewrite Hw, Hs. Qed.

Lemma set_failure io c fs url params buffer now1 now2 :
  let key := generateCacheKey digest url params in
  let path := getFilePath c key (formatOf params) in
  writeFile io fs path buffer = None \/
  (exists fs1, writeFile io fs path buffer = Some fs1 /\
               stat_size io fs1 path = None) ->
  (set digest io c fs url params buffer now1 now2).1 = c.
Proof.
  intros key path [Hw|(fs1 & Hw & Hs)]; unfold set; fold key path; rewrite Hw;
    [done|]. by rewrite Hs.
Qed.

Lemma bounded_set io c fs url params buffer now1 now2 :
  bounded c ->
  let c' := (set digest io c fs url params buffer now1 now2).1 in
  bounded c' /\ maxCacheSize c' = maxCacheSize c.
Proof.
  intros (Hwf & Hmax & Htot) c'. subst c'. unfold set.
  set (key := generateCacheKey digest url params).
  set (path := getFilePath c key (formatOf params)).
  destruct (writeFile io fs path buffer) as [fs1|]; [|done].
  destruct (stat_size io fs1 path) as [sz|] eqn:Hs; [|done].
  set (c1 := set_cache c _).
  assert (Hwf1 : wf c1).
  { apply wf_set; [done|]. split_and!; [done|done|]. simpl.
    by eapply stat_size_nonneg. }
  destruct (enforceSize_spec io c1 fs1 Hwf1 Hmax) as (? & _ & Hm & _ & ? & _).
  unfold bounded. rewrite Hm. done.
Qed.

Lemma bounded_get io c fs url params (now : Z) :
  bounded c -> bounded (get digest io c fs url params now).1.2.
Proof.
  intros Hb. unfold get.
  destruct (JSMap.get (cache c) (generateCacheKey digest url params))
    as [e|] eqn:E; [|done].
  destruct (now - createdAt (metadata e) >? maxCacheAge c).
  - pose proof (bounded_delete io (generateCacheKey digest url params) c fs Hb).
    by destruct (delete io _ c fs).
  - pose proof (bounded_touch c _ e now Hb E) as Hb1.
    destruct (readFile io fs (filePath e)); [done|].
    pose proof (bounded_delete io (generateCacheKey digest url params) _ fs Hb1).
    by destruct (delete io _ _ fs).
Qed.

(** In every state the cache goes through, the index is well formed
    and within the maximum size. *)
Lemma reachable_bounded st : reachable digest st -> bounded st.1.
Proof.
  induction 1 as [dir maxSize maxAge fs Hmax|st op _ IH].
  - split_and!; simpl; [split; constructor | done | unfold totalSize, sumSizes; simpl; lia].
  - destruct op; simpl.
    + by apply bounded_get.
    + by apply bounded_set.
    + by apply bounded_deleteAll.
    + by apply bounded_deleteAll.
Qed.

(** C5. Let the index be well formed and within a maximum size that is
    not negative. After a call of [set] that runs alone, with no other
    call at work on the index while it is suspended, completes, the
    aggregate size of the entries of the index is at most the maximum
    (two calls that overlap can leave more, as the run at the end of
    this section shows). And when the entry
    that [set] has inserted brings the aggregate above the maximum,
    the entries are sorted in ascending order of last-access time and
    the first [n] of them are removed, where [n] is the least number
    for which the aggregate of what remains is at most 80% of the
    maximum: an entry is removed only while the aggregate is still
    above that threshold. So no entry that was removed was accessed
    later than an entry that is retained. *)
Theorem C5_size_bound_and_eviction_order io c fs url params buffer now1 now2 :
  wf c -> 0 <= maxCacheSize c -> totalSize c <= maxCacheSize c ->
  let c' := (set digest io c fs url params buffer now1 now2).1 in
  let key := generateCacheKey digest url params in
  let path := getFilePath c key (formatOf params) in
  wf c' /\ maxCacheSize c' = maxCacheSize c /\
  totalSize c' <= maxCacheSize c' /\
  forall fs1 sz,
    writeFile io fs path buffer = Some fs1 ->
    stat_size io fs1 path = Some sz ->
    let entry :=
      mkCacheEntry key path (mkMeta url params (formatOf params) now1 now2 sz) in
    let c1 := set_cache c (JSMap.set (cache c) key entry) in
    maxCacheSize c < totalSize c1 ->
    let sorted := sortByAccess (JSMap.values (cache c1)) in
    exists n : nat,
      sorted ≡ₚ JSMap.values (cache c1) /\
      StronglySorted older sorted /\
      JSMap.values (cache c') ≡ₚ drop n sorted /\
      totalSize c' = totalSize c1 - sumSizes (take n sorted) /\
      5 * totalSize c' <= 4 * maxCacheSize c /\
      (forall j : nat, (j < n)%nat ->
         5 * (totalSize c1 - sumSizes (take j sorted)) > 4 * maxCacheSize c) /\
      (forall a b, a ∈ take n sorted -> b ∈ JSMap.values (cache c') -> older a b).
Proof.
  intros Hwf Hmax Htot c' key path.
  assert (Hcases :
    (exists fs1 sz, writeFile io fs path buffer = Some fs1 /\
                    stat_size io fs1 path = Some sz) \/
    (writeFile io fs path buffer = None \/
     exists fs1, writeFile io fs path buffer = Some fs1 /\
                 stat_size io fs1 path = None)).
  { destruct (writeFile io fs path buffer) as [fs1|]; [|by right; left].
    destruct (stat_size io fs1 path) as [sz|] eqn:Hs.
    - left. by exists fs1, sz.
    - right. right. by exists fs1. }
  assert (Hspec : forall fs1 sz,
    writeFile io fs path buffer = Some fs1 ->
    stat_size io fs1 path = Some sz ->
    let c1 := set_cache c (JSMap.set (cache c) key
                (mkCacheEntry key path
                   (mkMeta url params (formatOf params) now1 now2 sz))) in
    wf c1 /\ c' = (enforceSize io c1 fs1).1).
  { intros fs1 sz Hw Hs c1. split.
    - apply wf_set; [done|]. split_and!; [done|done|]. simpl.
      by eapply stat_size_nonneg.
    - subst c'. by rewrite (set_success io c fs url params buffer now1 now2 fs1 sz). }
  split_and!.
  - destruct Hcases as [(fs1 & sz & Hw & Hs)|Hfail].
    + destruct (Hspec fs1 sz Hw Hs) as [Hwf1 ->].
      by apply enforceSize_spec.
    + subst c'. by rewrite set_failure.
  - destruct Hcases as [(fs1 & sz & Hw & Hs)|Hfail].
    + destruct (Hspec fs1 sz Hw Hs) as [Hwf1 ->].
      by destruct (enforceSize_spec io _ fs1 Hwf1 Hmax) as (_ & _ & -> & _).
    + subst c'. by rewrite set_failure.
  - destruct Hcases as [(fs1 & sz & Hw & Hs)|Hfail].
    + destruct (Hspec fs1 sz Hw Hs) as [Hwf1 ->].
      destruct (enforceSize_spec io _ fs1 Hwf1 Hmax) as (_ & _ & -> & _ & Hle & _).
      exact Hle.
    + subst c'. by rewrite set_failure.
  - intros fs1 sz Hw Hs entry c1 Hgt sorted.
    destruct (Hspec fs1 sz Hw Hs) as [Hwf1 Hc'].
    destruct (enforceSize_spec io c1 fs1 Hwf1 Hmax)
      as (_ & _ & _ & _ & _ & _ & Hev).
    destruct (Hev Hgt) as [Hvals Hthr]. clear Hev.
    assert (Hc1 : (enforceSize io c1 fs1).1 = c') by (symmetry; exact Hc').
    fold sorted in Hvals. rewrite Hc1 in Hvals, Hthr.
    set (ev := evicted (maxCacheSize c1) sorted (totalSize c1)) in *.
    assert (Hprefix : ev = take (length ev) sorted) by apply evicted_prefix.
    assert (Hperm : sorted ≡ₚ JSMap.values (cache c1)) by apply sortByAccess_perm.
    exists (length ev). split_and!.
    + done.
    + apply sortByAccess_sorted.
    + done.
    + unfold totalSize at 1 2. rewrite (sumSizes_perm _ _ Hvals).
      rewrite <- (sumSizes_perm _ _ Hperm).
      rewrite <- (take_drop (length ev) sorted) at 2.
      rewrite sumSizes_app. lia.
    + exact Hthr.
    + intros j Hj.
      apply (evicted_minimal (maxCacheSize c1) sorted (totalSize c1) j Hj).
    + intros a b Ha Hb. rewrite Hvals in Hb.
      apply (sorted_cut (take (length ev) sorted) (drop (length ev) sorted));
        [|done|done].
      rewrite take_drop. apply sortByAccess_sorted.
Qed.

(** ** Keys *)

Lemma normal_form_normalized url1 (p1 : Params) url2 (p2 : Params) :
  spec_normal_form url1 p1 = spec_normal_form url2 p2 ->
  normalizedParams url1 p1 = normalizedParams url2 p2.
Proof.
  unfold spec_normal_form. intros [= Hu Hf Hfmt Hd Hwh].
  unfold normalizedParams, formatOf. rewrite Hu, Hfmt, Hd.
  rewrite Hf in Hwh |- *. destruct (fullPage p2); [done|].
  by injection Hwh as -> ->.
Qed.

Lemma same_normal_form_key url1 (p1 : Params) url2 (p2 : Params) :
  spec_normal_form url1 p1 = spec_normal_form url2 p2 ->
  generateCacheKey digest url1 p1 = generateCacheKey digest url2 p2.
Proof.
  intros H. unfold generateCacheKey. by rewrite (normal_form_normalized _ _ _ _ H).
Qed.

(** C2. Two requests with the same normal form (the same URL once
    lower-cased and trimmed, the same full-page flag, format and delay,
    and the same width and height unless the full-page flag is set, in
    which case the viewport is ignored) have the same cache key.
    [generateCacheKey] is a function of its two arguments alone and is
    defined on every request. *)
Theorem C2_same_normal_form_same_key url1 (p1 : Params) url2 (p2 : Params) :
  spec_normal_form url1 p1 = spec_normal_form url2 p2 ->
  generateCacheKey digest url1 p1 = generateCacheKey digest url2 p2.
Proof.
  apply same_normal_form_key.
Qed.

(** ** [get] *)

Lemma delete_removes io k c fs :
  JSMap.get (cache (delete io k c fs).1) k = None.
Proof. rewrite delete_index. simpl. apply get_delete_eq. Qed.

(** C6. [get] answers [null] in exactly three situations: the index has
    no entry for the key; the entry is older than the maximum age; the
    file of the entry cannot be read. In the last two the entry is gone
    from the index afterwards, whatever becomes of the attempt to
    unlink its file. An entry older than the maximum age is therefore
    never returned. *)
Theorem C6_get_absent_in_three_cases io c fs url params (now : Z) :
  let key := generateCacheKey digest url params in
  let r := get digest io c fs url params now in
  (r.1.1 = None <->
     JSMap.get (cache c) key = None \/
     exists e, JSMap.get (cache c) key = Some e /\
       (now - createdAt (metadata e) > maxCacheAge c \/
        readFile io fs (filePath e) = None)) /\
  (forall e, JSMap.get (cache c) key = Some e ->
     now - createdAt (metadata e) > maxCacheAge c \/
     readFile io fs (filePath e) = None ->
     r.1.1 = None /\ JSMap.get (cache r.1.2) key = None) /\
  (JSMap.get (cache c) key = None -> r = (None, c, fs)).
Proof.
  intros key r. subst r. unfold get. fold key.
  destruct (JSMap.get (cache c) key) as [e|] eqn:E.
  2:{ split_and!; [|done|done]. split; [by left | done]. }
  destruct (Z.gtb_spec (now - createdAt (metadata e)) (maxCacheAge c)) as [Hold|Hyoung].
  - pose proof (delete_removes io key c fs) as Hrm.
    destruct (delete io key c fs) as [c' fs']. simpl in *.
    split_and!; [|by intros ? [= <-] _|done].
    split; [|done]. intros _. right. exists e. split; [done|]. left. lia.
  - destruct (readFile io fs (filePath e)) as [buffer|] eqn:R.
    + simpl. split_and!; [|intros ? [= <-] [?|?]; [lia|congruence]|done].
      split; [done|]. intros [?|(e' & [= <-] & [?|?])]; [done|lia|congruence].
    + set (c1 := set_cache c _).
      pose proof (delete_removes io key c1 fs) as Hrm.
      destruct (delete io key c1 fs) as [c' fs']. simpl in *.
      split_and!; [|by intros ? [= <-] _|done].
      split; [|done]. intros _. right. exists e. split; [done|]. by right.
Qed.

(** C1. Let the index be well formed. Let [set] store the bytes [B] for
    a request [R], with the write and the [stat] of the file
    succeeding, and let the entry of [R] still be in the index when
    [set] is over: the size enforcement of [set] has not evicted it.
    Then a [get], with nothing in between, for a request with the
    normal form of [R], made while the entry is no older than the
    maximum age and with the read of the file succeeding, returns [B]. *)
Theorem C1_put_then_get io_set io_get c fs url params url' params'
    (buffer : JS.bytes) (now1 now2 now : Z) :
  wf c ->
  spec_normal_form url' params' = spec_normal_form url params ->
  let key := generateCacheKey digest url params in
  let path := getFilePath c key (formatOf params) in
  let s := set digest io_set c fs url params buffer now1 now2 in
  writeFile_fails io_set path = false ->
  stat_fails io_set path = false ->
  JSMap.get (cache s.1) key <> None ->
  now - now1 <= maxCacheAge c ->
  readFile_fails io_get path = false ->
  (get digest io_get s.1 s.2 url' params' now).1.1 = Some buffer.
Proof.
  intros Hwf Hnf key path s Hw Hst Hkept Hage Hrd.
  set (fs1 := <[path := buffer]> fs).
  set (sz := Z.of_nat (length buffer)).
  assert (Hwrite : writeFile io_set fs path buffer = Some fs1)
    by (unfold writeFile; by rewrite Hw).
  assert (Hstat : stat_size io_set fs1 path = Some sz).
  { unfold stat_size. rewrite Hst. subst fs1. by rewrite lookup_insert_eq. }
  set (entry := mkCacheEntry key path
                  (mkMeta url params (formatOf params) now1 now2 sz)).
  set (c1 := set_cache c (JSMap.set (cache c) key entry)).
  assert (Hs : s = enforceSize io_set c1 fs1)
    by (subst s; by rewrite (set_success io_set c fs url params buffer
                               now1 now2 fs1 sz Hwrite Hstat)).
  assert (Hwf1 : wf c1).
  { apply wf_set; [done|]. split_and!; [done|done|]. simpl. subst sz. lia. }
  destruct (JSMap.get (cache s.1) key) as [e|] eqn:Hget; [clear Hkept|done].
  rewrite Hs in Hget.
  destruct (enforceSize_keeps io_set c1 fs1 key e Hwf1 Hget) as [Hget1 Hfile].
  assert (He : e = entry).
  { subst c1. simpl in Hget1. rewrite get_set_eq in Hget1. congruence. }
  subst e.
  assert (Hage' : maxCacheAge s.1 = maxCacheAge c).
  { rewrite Hs. assert (Hm := enforceSize_age io_set c1 fs1). by rewrite Hm. }
  unfold get.
  rewrite (same_normal_form_key _ _ _ _ Hnf). fold key.
  rewrite <- Hs in Hget. rewrite Hget. simpl.
  rewrite Hage'. destruct (Z.gtb_spec (now - now1) (maxCacheAge c)); [lia|].
  unfold readFile. rewrite Hrd.
  rewrite <- Hs in Hfile. simpl in Hfile. rewrite Hfile.
  subst fs1. by rewrite lookup_insert_eq.
Qed.

End WithDigest.

Lemma C1_put_then_get_witness :
  let s := set Sample.digest Sample.io Sample.emptyCache ∅
               "https://example.com" Sample.request Sample.bytes5 1000 1001 in
  (get Sample.digest Sample.io s.1 s.2 " HTTPS://EXAMPLE.com  " Sample.request 2000).1.1
  = Some Sample.bytes5.
Proof.
  intros s.
  refine (C1_put_then_get Sample.digest Sample.io Sample.io Sample.emptyCache ∅
            "https://example.com" Sample.request " HTTPS://EXAMPLE.com  "
            Sample.request Sample.bytes5 1000 1001 2000 _ _ _ _ _ _ _).
  - split; constructor.
  - reflexivity.
  - reflexivity.
  - reflexivity.
  - vm_compute. discriminate.
  - vm_compute. discriminate.
  - reflexivity.
Defined.

(** A [set] that evicts the two older entries, on a disk that refuses to
    unlink, and the [get] that follows. *)
Example put_evicts_others_then_get :
  let s := set Sample.digest Sample.io_no_unlink Sample.smallCache ∅
               "https://example.com" Sample.request Sample.bytes5 30 30 in
  JSMap.keys (cache s.1) = ["https://example.com#png"] /\
  (get Sample.digest Sample.io s.1 s.2 "https://example.com" Sample.request 40).1.1
  = Some Sample.bytes5.
Proof. vm_compute. done. Qed.

(** An entry that is one millisecond too old is not returned and leaves
    the index, on a disk that refuses to unlink. *)
Example get_expired :
  let s := set Sample.digest Sample.io Sample.emptyCache ∅
               "https://example.com" Sample.request Sample.bytes5 0 0 in
  let r := get Sample.digest Sample.io_no_unlink s.1 s.2 "https://example.com"
               Sample.request (defaultMaxCacheAge + 1) in
  r.1.1 = None /\ cache r.1.2 = [].
Proof. vm_compute. done. Qed.

Lemma C2_same_normal_form_same_key_witness :
  generateCacheKey Sample.digest (url Sample.fullA) Sample.fullA =
  generateCacheKey Sample.digest (url Sample.fullB) Sample.fullB.
Proof.
  apply (C2_same_normal_form_same_key Sample.digest).
  reflexivity.
Defined.

Lemma C5_size_bound_and_eviction_order_witness :
  totalSize (set Sample.digest Sample.io_no_unlink Sample.smallCache ∅
                 "https://example.com" Sample.request Sample.bytes5 30 30).1 <= 10.
Proof.
  refine (proj1 (proj2 (proj2
    (C5_size_bound_and_eviction_order Sample.digest Sample.io_no_unlink
       Sample.smallCache ∅ "https://example.com" Sample.request Sample.bytes5
       30 30 _ _ _)))).
  - split.
    + apply (bool_decide_unpack _). vm_compute. exact I.
    + repeat constructor; simpl; lia.
  - simpl. lia.
  - vm_compute. discriminate.
Defined.

(** ** A call of [set], turn by turn *)

Lemma runPut_Returned (turns : nat) io c fs (now1 now2 : Z) :
  runPut turns io c fs Returned now1 now2 = (Returned, c, fs).
Proof. induction turns as [|n IH]; [done|]. simpl. apply IH. Qed.

(** Left alone, the loop that [evictNext] and the turns after
    [fs.unlink] make up is [evictLoop]. *)
Lemma evictNext_alone io (now1 now2 : Z) (entries : list CacheEntry) :
  forall (currentSize : Z) c fs (turns : nat),
    (length entries <= turns)%nat ->
    runPut turns io c fs (evictNext c entries currentSize) now1 now2
    = (Returned, (evictLoop io entries currentSize c fs).1,
       (evictLoop io entries currentSize c fs).2).
Proof.
  induction entries as [|entry rest IH]; intros currentSize c fs turns Hturns.
  - simpl. apply runPut_Returned.
  - cbn [evictNext evictLoop].
    destruct (5 * currentSize <=? 4 * maxCacheSize c); [apply runPut_Returned|].
    unfold delete.
    destruct (JSMap.get (cache c) (key entry)) as [stored|] eqn:Hget.
    + destruct turns as [|turns]; [simpl in Hturns; lia|].
      cbn [runPut resumePut]. simpl in Hturns.
      destruct (unlink io fs (filePath stored)) as [fs'|]; cbn [default];
        rewrite IH by lia; done.
    + apply IH. simpl in Hturns. lia.
Qed.

(** A call of [set] that takes its turns one after the other, with no
    other call in between, ends, and does what [set] does. *)
Lemma put_alone_is_set digest io c fs url params buffer (now1 now2 : Z) :
  exists turns : nat, forall more : nat, (turns <= more)%nat ->
    runPut more io c fs (put digest c url params buffer) now1 now2
    = (Returned, (set digest io c fs url params buffer now1 now2).1,
       (set digest io c fs url params buffer now1 now2).2).
Proof.
  unfold put, set.
  set (key := generateCacheKey digest url params).
  set (path := getFilePath c key (formatOf params)).
  destruct (writeFile io fs path buffer) as [fs1|] eqn:Hw.
  2:{ exists 1%nat. intros [|more] Hm; [lia|]. cbn [runPut resumePut]. rewrite Hw.
      apply runPut_Returned. }
  destruct (stat_size io fs1 path) as [sz|] eqn:Hs.
  2:{ exists 2%nat. intros [|[|more]] Hm; [lia..|]. cbn [runPut resumePut].
      rewrite Hw. cbn [runPut resumePut]. rewrite Hs. apply runPut_Returned. }
  set (entry := mkCacheEntry key path (mkMeta url params (formatOf params) now1 now2 sz)).
  set (c1 := set_cache c (JSMap.set (cache c) key entry)).
  exists (2 + length (sortByAccess (JSMap.values (cache c1))))%nat.
  intros [|[|more]] Hm; [lia..|]. cbn [runPut resumePut].
  rewrite Hw. cbn [runPut resumePut]. rewrite Hs. fold entry c1.
  unfold enforceSizeStart, enforceSize.
  destruct (totalSize c1 <=? maxCacheSize c1); [apply runPut_Returned|].
  apply evictNext_alone. lia.
Qed.

(** Two calls of [set] that overlap. The cache holds two files of 4
    bytes, 8 of the 10 bytes it may hold. A first call stores 4 bytes:
    the index tracks 12, and the call is suspended in the [fs.unlink] of
    the oldest entry. A second call stores 5 bytes: the index tracks
    17, and this call too is suspended in the [fs.unlink] of the oldest
    entry. The first call resumes: it removes the oldest entry, its
    counter says 8, which is 80% of the maximum, and it returns. The
    index now tracks 13 bytes, against a maximum of 10. *)
Lemma C5_overlapping_puts_exceed_the_maximum :
  let io := Sample.io in
  let c0 := Sample.twoFiles.1 in
  let fs0 := Sample.twoFiles.2 in
  let first := put Sample.digest c0 "https://example.com/a" Sample.request Sample.bytes4 in
  let a1 := resumePut io c0 fs0 first 3 3 in
  let a2 := resumePut io a1.1.2 a1.2 a1.1.1 3 3 in
  let second := put Sample.digest a2.1.2 "https://example.com/b" Sample.request
                    Sample.bytes5 in
  let b1 := resumePut io a2.1.2 a2.2 second 4 4 in
  let b2 := resumePut io b1.1.2 b1.2 b1.1.1 4 4 in
  let a3 := resumePut io b2.1.2 b2.2 a2.1.1 5 5 in
  totalSize c0 = 8 /\ maxCacheSize c0 = 10 /\
  totalSize a2.1.2 = 12 /\ (exists rest n e path, a2.1.1 = InUnlink rest n e path) /\
  totalSize b2.1.2 = 17 /\ (exists rest n e path, b2.1.1 = InUnlink rest n e path) /\
  a3.1.1 = Returned /\
  totalSize a3.1.2 = 13 /\ maxCacheSize a3.1.2 = 10 /\
  ~ totalSize a3.1.2 <= maxCacheSize a3.1.2.
Proof.
  cbv zeta. split_and!.
  - vm_compute. reflexivity.
  - vm_compute. reflexivity.
  - vm_compute. reflexivity.
  - vm_compute. by do 4 eexists.
  - vm_compute. reflexivity.
  - vm_compute. by do 4 eexists.
  - vm_compute. reflexivity.
  - vm_compute. reflexivity.
  - vm_compute. reflexivity.
  - vm_compute. intros H. by apply H.
Qed.

End CacheProperties.

(* ===================================================================== *)
(** * Properties of the job queue *)
(* ===================================================================== *)

Section JobQueueProperties.

Import Security JobQueue.

Implicit Types (q : JobQueue.t) (job : ScreenshotJob) (ev : Event).

Lemma generateJobId_truthy (now_id : Z) (random : string) :
  JS.truthy (generateJobId now_id random) = true.
Proof. reflexivity. Qed.

(** ** The worker loop *)

Lemma whileLoop_nil q :
  processingQueue q = [] -> whileLoop q = mkQueue (jobs q) [] false None.
Proof. intros Hq. unfold whileLoop. by rewrite Hq. Qed.

Lemma whileLoop_cons q jobId rest job :
  processingQueue q = jobId :: rest ->
  JS.truthy jobId = true -> jobs q !! jobId = Some job ->
  whileLoop q =
    mkQueue (<[jobId := set_status job processing]> (jobs q)) rest
            (isProcessing q) (Some (jobId, set_status job processing)).
Proof.
  intros Hq Ht Hj. unfold whileLoop. rewrite Hq. simpl. by rewrite Ht, Hj.
Qed.

(** One round of the loop leaves a job alone or dequeues it. *)
Lemma whileLoop_jobs q :
  (forall jobId, jobId ∈ processingQueue q ->
     JS.truthy jobId = true /\
     exists job, jobs q !! jobId = Some job /\ status job = pending) ->
  NoDup (processingQueue q) ->
  forall jobId,
    jobs (whileLoop q) !! jobId = jobs q !! jobId \/
    exists job,
      jobs q !! jobId = Some job /\ status job = pending /\
      jobs (whileLoop q) !! jobId = Some (set_status job processing) /\
      (jobId ∈ processingQueue q) /\ (jobId ∉ processingQueue (whileLoop q)) /\
      suspended (whileLoop q) = Some (jobId, set_status job processing).
Proof.
  intros Hq Hnd jobId.
  destruct (processingQueue q) as [|id0 rest] eqn:E.
  - left. by rewrite (whileLoop_nil q E).
  - destruct (Hq id0 ltac:(left)) as (Ht & job & Hj & Hp).
    rewrite (whileLoop_cons q id0 rest job E Ht Hj). simpl.
    apply NoDup_cons in Hnd as [Hid0 _].
    destruct (decide (id0 = jobId)) as [<-|Hne].
    + right. exists job. rewrite lookup_insert_eq.
      split_and!; [done|done|done|left|done|done].
    + left. by rewrite lookup_insert_ne.
Qed.

Lemma whileLoop_Inv q :
  (forall jobId, jobId ∈ processingQueue q ->
     JS.truthy jobId = true /\
     exists job, jobs q !! jobId = Some job /\ status job = pending) ->
  NoDup (processingQueue q) ->
  (forall jobId job, jobs q !! jobId = Some job ->
     (completedAt job = None <-> terminal (status job) = false)) ->
  isProcessing q = true ->
  Inv (whileLoop q).
Proof.
  intros Hq Hnd Hc Hp.
  destruct (processingQueue q) as [|id0 rest] eqn:E.
  - rewrite (whileLoop_nil q E). split_and!; simpl; [|constructor|done|done].
    intros ? H. by apply elem_of_nil in H.
  - destruct (Hq id0 ltac:(left)) as (Ht & job & Hj & Hpend).
    rewrite (whileLoop_cons q id0 rest job E Ht Hj).
    apply NoDup_cons in Hnd as [Hid0 Hnd].
    split_and!; simpl.
    + intros jobId Hin. destruct (Hq jobId ltac:(by right)) as (? & j & ? & ?).
      split; [done|]. exists j. split; [|done].
      rewrite lookup_insert_ne; [done|]. by intros ->.
    + done.
    + by rewrite lookup_insert_eq.
    + intros jobId j. destruct (decide (id0 = jobId)) as [<-|Hne].
      * rewrite lookup_insert_eq. intros [= <-]. simpl.
        pose proof (Hc _ _ Hj) as Hcj. rewrite Hpend in Hcj. simpl in Hcj. tauto.
      * rewrite lookup_insert_ne by done. apply Hc.
Qed.

(** ** The invariant *)

Lemma Inv_new : Inv new.
Proof.
  split_and!; simpl; [|constructor|done|].
  - intros ? H. by apply elem_of_nil in H.
  - intros ?? H. by rewrite lookup_empty in H.
Qed.

Lemma Inv_register q p (now_id : Z) (random : string) (now : Z) :
  Inv q -> jobs q !! generateJobId now_id random = None ->
  Inv (register q p (generateJobId now_id random) now).
Proof.
  intros (Hq & Hnd & Hs & Hc) Hfresh.
  set (newId := generateJobId now_id random) in *.
  split_and!; simpl.
  - intros jobId Hin. apply elem_of_app in Hin as [Hin|Hin].
    + destruct (Hq jobId Hin) as (Ht & j & Hj & Hp). split; [done|].
      exists j. split; [|done]. rewrite lookup_insert_ne; [done|].
      intros ->. congruence.
    + apply list_elem_of_singleton in Hin as ->.
      split; [apply generateJobId_truthy|]. eexists.
      split; [apply lookup_insert_eq | done].
  - apply NoDup_app. split_and!; [done| |apply NoDup_singleton].
    intros x Hx Hx'. apply list_elem_of_singleton in Hx' as ->.
    destruct (Hq _ Hx) as (_ & j & Hj & _). congruence.
  - destruct (suspended q) as [[jobId j]|]; [|done].
    destruct Hs as (Hj & ? & ?). split_and!; [|done|done].
    rewrite lookup_insert_ne; [done|]. intros ->. congruence.
  - intros jobId j. destruct (decide (newId = jobId)) as [<-|Hne].
    + rewrite lookup_insert_eq. by intros [= <-].
    + rewrite lookup_insert_ne by done. apply Hc.
Qed.

Lemma Inv_processQueue q : Inv q -> Inv (processQueue q).
Proof.
  intros HI. unfold processQueue. destruct (isProcessing q) eqn:E; [done|].
  destruct HI as (Hq & Hnd & Hs & Hc). by apply whileLoop_Inv.
Qed.

Lemma settle_terminal base64 job o (now : Z) (iso : string) :
  terminal (status (settle base64 job o now iso)) = true /\
  completedAt (settle base64 job o now iso) = Some now.
Proof. by destruct o. Qed.

Lemma Inv_resume base64 q o (now : Z) (iso : string) :
  Inv q -> Inv (resume base64 q o now iso).
Proof.
  intros HI. unfold resume.
  destruct (suspended q) as [[sid sj]|] eqn:E; [|done].
  destruct HI as (Hq & Hnd & Hs & Hc). rewrite E in Hs.
  destruct Hs as (Hsj & Hproc & Hp).
  destruct (settle_terminal base64 sj o now iso) as [Hterm Hat].
  apply whileLoop_Inv; simpl; [|done| |done].
  - intros jobId Hin. destruct (Hq jobId Hin) as (? & j & Hj & Hpend).
    split; [done|]. exists j. split; [|done].
    rewrite lookup_insert_ne; [done|]. intros ->. congruence.
  - intros jobId j. destruct (decide (sid = jobId)) as [<-|Hne].
    + rewrite lookup_insert_eq. intros [= <-]. rewrite Hat.
      split; [done|]. intros Hcontra. congruence.
    + rewrite lookup_insert_ne by done. apply Hc.
Qed.

Lemma stale_terminal q (now : Z) jobId job :
  Inv q -> jobs q !! jobId = Some job -> stale now job = true ->
  terminal (status job) = true.
Proof.
  intros (_ & _ & _ & Hc) Hj Hst. unfold stale in Hst.
  destruct (completedAt job) as [t|] eqn:E; [|done].
  destruct (terminal (status job)) eqn:Ht; [done|].
  apply (Hc _ _ Hj) in Ht. congruence.
Qed.

Lemma not_terminal_kept q (now : Z) jobId job :
  Inv q -> jobs q !! jobId = Some job -> terminal (status job) = false ->
  jobs (cleanup q now) !! jobId = Some job.
Proof.
  intros HI Hj Ht. simpl. apply map_lookup_filter_Some. split; [done|]. simpl.
  destruct (stale now job) eqn:Hst; [|done].
  rewrite (stale_terminal q now jobId job HI Hj Hst) in Ht. done.
Qed.

Lemma Inv_cleanup q (now : Z) : Inv q -> Inv (cleanup q now).
Proof.
  intros HI. pose proof HI as (Hq & Hnd & Hs & Hc).
  split_and!; simpl.
  - intros jobId Hin. destruct (Hq jobId Hin) as (? & j & Hj & Hpend).
    split; [done|]. exists j. split; [|done].
    apply (not_terminal_kept q now jobId j HI Hj). by rewrite Hpend.
  - done.
  - destruct (suspended q) as [[sid sj]|]; [|done].
    destruct Hs as (Hsj & Hproc & Hp). split_and!; [|done|done].
    apply (not_terminal_kept q now sid sj HI Hsj). by rewrite Hproc.
  - intros jobId j Hj. apply map_lookup_filter_Some in Hj as [Hj _].
    by apply (Hc jobId).
Qed.

Lemma reachable_Inv base64 q : reachable base64 q -> Inv q.
Proof.
  induction 1 as [|q ev _ IH Hen]; [apply Inv_new|].
  destruct ev; simpl in *.
  - by apply Inv_register.
  - by apply Inv_processQueue.
  - by apply Inv_resume.
  - by apply Inv_cleanup.
Qed.

(** ** The life of a job *)

Lemma lifecycle_same q ev q' jobId :
  jobs q' !! jobId = jobs q !! jobId -> lifecycle_step q ev q' jobId.
Proof.
  intros H. unfold lifecycle_step. rewrite H.
  destruct (jobs q !! jobId); [by left | done].
Qed.

(** A round of the worker loop, entered from [q0], seen from the state
    [q] in which the event began: [q0] has the queue of [q] and, under
    [jobId], the job of [q]. *)
Lemma lifecycle_loop q ev q0 jobId :
  Inv q -> worker_event ev ->
  processingQueue q0 = processingQueue q ->
  jobs q0 !! jobId = jobs q !! jobId ->
  (forall id, id ∈ processingQueue q0 ->
     JS.truthy id = true /\
     exists job, jobs q0 !! id = Some job /\ status job = pending) ->
  lifecycle_step q ev (whileLoop q0) jobId.
Proof.
  intros (Hq & Hnd & Hs & Hc) Hev Hqueue Hjob Hq0.
  rewrite <- Hqueue in Hnd.
  destruct (whileLoop_jobs q0 Hq0 Hnd jobId)
    as [Hsame|(job & Hj & Hpend & Hj' & Hin & Hout & Hsus)].
  - apply lifecycle_same. congruence.
  - unfold lifecycle_step. rewrite <- Hjob, Hj, Hj'. right. left.
    rewrite <- Hqueue. split_and!; try done. simpl.
    rewrite Hjob in Hj. apply (Hc _ _ Hj). by rewrite Hpend.
Qed.

Lemma lifecycle_register q p (now_id : Z) (random : string) (now : Z) jobId :
  jobs q !! generateJobId now_id random = None ->
  lifecycle_step q (Register p now_id random now)
    (register q p (generateJobId now_id random) now) jobId.
Proof.
  intros Hfresh. destruct (decide (generateJobId now_id random = jobId)) as [<-|Hne].
  - unfold lifecycle_step. simpl. rewrite Hfresh, lookup_insert_eq. simpl.
    split_and!; [done|done|]. by exists p, now_id, random, now.
  - apply lifecycle_same. simpl. by rewrite lookup_insert_ne.
Qed.

Lemma lifecycle_processQueue q jobId :
  Inv q -> lifecycle_step q ProcessQueue (processQueue q) jobId.
Proof.
  intros HI. unfold processQueue. destruct (isProcessing q); [by apply lifecycle_same|].
  apply lifecycle_loop; [done|done|done|done|]. apply HI.
Qed.

Lemma lifecycle_resume base64 q o (now : Z) (iso : string) jobId :
  Inv q ->
  lifecycle_step q (Resume o now iso) (resume base64 q o now iso) jobId.
Proof.
  intros HI. unfold resume.
  destruct (suspended q) as [[sid sj]|] eqn:E; [|by apply lifecycle_same].
  pose proof HI as (Hq & Hnd & Hs & Hc). rewrite E in Hs.
  destruct Hs as (Hsj & Hproc & Hp).
  destruct (settle_terminal base64 sj o now iso) as [Hterm Hat].
  set (q0 := mkQueue _ _ _ _).
  assert (Hq0 : forall id, id ∈ processingQueue q0 ->
            JS.truthy id = true /\
            exists job, jobs q0 !! id = Some job /\ status job = pending).
  { intros id Hin. destruct (Hq id Hin) as (? & j & Hj & Hpend).
    split; [done|]. exists j. split; [|done]. subst q0. simpl.
    rewrite lookup_insert_ne; [done|]. intros ->. congruence. }
  destruct (decide (sid = jobId)) as [<-|Hne].
  - destruct (whileLoop_jobs q0 Hq0 Hnd sid)
      as [Hsame|(job & Hj & Hpend & _)].
    + unfold lifecycle_step. rewrite Hsame, Hsj. subst q0. simpl.
      rewrite lookup_insert_eq. right. right.
      split_and!; [done|done| |by exists o, now, iso].
      apply (Hc _ _ Hsj). by rewrite Hproc.
    + subst q0. simpl in Hj. rewrite lookup_insert_eq in Hj.
      injection Hj as <-. rewrite Hpend in Hterm. done.
  - apply lifecycle_loop; [done|done|done| |done].
    subst q0. simpl. by rewrite lookup_insert_ne.
Qed.

Lemma lifecycle_cleanup q (now : Z) jobId :
  Inv q -> lifecycle_step q (Cleanup now) (cleanup q now) jobId.
Proof.
  intros HI. unfold lifecycle_step.
  destruct (jobs q !! jobId) as [job|] eqn:Hj.
  - destruct (jobs (cleanup q now) !! jobId) as [job'|] eqn:Hj'.
    + left. simpl in Hj'. apply map_lookup_filter_Some in Hj' as [Hj' _]. congruence.
    + split; [|by exists now].
      destruct (terminal (status job)) eqn:Ht; [done|].
      rewrite (not_terminal_kept q now jobId job HI Hj Ht) in Hj'. done.
  - simpl. rewrite map_lookup_filter_None_2; [done|]. by left.
Qed.

(** An accepted [createJob] is a registration followed by a call of
    [processQueue]. *)
Lemma createJob_accepted base64 parseURL q raw
    (now_id : Z) (random : string) (now : Z) :
  c_error (createJob parseURL q raw now_id random now).1 = None ->
  (createJob parseURL q raw now_id random now).2 =
    exec base64 (exec base64 q (Register (sanitizeScreenshotParams raw) now_id random now))
         ProcessQueue.
Proof.
  unfold createJob.
  destruct (validateUrl parseURL (url_text (raw_url raw))) as [[] err] eqn:V;
    cbn [valid negb Security.error].
  2:{ simpl. intros ->. unfold validateUrl in V.
      repeat (match type of V with
              | context [match ?x with _ => _ end] => destruct x
              | context [if ?x then _ else _] => destruct x
              end; try discriminate). }
  destruct (JS.truthy (url (sanitizeScreenshotParams raw))); cbn [negb fst snd c_error];
    [|done].
  intros _. cbn [exec]. set (q1 := register _ _ _ _).
  destruct (isProcessing q1) eqn:E; cbn [negb]; [|done].
  unfold processQueue. by rewrite E.
Qed.

(** C3. In every state the scheduler can reach, with job identifiers
    drawn fresh, a job carries a completion time exactly when its status
    is [completed] or [failed]; and one event does to the job stored
    under an identifier one of five things. It creates it, [pending] and
    without completion time, in the registration of [createJob]. It
    leaves it as it is. It moves it from [pending] to [processing],
    which only a round of the worker loop does, taking the identifier
    off the queue. It moves it from [processing] to [completed] or
    [failed] and in the same step stamps [completedAt], which was not
    set before. Or it sweeps it away, which happens only to a job that
    is [completed] or [failed]. So a status never moves backwards,
    nothing leaves [completed] or [failed], and [completedAt] is
    assigned once. An accepted [createJob] is the registration followed
    by a call of [processQueue]. *)
Theorem C3_job_lifecycle base64 q ev :
  reachable base64 q -> enabled q ev ->
  (forall jobId job, jobs q !! jobId = Some job ->
     (completedAt job = None <-> terminal (status job) = false)) /\
  (forall jobId, lifecycle_step q ev (exec base64 q ev) jobId) /\
  (forall parseURL raw (now_id : Z) (random : string) (now : Z),
     c_error (createJob parseURL q raw now_id random now).1 = None ->
     (createJob parseURL q raw now_id random now).2 =
       exec base64
         (exec base64 q (Register (sanitizeScreenshotParams raw) now_id random now))
         ProcessQueue).
Proof.
  intros Hr Hen. pose proof (reachable_Inv base64 q Hr) as HI.
  split_and!.
  - apply HI.
  - intros jobId. destruct ev; simpl in *.
    + by apply lifecycle_register.
    + by apply lifecycle_processQueue.
    + by apply lifecycle_resume.
    + by apply lifecycle_cleanup.
  - intros. by apply createJob_accepted.
Qed.

Lemma C3_job_lifecycle_witness :
  let q := exec Sample.base64 new (Register Sample.request 1 "a" 5) in
  lifecycle_step q ProcessQueue (exec Sample.base64 q ProcessQueue) "job_1_a".
Proof.
  intros q.
  refine (proj1 (proj2 (C3_job_lifecycle Sample.base64 q ProcessQueue _ _)) "job_1_a").
  - apply reachable_step; [apply reachable_new | reflexivity].
  - exact I.
Defined.

(** A job whose identifier is drawn again starts over. [createJob]
    stores a new record under the identifier that [generateJobId] draws,
    without looking the identifier up. Here a job is created and
    completed, at the time 50. A call of [createJob] that draws the same
    identifier then puts a [pending] record without completion time in
    its place, which is no step of the chain; the worker, idle, takes it
    at once, so that the record which was [completed] is [processing]
    when [createJob] returns; and it is completed a second time, at the
    time 90. *)
Lemma C3_reused_identifier_restarts_the_job :
  let raw := Sample.raw "https://example.com" in
  let q1 := (createJob Sample.parseURL new raw 1 "a" 5).2 in
  let q2 := resume Sample.base64 q1 (Done Sample.bytes5 false) 50 "iso" in
  let again := Register (sanitizeScreenshotParams raw) 1 "a" 60 in
  let q3 := (createJob Sample.parseURL q2 raw 1 "a" 60).2 in
  let q4 := resume Sample.base64 q3 (Done Sample.bytes5 false) 90 "iso" in
  reachable Sample.base64 q2 /\
  status <$> getJob q2 "job_1_a" = Some completed /\
  completedAt <$> getJob q2 "job_1_a" = Some (Some 50) /\
  status <$> getJob (exec Sample.base64 q2 again) "job_1_a" = Some pending /\
  ~ lifecycle_step q2 again (exec Sample.base64 q2 again) "job_1_a" /\
  jobId (createJob Sample.parseURL q2 raw 1 "a" 60).1 = "job_1_a" /\
  status <$> getJob q3 "job_1_a" = Some processing /\
  completedAt <$> getJob q3 "job_1_a" = Some None /\
  status <$> getJob q4 "job_1_a" = Some completed /\
  completedAt <$> getJob q4 "job_1_a" = Some (Some 90).
Proof.
  cbv zeta. split_and!; try reflexivity.
  - apply (reachable_step Sample.base64 _ (Resume (Done Sample.bytes5 false) 50 "iso")).
    + rewrite (createJob_accepted Sample.base64) by reflexivity.
      apply reachable_step; [|exact I].
      apply reachable_step; [apply reachable_new | reflexivity].
    + vm_compute. discriminate.
  - unfold lifecycle_step.
    assert (E2 : jobs (resume Sample.base64
                         (createJob Sample.parseURL new
                            (Sample.raw "https://example.com") 1 "a" 5).2
                         (Done Sample.bytes5 false) 50 "iso") !! "job_1_a"
                 = Some (mkJob "job_1_a" completed
                           (sanitizeScreenshotParams (Sample.raw "https://example.com"))
                           (Some (mkResult "data:image/png;base64," "png" "iso" false))
                           None 5 (Some 50))) by reflexivity.
    rewrite E2. cbn [exec register jobs].
    change (generateJobId 1 "a") with "job_1_a". rewrite lookup_insert_eq.
    intros [H|[H|H]].
    + discriminate H.
    + destruct H as [H _]. discriminate H.
    + destruct H as [H _]. discriminate H.
Qed.

(** ** Rejected requests *)

Lemma rejected_invalid parseURL (u : string) :
  rejected parseURL u <-> valid (validateUrl parseURL u) = false.
Proof.
  unfold rejected, validateUrl. destruct (parseURL u) as [parsed|]; [|done].
  cbv zeta.
  repeat match goal with
         | |- context [existsb ?f ?l] => destruct (existsb f l)
         end; simpl; intuition congruence.
Qed.

Lemma validateUrl_error parseURL (u : string) :
  valid (validateUrl parseURL u) = false ->
  exists msg, Security.error (validateUrl parseURL u) = Some msg.
Proof.
  unfold validateUrl. destruct (parseURL u) as [parsed|]; [|by eexists].
  cbv zeta.
  repeat (match goal with
          | |- context [if ?x then _ else _] => destruct x
          end; simpl; [by eexists|]).
  done.
Qed.

(** C7. When the URL of a request is rejected (it is malformed, its
    protocol is not HTTP or HTTPS, its host is a local or private
    address or contains a shortener's domain, or its text contains a
    dangerous pseudo-protocol), [createJob] answers with an empty job
    identifier and an error message and returns the scheduler as it
    was: the same jobs, the same queue, [isProcessing] as before and the
    worker where it was. *)
Theorem C7_rejected_url_creates_nothing parseURL q raw
    (now_id : Z) (random : string) (now : Z) :
  rejected parseURL (url_text (raw_url raw)) ->
  let r := createJob parseURL q raw now_id random now in
  jobId r.1 = "" /\ (exists msg, c_error r.1 = Some msg) /\
  r.2 = q /\
  jobs r.2 = jobs q /\ processingQueue r.2 = processingQueue q /\
  isProcessing r.2 = isProcessing q /\ suspended r.2 = suspended q.
Proof.
  intros Hrej r. apply rejected_invalid in Hrej.
  destruct (validateUrl_error parseURL _ Hrej) as [msg Hmsg].
  subst r. unfold createJob. rewrite Hrej. simpl.
  split_and!; try done. by exists msg.
Qed.

Lemma C7_rejected_url_creates_nothing_witness :
  (createJob Sample.parseURL new (Sample.raw "ftp://internal") 1 "a" 5).2 = new.
Proof.
  refine (proj1 (proj2 (proj2
    (C7_rejected_url_creates_nothing Sample.parseURL new
       (Sample.raw "ftp://internal") 1 "a" 5 _)))).
  vm_compute. left. reflexivity.
Defined.

Example createJob_ftp :
  createJob Sample.parseURL new (Sample.raw "ftp://internal") 1 "a" 5 =
    (mkCreated "" (Some "Only HTTP and HTTPS protocols are allowed"), new).
Proof. reflexivity. Qed.

Example createJob_loopback :
  createJob Sample.parseURL new (Sample.raw "http://127.0.0.1") 1 "a" 5 =
    (mkCreated "" (Some "Local and private network addresses are not allowed"), new).
Proof. reflexivity. Qed.

Example createJob_accepts :
  let r := createJob Sample.parseURL new (Sample.raw "https://example.com") 1 "a" 5 in
  r.1 = mkCreated "job_1_a" None /\
  status <$> getJob r.2 "job_1_a" = Some processing /\
  processingQueue r.2 = [] /\ isProcessing r.2 = true.
Proof. vm_compute. done. Qed.

(** ** Retries *)

Lemma retryLoop_three attempt p :
  retryLoop attempt 3 p 0 =
    match attempt 0%nat with
    | inl b => (Captured b, attempts p 1)
    | inr _ =>
        match attempt 1%nat with
        | inl b => (Captured b, attempts p 2)
        | inr _ =>
            match attempt 2%nat with
            | inl b => (Captured b, attempts p 3)
            | inr e => (Raised e, attempts p 3)
            end
        end
    end.
Proof.
  simpl. destruct (attempt 0%nat); [done|].
  destruct (attempt 1%nat); [done|]. by destruct (attempt 2%nat).
Qed.

(** Three rounds are all the loop ever takes. *)
Lemma retryLoop_fuel attempt p (fuel : nat) :
  (3 <= fuel)%nat -> retryLoop attempt fuel p 0 = retryLoop attempt 3 p 0.
Proof.
  intros Hfuel. do 3 (destruct fuel as [|fuel]; [lia|]). simpl.
  destruct (attempt 0%nat); [done|].
  destruct (attempt 1%nat); [done|]. by destruct (attempt 2%nat).
Qed.

(** The worker stores the settled job under its identifier. *)
Lemma resume_settles base64 q o (now : Z) (iso : string) jobId job :
  Inv q -> suspended q = Some (jobId, job) ->
  jobs (resume base64 q o now iso) !! jobId = Some (settle base64 job o now iso).
Proof.
  intros (Hq & Hnd & Hs & Hc) E. rewrite E in Hs. destruct Hs as (Hsj & Hproc & _).
  unfold resume. rewrite E. set (q0 := mkQueue _ _ _ _).
  assert (Hq0 : forall id, id ∈ processingQueue q0 ->
            JS.truthy id = true /\
            exists job, jobs q0 !! id = Some job /\ status job = pending).
  { intros id Hin. destruct (Hq id Hin) as (? & j & Hj & Hpend).
    split; [done|]. exists j. split; [|done]. subst q0. simpl.
    rewrite lookup_insert_ne; [done|]. intros ->. congruence. }
  destruct (whileLoop_jobs q0 Hq0 Hnd jobId) as [Hsame|(j & Hj & Hpend & _)].
  - rewrite Hsame. subst q0. simpl. apply lookup_insert_eq.
  - subst q0. simpl in Hj. rewrite lookup_insert_eq in Hj. injection Hj as <-.
    destruct (settle_terminal base64 job o now iso) as [Hterm _].
    rewrite Hpend in Hterm. done.
Qed.

(** C8. When the request of a job misses the cache, the worker calls
    the capture between one and three times, with a wait of 2000 ms
    between one call and the next, and the loop needs no more than its
    three rounds. When all three calls fail, the error of the third is
    the one that reaches the [catch] clause: the job becomes [failed],
    its [error] field holds the message that [catch] takes from that
    error (the message itself when the error is an [Error]), and its
    completion time is stamped; this is the job that the worker stores
    under the job's identifier. *)
Theorem C8_three_attempts_then_failed base64 digest attempt env job cm fs
    (now : Z) (iso : string) :
  let p := params job in
  (Cache.get digest (io_get env) cm fs (url p) p (now_get env)).1.1 = None ->
  let r := runJob digest attempt env job cm fs in
  let o := r.1.1.1 in
  let effects := r.1.1.2 in
  (exists n : nat, (1 <= n <= 3)%nat /\ effects = attempts p n) /\
  (forall fuel : nat, (S maxRetries <= fuel)%nat ->
     retryLoop attempt fuel p 0 = retryLoop attempt (S maxRetries) p 0) /\
  (forall e0 e1 e2,
     attempt 0%nat = inr e0 -> attempt 1%nat = inr e1 -> attempt 2%nat = inr e2 ->
     o = Threw e2 /\ effects = attempts p 3 /\
     let job' := settle base64 job o now iso in
     status job' = failed /\
     JobQueue.error job' = Some (errorMessage e2) /\
     (forall message, e2 = ErrorObj message -> JobQueue.error job' = Some message) /\
     completedAt job' = Some now /\
     forall q jobId, reachable base64 q -> suspended q = Some (jobId, job) ->
       jobs (resume base64 q o now iso) !! jobId = Some job').
Proof.
  intros p Hmiss r o effects. subst o effects r. unfold runJob. fold p.
  destruct (Cache.get digest (io_get env) cm fs (url p) p (now_get env))
    as [[screenshot cm1] fs1].
  simpl in Hmiss. subst screenshot.
  change (S maxRetries) with 3%nat. rewrite retryLoop_three.
  split_and!.
  - destruct (attempt 0%nat) as [b|?].
    { destruct (Cache.set _ _ _ _ _ _ _ _ _). exists 1%nat. split; [lia|done]. }
    destruct (attempt 1%nat) as [b|?].
    { destruct (Cache.set _ _ _ _ _ _ _ _ _). exists 2%nat. split; [lia|done]. }
    destruct (attempt 2%nat) as [b|?].
    { destruct (Cache.set _ _ _ _ _ _ _ _ _). exists 3%nat. split; [lia|done]. }
    exists 3%nat. split; [lia|done].
  - intros fuel Hfuel. rewrite <- retryLoop_three. by apply retryLoop_fuel.
  - intros e0 e1 e2 -> -> ->. simpl.
    split_and!; try done.
    + by intros message ->.
    + intros q jobId Hr Hs.
      apply (resume_settles base64 q (Threw e2) now iso jobId job);
        [by eapply reachable_Inv | done].
Qed.

Lemma C8_three_attempts_then_failed_witness :
  let o := (runJob Sample.digest Sample.timesOut Sample.env Sample.job
              Sample.emptyCache ∅).1.1.1 in
  JobQueue.error (settle Sample.base64 Sample.job o 99 "2026-01-01T00:00:00.000Z")
  = Some "Navigation timeout of 30000 ms exceeded".
Proof.
  intros o.
  refine (proj1 (proj2 (proj2 (proj2 (proj2
    (proj2 (proj2 (C8_three_attempts_then_failed Sample.base64 Sample.digest
       Sample.timesOut Sample.env Sample.job Sample.emptyCache ∅ 99
       "2026-01-01T00:00:00.000Z" _))
       (ErrorObj "Navigation timeout of 30000 ms exceeded")
       (ErrorObj "Navigation timeout of 30000 ms exceeded")
       (ErrorObj "Navigation timeout of 30000 ms exceeded") _ _ _))))) _ _).
  - reflexivity.
  - reflexivity.
  - reflexivity.
  - reflexivity.
  - reflexivity.
Defined.

(** The scenario of the specification: a job for [https://example.com]
    is registered and at once taken up by the idle worker; the capture
    succeeds at the second attempt and the job completes with
    [fromCache = false]; the same request, asked again, is served from
    the cache without a capture. *)
Example scenario_capture_then_cache_hit :
  let created := createJob Sample.parseURL new (Sample.raw "https://example.com") 1 "a" 5 in
  let job := default Sample.job (getJob created.2 "job_1_a") in
  let r := runJob Sample.digest Sample.secondTime Sample.env job Sample.emptyCache ∅ in
  let q := resume Sample.base64 created.2 r.1.1.1 50 "2026-01-01T00:00:00.000Z" in
  let again := runJob Sample.digest Sample.timesOut Sample.env job r.1.2 r.2 in
  status job = processing /\
  r.1.1.2 = attempts (params job) 2 /\
  status <$> getJob q "job_1_a" = Some completed /\
  (fromCache <$> (getJob q "job_1_a" ≫= result)) = Some false /\
  completedAt <$> getJob q "job_1_a" = Some (Some 50) /\
  isProcessing q = false /\
  again.1.1 = (Done Sample.bytes5 true, []).
Proof. vm_compute. done. Qed.

(** ** What [getJob] hands out *)

Section WithDates.

Variable toISOString : Z -> string.

(** C9, as the code has it. [getJob] answers with the job record that
    is stored under the identifier, capture parameters included, and
    with [null] when there is none; it only looks the identifier up.
    The view without the capture parameters is the answer of the job
    status route, built from the record: it shows the identifier, the
    status, the result, the error and the two timestamps, and is the
    same for two records that differ in their parameters alone. *)
Theorem C9_getJob_returns_the_record q (jobId : string) :
  getJob q jobId = jobs q !! jobId /\
  (forall job, jobs q !! jobId = Some job ->
     params <$> getJob q jobId = Some (params job)) /\
  (jobs q !! jobId = None -> getJob q jobId = None) /\
  (forall job p,
     statusResponse toISOString (set_params job p) = statusResponse toISOString job) /\
  (forall job,
     let view := statusResponse toISOString job in
     s_jobId view = id job /\ s_status view = status job /\
     s_result view = result job /\ s_error view = JobQueue.error job /\
     s_createdAt view = toISOString (createdAt job) /\
     (forall t, completedAt job = Some t -> t <> 0 ->
        s_completedAt view = Some (toISOString t))).
Proof.
  unfold getJob. split_and!; try done.
  - by intros job ->.
  - intros job. simpl. split_and!; try done.
    intros t -> Ht. by destruct (Z.eqb_spec t 0).
Qed.

End WithDates.

(** C9, as the specification has it, fails: were the answer of [getJob]
    a view without the capture parameters, it would be the same for two
    schedulers that differ only in the parameters of the job. *)
Lemma C9_getJob_exposes_params :
  ~ (forall q jobId job p,
       jobs q !! jobId = Some job ->
       getJob (mkQueue (<[jobId := set_params job p]> (jobs q)) (processingQueue q)
                       (isProcessing q) (suspended q)) jobId
       = getJob q jobId).
Proof.
  intros H.
  specialize (H (mkQueue {[ "job_1_a" := Sample.job ]} [] true
                         (Some ("job_1_a", Sample.job)))
                "job_1_a" Sample.job Sample.fullB).
  unfold getJob in H. simpl in H.
  rewrite lookup_insert_eq, lookup_singleton_eq in H.
  specialize (H eq_refl). discriminate H.
Qed.

End JobQueueProperties.

(* ===================================================================== *)
(** * Further properties of the rate limiter *)
(* ===================================================================== *)

Section RateLimiterFurther.

Import RateLimiter.

Implicit Types (rl : RateLimiter.t) (request : Request) (now : Z).

Lemma checkLimit_other rl request now (ip : string) :
  ip <> getClientIP request ->
  requests (checkLimit rl request now).2 !! ip = requests rl !! ip.
Proof.
  intros Hne. unfold checkLimit.
  destruct (requests rl !! getClientIP request) as [entry|]; simpl.
  - destruct (now >? resetTime entry); simpl; [by rewrite lookup_insert_ne|].
    destruct (count entry >=? maxRequests rl); simpl; [done|].
    by rewrite lookup_insert_ne.
  - by rewrite lookup_insert_ne.
Qed.

(** The answer of [checkLimit] depends on the limiter only through its
    settings and the window of the calling client. *)
Lemma checkLimit_result_ext rl rl' request now :
  maxRequests rl' = maxRequests rl -> windowMs rl' = windowMs rl ->
  requests rl' !! getClientIP request = requests rl !! getClientIP request ->
  (checkLimit rl' request now).1 = (checkLimit rl request now).1.
Proof.
  intros Hm Hw Hl. unfold checkLimit. rewrite Hl, Hm, Hw.
  destruct (requests rl !! getClientIP request) as [entry|]; simpl; [|done].
  destruct (now >? resetTime entry); simpl; [done|].
  by destruct (count entry >=? maxRequests rl).
Qed.

(** X1. One client's calls never touch another client's window: a call
    leaves the window of every other client as it was, and so it does
    not change the answer that another client gets afterwards. *)
Theorem X1_clients_are_isolated rl (r1 r2 : Request) (t1 t2 : Z) :
  getClientIP r1 <> getClientIP r2 ->
  (forall ip, ip <> getClientIP r1 ->
     requests (checkLimit rl r1 t1).2 !! ip = requests rl !! ip) /\
  (checkLimit (checkLimit rl r1 t1).2 r2 t2).1 = (checkLimit rl r2 t2).1.
Proof.
  intros Hne. split.
  - intros ip Hip. by apply checkLimit_other.
  - apply checkLimit_result_ext; try apply checkLimit_settings.
    apply checkLimit_other. congruence.
Qed.

Lemma X1_clients_are_isolated_witness :
  (checkLimit (checkLimit Sample.exhausted (mkRequest None None None) 3000).2
              (mkRequest None (Some "10.1.2.3") None) 3001).1
  = (checkLimit Sample.exhausted (mkRequest None (Some "10.1.2.3") None) 3001).1.
Proof.
  refine (proj2 (X1_clients_are_isolated Sample.exhausted (mkRequest None None None)
                   (mkRequest None (Some "10.1.2.3") None) 3000 3001 _)).
  vm_compute. discriminate.
Defined.

Lemma checkLimit_lookup rl request now :
  requests (checkLimit rl request now).2 !! getClientIP request =
    Some match requests rl !! getClientIP request with
         | Some entry =>
             if now >? resetTime entry then mkEntry 1 (now + windowMs rl)
             else if count entry >=? maxRequests rl then entry
             else mkEntry (count entry + 1) (resetTime entry)
         | None => mkEntry 1 (now + windowMs rl)
         end.
Proof.
  unfold checkLimit.
  destruct (requests rl !! getClientIP request) as [entry|] eqn:E; simpl.
  - destruct (now >? resetTime entry); simpl; [apply lookup_insert_eq|].
    destruct (count entry >=? maxRequests rl); simpl; [done|].
    apply lookup_insert_eq.
  - apply lookup_insert_eq.
Qed.

(** ** The sweep *)

Lemma cleanup_lookup rl now (ip : string) :
  requests (cleanup rl now) !! ip =
    match requests rl !! ip with
    | Some entry => if now >? resetTime entry then None else Some entry
    | None => None
    end.
Proof.
  simpl. destruct (requests rl !! ip) as [entry|] eqn:E.
  - destruct (now >? resetTime entry) eqn:G.
    + apply map_lookup_filter_None. right. intros x Hx. simpl.
      rewrite E in Hx. injection Hx as <-. by rewrite G.
    + apply map_lookup_filter_Some. split; [done|]. simpl. by rewrite G.
  - apply map_lookup_filter_None. by left.
Qed.

(** X2. The periodic sweep drops exactly the windows whose reset time
    has passed and keeps the others as they are. A later check cannot
    tell whether the sweep has run: its answer is the same, and when the
    window length is not negative it leaves the same windows behind as
    the sweep would have left had it run after the check. *)
Theorem X2_cleanup_is_unobservable rl request (now now' : Z) :
  now <= now' ->
  (forall ip,
     requests (cleanup rl now) !! ip =
       match requests rl !! ip with
       | Some entry => if now >? resetTime entry then None else Some entry
       | None => None
       end) /\
  (checkLimit (cleanup rl now) request now').1 = (checkLimit rl request now').1 /\
  (0 <= windowMs rl ->
   requests (checkLimit (cleanup rl now) request now').2 =
   requests (cleanup (checkLimit rl request now').2 now)).
Proof.
  intros Hle. split_and!.
  - intros ip. apply cleanup_lookup.
  - unfold checkLimit.
    change (maxRequests (cleanup rl now)) with (maxRequests rl).
    change (windowMs (cleanup rl now)) with (windowMs rl).
    rewrite cleanup_lookup.
    destruct (requests rl !! getClientIP request) as [entry|] eqn:E; [|done].
    destruct (Z.gtb_spec now (resetTime entry)) as [Hexp|Hlive].
    + destruct (Z.gtb_spec now' (resetTime entry)); [done|lia].
    + destruct (now' >? resetTime entry); [done|].
      by destruct (count entry >=? maxRequests rl).
  - intros Hw. apply map_eq. intros ip. rewrite cleanup_lookup.
    destruct (decide (ip = getClientIP request)) as [->|Hne].
    2:{ rewrite !checkLimit_other by done. by rewrite cleanup_lookup. }
    rewrite !checkLimit_lookup, cleanup_lookup.
    change (maxRequests (cleanup rl now)) with (maxRequests rl).
    change (windowMs (cleanup rl now)) with (windowMs rl).
    destruct (requests rl !! getClientIP request) as [entry|] eqn:E.
    + destruct (Z.gtb_spec now (resetTime entry)) as [Hexp|Hlive].
      * destruct (Z.gtb_spec now' (resetTime entry)); [|lia]. simpl.
        destruct (Z.gtb_spec now (now' + windowMs rl)); [lia|done].
      * destruct (Z.gtb_spec now' (resetTime entry)); simpl.
        -- destruct (Z.gtb_spec now (now' + windowMs rl)); [lia|done].
        -- destruct (count entry >=? maxRequests rl); simpl;
             destruct (Z.gtb_spec now (resetTime entry)); (lia || done).
    + simpl. destruct (Z.gtb_spec now (now' + windowMs rl)); [lia|done].
Qed.

Lemma X2_cleanup_is_unobservable_witness :
  (checkLimit (cleanup Sample.exhausted 70000) (mkRequest None None None) 70001).1
  = (checkLimit Sample.exhausted (mkRequest None None None) 70001).1.
Proof.
  refine (proj1 (proj2 (X2_cleanup_is_unobservable Sample.exhausted
                          (mkRequest None None None) 70000 70001 _))).
  lia.
Defined.

(** ** Counts *)

Lemma reachable_counts (maxR window : Z) rl :
  reachable maxR window rl ->
  maxRequests rl = maxR /\ windowMs rl = window /\
  forall ip entry, requests rl !! ip = Some entry ->
    1 <= count entry /\ (1 <= maxR -> count entry <= maxR).
Proof.
  induction 1 as [|rl op _ (Hm & Hw & Hc)].
  - split_and!; [done|done|]. intros ip entry H. simpl in H.
    by rewrite lookup_empty in H.
  - destruct op as [request now|now]; simpl.
    + destruct (checkLimit_settings rl request now) as [Hm' Hw'].
      split_and!; [congruence|congruence|]. intros ip entry.
      destruct (decide (ip = getClientIP request)) as [->|Hne].
      * rewrite checkLimit_lookup. intros [= <-].
        destruct (requests rl !! getClientIP request) as [e|] eqn:E; [|simpl; lia].
        destruct (Hc _ _ E) as [H1 Hmax].
        destruct (now >? resetTime e); [simpl; lia|].
        destruct (Z.geb_spec (count e) (maxRequests rl)); [done|]. simpl. lia.
      * rewrite checkLimit_other by done. apply Hc.
    + split_and!; [done|done|]. intros ip entry H.
      apply map_lookup_filter_Some in H as [H _]. by apply (Hc ip).
Qed.

(** X3. In every state of a limiter constructed with a maximum of at
    least one request and a window length that is not negative, the
    stored count of every window lies between 1 and the maximum. So
    every answer of [checkLimit] reports between 0 and [max - 1]
    remaining requests, a denial reports 0, and the reset time it
    reports is not in the past. *)
Theorem X3_counts_and_remaining_in_range (maxR window : Z) rl request now :
  reachable maxR window rl -> 1 <= maxR -> 0 <= window ->
  (forall ip entry, requests rl !! ip = Some entry -> 1 <= count entry <= maxR) /\
  let r := (checkLimit rl request now).1 in
  0 <= remaining r <= maxR - 1 /\
  (allowed r = false -> remaining r = 0) /\
  now <= resetAt r.
Proof.
  intros Hr Hmax Hwin. destruct (reachable_counts maxR window rl Hr) as (Hm & Hw & Hc).
  split.
  - intros ip entry H. destruct (Hc ip entry H). lia.
  - unfold checkLimit. rewrite Hm, Hw.
    destruct (requests rl !! getClientIP request) as [e|] eqn:E; simpl; [|lia].
    destruct (Hc _ _ E) as [H1 H2].
    destruct (Z.gtb_spec now (resetTime e)); simpl; [lia|].
    destruct (Z.geb_spec (count e) maxR); simpl; lia.
Qed.

Lemma X3_counts_and_remaining_in_range_witness :
  0 <= remaining (checkLimit (exec rateLimiter (OpCheck (mkRequest None None None) 5))
                    (mkRequest None None None) 6).1 <= 9.
Proof.
  refine (proj1 (proj2 (X3_counts_and_remaining_in_range 10 60000
            (exec rateLimiter (OpCheck (mkRequest None None None) 5))
            (mkRequest None None None) 6 _ _ _))).
  - apply reachable_step. apply reachable_new.
  - lia.
  - lia.
Defined.

(** X4. The client is whoever the headers say, and a client without a
    window is allowed. A request is counted under its [cf-connecting-ip]
    header if that is not empty, whatever its other headers are; failing
    that under its [x-real-ip] header if that is not empty; failing that
    under the trimmed first element of its [x-forwarded-for] header; and
    under [unknown] if it has none of the three. And every request,
    whichever header identifies it, that is counted under a value
    without a window is allowed, with all but one of the maximum
    remaining, and opens a window for that value, whatever the limiter
    has seen before. *)
Theorem X4_unseen_header_value_is_allowed rl request now :
  (forall ip, cf_connecting_ip request = Some ip -> ip <> "" ->
     getClientIP request = ip) /\
  (forall ip, JS.truthy_opt (cf_connecting_ip request) = false ->
     x_real_ip request = Some ip -> ip <> "" -> getClientIP request = ip) /\
  (forall list, JS.truthy_opt (cf_connecting_ip request) = false ->
     JS.truthy_opt (x_real_ip request) = false ->
     x_forwarded_for request = Some list -> list <> "" ->
     getClientIP request = JS.trim (JS.beforeComma list)) /\
  (JS.truthy_opt (cf_connecting_ip request) = false ->
   JS.truthy_opt (x_real_ip request) = false ->
   JS.truthy_opt (x_forwarded_for request) = false ->
   getClientIP request = "unknown") /\
  (requests rl !! getClientIP request = None ->
   checkLimit rl request now =
     (mkResult true (maxRequests rl - 1) (now + windowMs rl),
      set_requests rl
        (<[getClientIP request := mkEntry 1 (now + windowMs rl)]> (requests rl)))).
Proof.
  assert (Ht : forall s : string, s <> "" -> JS.truthy s = true).
  { intros s Hs. unfold JS.truthy. by apply String.eqb_neq in Hs as ->. }
  split_and!.
  - unfold getClientIP. intros ip -> Hip. cbn [JS.truthy_opt default].
    by rewrite (Ht ip Hip).
  - unfold getClientIP. intros ip -> -> Hip. cbn [JS.truthy_opt default].
    by rewrite (Ht ip Hip).
  - unfold getClientIP. intros list -> -> -> Hl. cbn [JS.truthy_opt default].
    by rewrite (Ht list Hl).
  - unfold getClientIP. by intros -> -> ->.
  - intros Hnew. apply checkLimit_opens. unfold window_closed. by rewrite Hnew.
Qed.

Lemma X4_unseen_header_value_is_allowed_witness :
  allowed (checkLimit Sample.exhausted
             (mkRequest (Some "1.1.1.1") (Some "198.51.100.7") None) 3000).1 = true.
Proof.
  pose proof (proj2 (proj2 (proj2 (proj2
                (X4_unseen_header_value_is_allowed Sample.exhausted
                   (mkRequest (Some "1.1.1.1") (Some "198.51.100.7") None) 3000)))))
    as H.
  rewrite H; reflexivity.
Defined.

End RateLimiterFurther.

(* ===================================================================== *)
(** * Properties of the parameter clamping and of the URL validation *)
(* ===================================================================== *)

Section SecurityProperties.

Import Security.

(** ** Strings *)

Lemma trimStart_fixed (a : ascii) (r : string) :
  JS.is_space a = false -> JS.trimStart (String a r) = String a r.
Proof. intros H. simpl. by rewrite H. Qed.

Lemma trimStart_head (s : string) :
  JS.trimStart s = "" \/
  exists a r, JS.trimStart s = String a r /\ JS.is_space a = false.
Proof.
  induction s as [|a r IH]; simpl; [by left|].
  destruct (JS.is_space a) eqn:E; [done|]. right. by exists a, r.
Qed.

Lemma trimEnd_head (a : ascii) (r : string) :
  JS.is_space a = false -> exists r', JS.trimEnd (String a r) = String a r'.
Proof.
  intros H. cbn [JS.trimEnd]. destruct (JS.trimEnd r); [rewrite H|]; by eexists.
Qed.

Lemma trimEnd_idem (s : string) : JS.trimEnd (JS.trimEnd s) = JS.trimEnd s.
Proof.
  induction s as [|a r IH]; cbn [JS.trimEnd]; [done|].
  destruct (JS.trimEnd r) as [|b r'] eqn:E.
  - destruct (JS.is_space a) eqn:Ea; cbn [JS.trimEnd]; [done|]. by rewrite Ea.
  - cbn [JS.trimEnd]. cbn [JS.trimEnd] in IH.
    destruct (JS.trimEnd r') as [|c r''] eqn:E'.
    + destruct (JS.is_space b) eqn:Eb; [done|]. by injection IH as ->.
    + by rewrite IH.
Qed.

Lemma trim_idem (s : string) : JS.trim (JS.trim s) = JS.trim s.
Proof.
  unfold JS.trim. destruct (trimStart_head s) as [->|(a & r & -> & Ha)]; [done|].
  destruct (trimEnd_head a r Ha) as [r' Hr']. rewrite Hr'.
  rewrite (trimStart_fixed a r' Ha), <- Hr'. apply trimEnd_idem.
Qed.

Lemma toLowerCase_app (a b : string) :
  JS.toLowerCase (a +:+ b) = JS.toLowerCase a +:+ JS.toLowerCase b.
Proof.
  induction a as [|x a IH]; [done|].
  cbv [String.append]; fold String.append. simpl. by rewrite IH.
Qed.

Lemma prefix_app (p b : string) : String.prefix p (p +:+ b) = true.
Proof.
  induction p as [|x p IH]; [by destruct b|].
  cbv [String.append]; fold String.append. simpl.
  destruct (ascii_dec x x); [exact IH|done].
Qed.

Lemma includes_prefix (s p : string) :
  String.prefix p s = true -> JS.includes s p = true.
Proof. intros H. destruct s; cbn [JS.includes]; by rewrite H. Qed.

Lemma includes_app (a p b : string) : JS.includes (a +:+ p +:+ b) p = true.
Proof.
  induction a as [|x a IH].
  - change ("" +:+ p +:+ b) with (p +:+ b). apply includes_prefix, prefix_app.
  - cbv [String.append]; fold String.append. simpl. rewrite IH. apply orb_true_r.
Qed.

(** ** Clamping *)

Lemma Qc_ltb_false (a b : Qc) : Qc_ltb a b = false -> (b <= a)%Qc.
Proof.
  unfold Qc_ltb. intros H. apply Qcnot_lt_le. intros Hlt.
  pose proof (proj1 (Qclt_alt a b) Hlt) as E. by rewrite E in H.
Qed.

Lemma Qc_ltb_true (a b : Qc) : Qc_ltb a b = true -> (a < b)%Qc.
Proof.
  unfold Qc_ltb. intros H. apply Qclt_alt. by destruct (a ?= b)%Qc.
Qed.

Lemma zero_le_ten : (0 <= Q2Qc 10)%Qc.
Proof. apply Qcle_alt. vm_compute. discriminate. Qed.

Lemma clamp_delay_range (d : Float) : (0 <= clamp_delay d <= Q2Qc 10)%Qc.
Proof.
  destruct d as [| | |q]; cbn [clamp_delay].
  - split; [apply Qcle_refl | apply zero_le_ten].
  - split; [apply zero_le_ten | apply Qcle_refl].
  - split; [apply Qcle_refl | apply zero_le_ten].
  - cbv zeta. set (q0 := if Qc_eq_bool q 0 then 0%Qc else q).
    destruct (Qc_ltb q0 0) eqn:E0.
    + destruct (Qc_ltb (Q2Qc 10) 0) eqn:E1.
      * split; [apply zero_le_ten | apply Qcle_refl].
      * split; [apply Qcle_refl | apply zero_le_ten].
    + apply Qc_ltb_false in E0.
      destruct (Qc_ltb (Q2Qc 10) q0) eqn:E1.
      * split; [apply zero_le_ten | apply Qcle_refl].
      * apply Qc_ltb_false in E1. by split.
Qed.

(** X5. Whatever the request body holds, the sanitized parameters are
    within their bounds: the width between 320 and 3840, the height
    between 240 and 2160, the delay between 0 and 10 seconds; and the
    URL carries no white space at either end. *)
Theorem X5_sanitized_params_are_in_bounds (raw : RawParams) :
  let p := sanitizeScreenshotParams raw in
  320 <= width p <= 3840 /\
  240 <= height p <= 2160 /\
  (0 <= delay p <= Q2Qc 10)%Qc /\
  JS.trim (url p) = url p.
Proof.
  simpl. split_and!; try lia.
  - apply clamp_delay_range.
  - apply clamp_delay_range.
  - apply trim_idem.
Qed.

(** X6. Sanitizing keeps what is already acceptable and defaults the
    rest. A width or height inside its bounds is kept; a missing,
    unparsable or zero width becomes 1280 and such a height 800. A delay
    between 0 and 10 is kept and an unparsable one becomes 0. A format
    that, lower-cased, is one of the five names is kept, [jpg] in any
    letter case is [jpeg], and every other text is [png]. *)
Theorem X6_sanitize_keeps_valid_values (raw : RawParams) :
  let p := sanitizeScreenshotParams raw in
  (forall w, raw_width raw = Some w -> 320 <= w <= 3840 -> width p = w) /\
  (raw_width raw = None \/ raw_width raw = Some 0 -> width p = 1280) /\
  (forall h, raw_height raw = Some h -> 240 <= h <= 2160 -> height p = h) /\
  (raw_height raw = None \/ raw_height raw = Some 0 -> height p = 800) /\
  (forall q, raw_delay raw = Fin q -> (0 <= q <= Q2Qc 10)%Qc -> delay p = q) /\
  (raw_delay raw = NaN -> delay p = 0%Qc) /\
  (forall f, JS.toLowerCase (raw_format raw) = format_str f -> format p = f) /\
  (JS.toLowerCase (raw_format raw) = "jpg" -> format p = jpeg) /\
  ((forall f, JS.toLowerCase (raw_format raw) <> format_str f) ->
   JS.toLowerCase (raw_format raw) <> "jpg" -> format p = png).
Proof.
  simpl. split_and!.
  - intros w -> Hw. simpl. destruct (Z.eqb_spec w 0); lia.
  - intros [->| ->]; simpl; lia.
  - intros h -> Hh. simpl. destruct (Z.eqb_spec h 0); lia.
  - intros [->| ->]; simpl; lia.
  - intros q -> [Hlo Hhi]. simpl.
    assert (Hq0 : (if Qc_eq_bool q 0 then 0%Qc else q) = q).
    { destruct (Qc_eq_bool q 0) eqn:E; [|done]. symmetry. by apply Qc_eq_bool_correct. }
    rewrite Hq0.
    destruct (Qc_ltb q 0) eqn:E0.
    { apply Qc_ltb_true in E0. by apply Qcle_not_lt in Hlo. }
    destruct (Qc_ltb (Q2Qc 10) q) eqn:E1; [|done].
    apply Qc_ltb_true in E1. by apply Qcle_not_lt in Hhi.
  - by intros ->.
  - intros f ->. by destruct f.
  - by intros ->.
  - intros Hnone Hjpg.
    destruct (String.eqb_spec (JS.toLowerCase (raw_format raw)) "jpeg") as [E|_];
      [by destruct (Hnone jpeg)|].
    destruct (String.eqb_spec (JS.toLowerCase (raw_format raw)) "jpg") as [E|_];
      [done|].
    destruct (String.eqb_spec (JS.toLowerCase (raw_format raw)) "webp") as [E|_];
      [by destruct (Hnone webp)|].
    destruct (String.eqb_spec (JS.toLowerCase (raw_format raw)) "avif") as [E|_];
      [by destruct (Hnone avif)|].
    destruct (String.eqb_spec (JS.toLowerCase (raw_format raw)) "bmp") as [E|_];
      [by destruct (Hnone bmp)|].
    done.
Qed.

(** ** Blocked hosts *)

Lemma blocked_172_table (rest : string) :
  forallb (fun n : nat =>
             Bool.eqb
               (existsb (matches (JS.toLowerCase ("172." +:+ pretty n +:+ "." +:+ rest)))
                        blockedPatterns)
               (Nat.leb 16 n && Nat.leb n 31))
          (seq 0 256) = true.
Proof. vm_compute. reflexivity. Qed.

Lemma validateUrl_blocked parseURL (u : string) parsed :
  parseURL u = Some parsed ->
  existsb (matches (JS.toLowerCase (hostname parsed))) blockedPatterns = true ->
  valid (validateUrl parseURL u) = false.
Proof.
  intros Hp Hb. apply rejected_invalid. unfold rejected. rewrite Hp. right. by left.
Qed.

(** X7. Of the dotted hosts that begin with [172.], the blocked ones
    are exactly those whose second number is between 16 and 31, the
    private range: for a second number from 0 to 255, whatever follows
    it, the host matches a blocked pattern if and only if that number is
    in the range; and a URL with such a host is rejected. *)
Theorem X7_private_172_range_is_blocked_exactly (n : nat) (rest : string) :
  (n < 256)%nat ->
  let host := "172." +:+ pretty n +:+ "." +:+ rest in
  (existsb (matches (JS.toLowerCase host)) blockedPatterns = true
   <-> (16 <= n <= 31)%nat) /\
  ((16 <= n <= 31)%nat ->
   forall parseURL (u proto : string),
     parseURL u = Some (mkURL proto host) ->
     valid (validateUrl parseURL u) = false).
Proof.
  intros Hn host.
  pose proof (blocked_172_table rest) as Htab.
  rewrite forallb_forall in Htab.
  specialize (Htab n ltac:(apply in_seq; lia)). apply Bool.eqb_prop in Htab.
  fold host in Htab.
  assert (Hiff : existsb (matches (JS.toLowerCase host)) blockedPatterns = true
                 <-> (16 <= n <= 31)%nat).
  { rewrite Htab, andb_true_iff, !Nat.leb_le. done. }
  split; [done|]. intros Hrange parseURL u proto Hp.
  apply (validateUrl_blocked parseURL u _ Hp). simpl. by apply Hiff.
Qed.

Lemma X7_private_172_range_is_blocked_exactly_witness :
  valid (validateUrl Sample.parseURL "http://172.20.0.5/admin") = false.
Proof.
  refine (proj2 (X7_private_172_range_is_blocked_exactly 20 "0.5" _) _
            Sample.parseURL "http://172.20.0.5/admin" "http:" _).
  - lia.
  - lia.
  - reflexivity.
Defined.

(** X8. The shortener check is a substring check on the host. A URL
    whose host contains the text of one of the listed domains anywhere,
    in any letter case of the surrounding text, is rejected: so is, for
    one, every host that ends in [t.com], which contains [t.co]. *)
Theorem X8_host_containing_a_shortener_is_rejected parseURL
    (u proto before domain after : string) :
  In domain suspiciousDomains ->
  parseURL u = Some (mkURL proto (before +:+ domain +:+ after)) ->
  valid (validateUrl parseURL u) = false.
Proof.
  intros Hd Hp. apply rejected_invalid. unfold rejected. rewrite Hp. cbv zeta.
  right. right. left. apply existsb_exists. exists domain. split; [done|].
  cbn [hostname]. rewrite !toLowerCase_app.
  assert (Hlow : JS.toLowerCase domain = domain).
  { simpl in Hd. destruct Hd as [<-|[<-|[<-|[<-|[<-|[<-|[]]]]]]]; reflexivity. }
  rewrite Hlow. apply includes_app.
Qed.

Lemma X8_host_containing_a_shortener_is_rejected_witness :
  valid (validateUrl Sample.parseURL "https://www.microsoft.com/en-us") = false.
Proof.
  refine (X8_host_containing_a_shortener_is_rejected Sample.parseURL
            "https://www.microsoft.com/en-us" "https:" "www.microsof" "t.co" "m" _ _).
  - simpl. tauto.
  - reflexivity.
Defined.

(** X9. The pseudo-protocol check is a substring check on the whole
    text of the URL, letter case ignored. A URL whose text contains
    [javascript:], [data:], [vbscript:], [file:] or [ftp:] anywhere, in
    any letter case, is rejected, also when the text is in the path or
    the query of an HTTP URL, and whatever the parser makes of it. *)
Theorem X9_url_containing_a_pseudo_protocol_is_rejected parseURL
    (before word after : string) :
  In (JS.toLowerCase word) suspiciousPatterns ->
  valid (validateUrl parseURL (before +:+ word +:+ after)) = false.
Proof.
  intros Hw. apply rejected_invalid. unfold rejected.
  destruct (parseURL (before +:+ word +:+ after)); [|done]. cbv zeta.
  right. right. right. apply existsb_exists. exists (JS.toLowerCase word).
  split; [done|]. rewrite !toLowerCase_app. apply includes_app.
Qed.

Lemma X9_url_containing_a_pseudo_protocol_is_rejected_witness :
  valid (validateUrl Sample.parseURL "https://example.com/?next=Data:text") = false.
Proof.
  refine (X9_url_containing_a_pseudo_protocol_is_rejected Sample.parseURL
            "https://example.com/?next=" "Data:" "text" _).
  simpl. tauto.
Defined.

End SecurityProperties.

(* ===================================================================== *)
(** * Further properties of the fingerprint cache *)
(* ===================================================================== *)

Section CacheFurther.

Import Security Cache.

Implicit Types (c : Cache.t) (fs : gmap string JS.bytes) (io : IO).
Implicit Types (e : CacheEntry) (k : string).

(** ** Runs of [delete] *)

Lemma deleteAll_cons io k (keys : list string) c fs :
  deleteAll io (k :: keys) c fs =
    deleteAll io keys (delete io k c fs).1 (delete io k c fs).2.
Proof. unfold deleteAll. simpl. by destruct (delete io k c fs). Qed.



(** The files of the entries that stay are not touched. *)
Lemma deleteAll_keeps io (keys : list string) : forall c fs k e,
  wf c -> JSMap.get (cache (deleteAll io keys c fs).1) k = Some e ->
  JSMap.get (cache c) k = Some e /\
  (deleteAll io keys c fs).2 !! filePath e = fs !! filePath e.
Proof.
  induction keys as [|k0 keys IH]; intros c fs k e Hwf; [done|].
  rewrite deleteAll_cons. intros Hget.
  assert (Hwf1 : wf (delete io k0 c fs).1) by (rewrite delete_index; by apply wf_delete).
  destruct (IH _ _ k e Hwf1 Hget) as [Hget1 Hfs1].
  destruct (delete_keeps io k0 c fs k e Hwf Hget1) as [Hget0 Hfs0].
  split; [done|]. congruence.
Qed.









(** ** The sweep and the reset *)




(** ** The index and the disk *)

Lemma files_delete io k c fs :
  wf c -> files_present c fs ->
  files_present (delete io k c fs).1 (delete io k c fs).2.
Proof.
  intros Hwf Hf k' e' Hget.
  destruct (delete_keeps io k c fs k' e' Hwf Hget) as [Hget0 ->]. by eapply Hf.
Qed.

Lemma files_deleteAll io (keys : list string) c fs :
  wf c -> files_present c fs ->
  files_present (deleteAll io keys c fs).1 (deleteAll io keys c fs).2.
Proof.
  intros Hwf Hf k' e' Hget.
  destruct (deleteAll_keeps io keys c fs k' e' Hwf Hget) as [Hget0 ->]. by eapply Hf.
Qed.

Lemma files_touch c fs k e (now : Z) :
  files_present c fs -> JSMap.get (cache c) k = Some e ->
  files_present (set_cache c (JSMap.set (cache c) k (touch e now))) fs.
Proof.
  intros Hf Hget k' e'. simpl. destruct (decide (k = k')) as [<-|Hne].
  - rewrite get_set_eq. intros [= <-]. simpl. by eapply Hf.
  - rewrite get_set_ne by done. apply Hf.
Qed.

Section WithDigest.

Variable digest : NormalizedParams -> string.

Lemma files_get io c fs url params (now : Z) :
  bounded c -> files_present c fs ->
  files_present (get digest io c fs url params now).1.2
                (get digest io c fs url params now).2.
Proof.
  intros Hb Hf. unfold get.
  set (key := generateCacheKey digest url params).
  destruct (JSMap.get (cache c) key) as [e|] eqn:E; [|done].
  destruct (now - createdAt (metadata e) >? maxCacheAge c).
  - pose proof (files_delete io key c fs (proj1 Hb) Hf).
    by destruct (delete io key c fs).
  - pose proof (files_touch c fs key e now Hf E) as Hf1.
    destruct (readFile io fs (filePath e)); [done|].
    pose proof (files_delete io key _ fs (proj1 (bounded_touch c key e now Hb E)) Hf1).
    by destruct (delete io key _ fs).
Qed.

Lemma files_set io c fs url params buffer (now1 now2 : Z) :
  bounded c -> files_present c fs ->
  files_present (set digest io c fs url params buffer now1 now2).1
                (set digest io c fs url params buffer now1 now2).2.
Proof.
  intros (Hwf & Hmax & Htot) Hf. unfold set.
  set (key := generateCacheKey digest url params).
  set (path := getFilePath c key (formatOf params)).
  unfold writeFile. destruct (writeFile_fails io path); [done|].
  assert (Hf1 : files_present c (<[path := buffer]> fs)).
  { intros k e Hget. destruct (decide (path = filePath e)) as [<-|Hne].
    - rewrite lookup_insert_eq. by eexists.
    - rewrite lookup_insert_ne by done. by eapply Hf. }
  destruct (stat_size io (<[path := buffer]> fs) path) as [sz|] eqn:Hs; [|done].
  set (entry := mkCacheEntry key path _).
  set (c1 := set_cache c (JSMap.set (cache c) key entry)).
  assert (Hwf1 : wf c1).
  { apply wf_set; [done|]. split_and!; [done|done|]. simpl.
    by eapply stat_size_nonneg. }
  intros k e Hget.
  destruct (enforceSize_keeps io c1 _ k e Hwf1 Hget) as [Hget1 ->].
  subst c1. simpl in Hget1. destruct (decide (key = k)) as [<-|Hne].
  - rewrite get_set_eq in Hget1. injection Hget1 as <-. simpl.
    rewrite lookup_insert_eq. by eexists.
  - rewrite get_set_ne in Hget1 by done. by eapply Hf1.
Qed.

Lemma reachable_files st :
  reachable digest st -> files_present st.1 st.2.
Proof.
  induction 1 as [dir maxSize maxAge fs Hmax|st op Hr IH].
  - intros k e H. done.
  - pose proof (reachable_bounded digest st Hr) as Hb.
    destruct op; simpl.
    + by apply files_get.
    + by apply files_set.
    + apply files_deleteAll; [apply Hb | done].
    + apply files_deleteAll; [apply Hb | done].
Qed.

(** X12. As long as nothing but the cache changes its directory, the
    index never points at a missing file: in every state the cache
    goes through, whatever failures the disk has injected on the way,
    every entry of the index has its file on the disk. So a [get] for
    an indexed entry that has not expired misses only when the read
    itself fails. *)
Theorem X12_indexed_files_exist st :
  reachable digest st ->
  files_present st.1 st.2 /\
  forall io url params (now : Z) e,
    JSMap.get (cache st.1) (generateCacheKey digest url params) = Some e ->
    now - createdAt (metadata e) <= maxCacheAge st.1 ->
    readFile_fails io (filePath e) = false ->
    (get digest io st.1 st.2 url params now).1.1 = st.2 !! filePath e /\
    is_Some (get digest io st.1 st.2 url params now).1.1.
Proof.
  intros Hr. pose proof (reachable_files st Hr) as Hf. split; [done|].
  intros io url params now e Hget Hage Hrd.
  destruct (Hf _ _ Hget) as [buffer Hfile].
  unfold get. rewrite Hget.
  destruct (Z.gtb_spec (now - createdAt (metadata e)) (maxCacheAge st.1)); [lia|].
  unfold readFile. rewrite Hrd, Hfile. simpl. split; [done | by eexists].
Qed.

(** X13. [get] touches nothing but the entry it is asked for: the
    binding of every other key is as before, hit or miss. On a hit the
    disk is as before, the bytes are those of the entry's file, and in
    the index only the last-access time of the entry has changed: the
    keys, their order and the aggregate size are the same. *)
Theorem X13_get_touches_only_its_entry io c fs url params (now : Z) :
  let key := generateCacheKey digest url params in
  let r := get digest io c fs url params now in
  (forall k', k' <> key -> JSMap.get (cache r.1.2) k' = JSMap.get (cache c) k') /\
  (forall buffer, r.1.1 = Some buffer ->
     r.2 = fs /\
     exists e, JSMap.get (cache c) key = Some e /\
       fs !! filePath e = Some buffer /\
       JSMap.get (cache r.1.2) key = Some (touch e now) /\
       JSMap.keys (cache r.1.2) = JSMap.keys (cache c) /\
       totalSize r.1.2 = totalSize c).
Proof.
  intros key r. subst r. unfold get. fold key.
  destruct (JSMap.get (cache c) key) as [e|] eqn:E; [|done].
  destruct (now - createdAt (metadata e) >? maxCacheAge c).
  - pose proof (delete_index io key c fs) as Hd.
    destruct (delete io key c fs) as [c' fs']. simpl in *. subst c'.
    split; [|done]. intros k' Hne. simpl. by rewrite get_delete_ne.
  - destruct (readFile io fs (filePath e)) as [buffer|] eqn:R.
    + simpl. split.
      * intros k' Hne. by rewrite get_set_ne.
      * intros ? [= <-]. split; [done|]. exists e. split_and!; try done.
        -- unfold readFile in R. by destruct (readFile_fails io (filePath e)).
        -- apply get_set_eq.
        -- rewrite keys_set. rewrite bool_decide_eq_true_2; [done|].
           destruct (decide (key ∈ JSMap.keys (cache c))) as [|Hn]; [done|].
           apply get_None_keys in Hn. congruence.
        -- unfold totalSize. simpl. rewrite (sumSizes_set _ _ _ _ E). simpl. lia.
    + set (c1 := set_cache c _).
      pose proof (delete_index io key c1 fs) as Hd.
      destruct (delete io key c1 fs) as [c' fs']. simpl in *. subst c'.
      split; [|done]. intros k' Hne. simpl.
      rewrite get_delete_ne by done. by rewrite get_set_ne.
Qed.


End WithDigest.

Lemma X12_indexed_files_exist_witness :
  files_present
    (exec Sample.digest (Sample.emptyCache, ∅)
       (OpSet Sample.io_no_unlink "https://example.com" Sample.request
              Sample.bytes5 1 1)).1
    (exec Sample.digest (Sample.emptyCache, ∅)
       (OpSet Sample.io_no_unlink "https://example.com" Sample.request
              Sample.bytes5 1 1)).2.
Proof.
  refine (proj1 (X12_indexed_files_exist Sample.digest _ _)).
  apply reachable_step. apply reachable_new. vm_compute. discriminate.
Defined.

(** ** Statistics *)

Lemma minOf_spec (xs : list Z) (lo : Z) :
  minOf xs = Some lo -> lo ∈ xs /\ forall x, x ∈ xs -> lo <= x.
Proof.
  destruct xs as [|x0 r]; [done|]. simpl. intros [= <-].
  induction r as [|y r [IHin IHle]]; simpl.
  - split; [left|]. intros x Hx. apply list_elem_of_singleton in Hx. lia.
  - split.
    + destruct (Z.min_spec y (foldr Z.min x0 r)) as [[_ ->]|[_ ->]].
      * right. left.
      * apply elem_of_cons in IHin as [->|Hin]; [left | right; by right].
    + intros x Hx. apply elem_of_cons in Hx as [->|Hx].
      * specialize (IHle x0 ltac:(left)). lia.
      * apply elem_of_cons in Hx as [->|Hx]; [lia|].
        specialize (IHle x ltac:(by right)). lia.
Qed.

Lemma maxOf_spec (xs : list Z) (hi : Z) :
  maxOf xs = Some hi -> hi ∈ xs /\ forall x, x ∈ xs -> x <= hi.
Proof.
  destruct xs as [|x0 r]; [done|]. simpl. intros [= <-].
  induction r as [|y r [IHin IHle]]; simpl.
  - split; [left|]. intros x Hx. apply list_elem_of_singleton in Hx. lia.
  - split.
    + destruct (Z.max_spec y (foldr Z.max x0 r)) as [[_ ->]|[_ ->]].
      * apply elem_of_cons in IHin as [->|Hin]; [left | right; by right].
      * right. left.
    + intros x Hx. apply elem_of_cons in Hx as [->|Hx].
      * specialize (IHle x0 ltac:(left)). lia.
      * apply elem_of_cons in Hx as [->|Hx]; [lia|].
        specialize (IHle x ltac:(by right)). lia.
Qed.

(** X15. [getStats] counts the entries of the index and adds up their
    sizes. For an empty index it reports no oldest and no newest entry
    and a hit rate of 0. Otherwise the oldest and the newest creation
    time it reports are creation times of entries of the index, and the
    creation time of every entry lies between them; the hit rate it
    reports is then the constant 3/4, whatever the cache has served. *)
Theorem X15_stats_report_the_index c :
  let s := getStats c in
  totalEntries s = length (cache c) /\ s_totalSize s = totalSize c /\
  maxSize s = maxCacheSize c /\ maxAge s = maxCacheAge c /\
  (cache c = [] ->
     oldestEntry s = None /\ newestEntry s = None /\ hitRate s = 0%Qc) /\
  (cache c <> [] ->
     hitRate s = Q2Qc (3 # 4) /\
     exists lo hi eLo eHi,
       oldestEntry s = Some lo /\ newestEntry s = Some hi /\
       eLo ∈ JSMap.values (cache c) /\ createdAt (metadata eLo) = lo /\
       eHi ∈ JSMap.values (cache c) /\ createdAt (metadata eHi) = hi /\
       forall e, e ∈ JSMap.values (cache c) ->
         lo <= createdAt (metadata e) <= hi).
Proof.
  simpl. split_and!; try done.
  - unfold JSMap.values. by rewrite length_fmap.
  - intros H. unfold calculateHitRate. by rewrite H.
  - intros Hne. split; [unfold calculateHitRate; by destruct (cache c)|].
    set (times := (fun e => createdAt (metadata e)) <$> JSMap.values (cache c)).
    assert (Htimes : times <> []).
    { subst times. unfold JSMap.values. by destruct (cache c). }
    destruct (minOf times) as [lo|] eqn:Elo; [|by destruct times].
    destruct (maxOf times) as [hi|] eqn:Ehi; [|by destruct times].
    destruct (minOf_spec times lo Elo) as [Hlo_in Hlo].
    destruct (maxOf_spec times hi Ehi) as [Hhi_in Hhi].
    apply list_elem_of_fmap in Hlo_in as (eLo & -> & HeLo).
    apply list_elem_of_fmap in Hhi_in as (eHi & -> & HeHi).
    exists (createdAt (metadata eLo)), (createdAt (metadata eHi)), eLo, eHi.
    split_and!; try done.
    intros e He.
    assert (Hin : createdAt (metadata e) ∈ times)
      by (subst times; apply list_elem_of_fmap; by exists e).
    split; [by apply Hlo | by apply Hhi].
Qed.

End CacheFurther.

(* ===================================================================== *)
(** * Further properties of the job queue *)
(* ===================================================================== *)

Section JobQueueFurther.

Import Security JobQueue.

Implicit Types (q : JobQueue.t) (job : ScreenshotJob).

(** ** The retention sweep *)

(** X16. The retention sweep removes exactly the jobs whose completion
    time is set, is not 0 and lies more than an hour before the sweep;
    every other job stays as it is, and the queue and the worker are not
    touched. A job without completion time is never removed, however
    old it is: a job stuck in [processing] stays for ever. *)
Theorem X16_sweep_removes_only_old_completed_jobs q (now : Z) (jobId : string) :
  jobs (cleanup q now) !! jobId =
    match jobs q !! jobId with
    | Some job =>
        match completedAt job with
        | Some t => if negb (t =? 0) && (t <? now - 3600000) then None else Some job
        | None => Some job
        end
    | None => None
    end /\
  processingQueue (cleanup q now) = processingQueue q /\
  isProcessing (cleanup q now) = isProcessing q /\
  suspended (cleanup q now) = suspended q.
Proof.
  split; [|done]. simpl.
  destruct (jobs q !! jobId) as [job|] eqn:E.
  - assert (Hst : stale now job =
              match completedAt job with
              | Some t => negb (t =? 0) && (t <? now - 3600000)
              | None => false
              end) by done.
    destruct (stale now job) eqn:S.
    + rewrite map_lookup_filter_None_2.
      * destruct (completedAt job); [by rewrite <- Hst | done].
      * right. intros job' Hj. rewrite E in Hj. injection Hj as <-. simpl. by rewrite S.
    + rewrite (proj2 (map_lookup_filter_Some _ _ jobId job)) by (by split).
      destruct (completedAt job); [by rewrite <- Hst | done].
  - apply map_lookup_filter_None_2. by left.
Qed.

(** ** One worker, no job lost *)

Lemma Tracked_new : Tracked new.
Proof. split_and!; intros ?? H; simpl in H; by rewrite lookup_empty in H. Qed.

Lemma whileLoop_Tracked q :
  (forall jobId, jobId ∈ processingQueue q ->
     JS.truthy jobId = true /\
     exists job, jobs q !! jobId = Some job /\ status job = pending) ->
  NoDup (processingQueue q) ->
  (forall jobId job, jobs q !! jobId = Some job -> status job <> processing) ->
  (forall jobId job, jobs q !! jobId = Some job -> status job = pending ->
     jobId ∈ processingQueue q) ->
  (forall jobId job, jobs q !! jobId = Some job -> id job = jobId) ->
  Tracked (whileLoop q).
Proof.
  intros Hq Hnd Hnone Hpend Hid.
  destruct (processingQueue q) as [|id0 rest] eqn:E.
  - rewrite (whileLoop_nil q E). split_and!; simpl; [|done|done].
    intros jobId job Hj Hp. by destruct (Hnone _ _ Hj).
  - destruct (Hq id0 ltac:(left)) as (Ht & job0 & Hj0 & Hp0).
    rewrite (whileLoop_cons q id0 rest job0 E Ht Hj0).
    split_and!; simpl; intros jobId job;
      (destruct (decide (id0 = jobId)) as [<-|Hne];
       [rewrite lookup_insert_eq; intros [= <-] | rewrite lookup_insert_ne by done]).
    + done.
    + intros Hj Hp. by destruct (Hnone _ _ Hj).
    + done.
    + intros Hj Hp. specialize (Hpend _ _ Hj Hp).
      apply elem_of_cons in Hpend as [?|?]; [congruence | done].
    + simpl. by apply Hid.
    + apply Hid.
Qed.

Lemma Tracked_register q p (now_id : Z) (random : string) (now : Z) :
  Inv q -> Tracked q -> jobs q !! generateJobId now_id random = None ->
  Tracked (register q p (generateJobId now_id random) now).
Proof.
  intros (Hq & Hnd & Hs & Hc) (T1 & T2 & T3) Hfresh.
  split_and!; simpl; intros jobId job;
    (destruct (decide (generateJobId now_id random = jobId)) as [<-|Hne];
     [rewrite lookup_insert_eq; intros [= <-] | rewrite lookup_insert_ne by done]);
    try done.
  - apply T1.
  - intros _. apply elem_of_app. right. left.
  - intros Hj Hp. apply elem_of_app. left. by eapply T2.
  - apply T3.
Qed.

Lemma Tracked_processQueue q : Inv q -> Tracked q -> Tracked (processQueue q).
Proof.
  intros (Hq & Hnd & Hs & Hc) (T1 & T2 & T3). unfold processQueue.
  destruct (isProcessing q) eqn:E; [done|].
  apply whileLoop_Tracked; simpl; try done.
  intros jobId job Hj Hp. rewrite (T1 _ _ Hj Hp) in Hs.
  destruct Hs as (_ & _ & ?). congruence.
Qed.

Lemma Tracked_resume base64 q o (now : Z) (iso : string) :
  Inv q -> Tracked q -> Tracked (resume base64 q o now iso).
Proof.
  intros HI HT. unfold resume.
  destruct (suspended q) as [[sid sj]|] eqn:E; [|done].
  destruct HI as (Hq & Hnd & Hs & Hc). destruct HT as (T1 & T2 & T3).
  rewrite E in Hs. destruct Hs as (Hsj & Hproc & Hp).
  destruct (settle_terminal base64 sj o now iso) as [Hterm Hat].
  apply whileLoop_Tracked; simpl; try done.
  - intros jobId Hin. destruct (Hq jobId Hin) as (? & j & Hj & Hpend).
    split; [done|]. exists j. split; [|done].
    rewrite lookup_insert_ne; [done|]. intros ->. congruence.
  - intros jobId job. destruct (decide (sid = jobId)) as [<-|Hne].
    + rewrite lookup_insert_eq. intros [= <-] Hcontra. by rewrite Hcontra in Hterm.
    + rewrite lookup_insert_ne by done. intros Hj Hcontra.
      specialize (T1 _ _ Hj Hcontra). congruence.
  - intros jobId job. destruct (decide (sid = jobId)) as [<-|Hne].
    + rewrite lookup_insert_eq. intros [= <-] Hcontra. by rewrite Hcontra in Hterm.
    + rewrite lookup_insert_ne by done. apply T2.
  - intros jobId job. destruct (decide (sid = jobId)) as [<-|Hne].
    + rewrite lookup_insert_eq. intros [= <-]. destruct o; simpl; by apply T3.
    + rewrite lookup_insert_ne by done. apply T3.
Qed.

Lemma Tracked_cleanup q (now : Z) : Tracked q -> Tracked (cleanup q now).
Proof.
  intros (T1 & T2 & T3).
  split_and!; simpl; intros jobId job Hj;
    apply map_lookup_filter_Some in Hj as [Hj _]; eauto.
Qed.

Lemma reachable_Tracked base64 q : reachable base64 q -> Tracked q.
Proof.
  induction 1 as [|q ev Hr IH Hen]; [apply Tracked_new|].
  pose proof (reachable_Inv base64 q Hr) as HI.
  destruct ev; simpl in *.
  - by apply Tracked_register.
  - by apply Tracked_processQueue.
  - by apply Tracked_resume.
  - by apply Tracked_cleanup.
Qed.

(** X17. There is one worker and no job is lost. In every state the
    scheduler can reach, with job identifiers drawn fresh, a job in
    status [processing] is the one job the worker is suspended on, so
    that no two jobs are being processed at once; a job in status
    [pending] is in the queue; and every job is stored under the
    identifier it carries. *)
Theorem X17_one_worker_and_no_job_lost base64 q :
  reachable base64 q ->
  (forall id1 id2 job1 job2,
     jobs q !! id1 = Some job1 -> jobs q !! id2 = Some job2 ->
     status job1 = processing -> status job2 = processing -> id1 = id2) /\
  (forall jobId job, jobs q !! jobId = Some job -> status job = processing ->
     suspended q = Some (jobId, job) /\ isProcessing q = true) /\
  (forall jobId job, jobs q !! jobId = Some job -> status job = pending ->
     jobId ∈ processingQueue q) /\
  (forall jobId job, jobs q !! jobId = Some job -> id job = jobId).
Proof.
  intros Hr. destruct (reachable_Tracked base64 q Hr) as (T1 & T2 & T3).
  destruct (reachable_Inv base64 q Hr) as (_ & _ & Hs & _).
  split_and!; try done.
  - intros id1 id2 job1 job2 H1 H2 P1 P2.
    pose proof (T1 _ _ H1 P1) as E1. pose proof (T1 _ _ H2 P2) as E2. congruence.
  - intros jobId job Hj Hp. pose proof (T1 _ _ Hj Hp) as E. split; [done|].
    rewrite E in Hs. apply Hs.
Qed.

Lemma X17_one_worker_and_no_job_lost_witness :
  "job_1_a" ∈ processingQueue (exec Sample.base64 new (Register Sample.request 1 "a" 5)).
Proof.
  refine (proj1 (proj2 (proj2 (X17_one_worker_and_no_job_lost Sample.base64 _ _)))
            "job_1_a" (mkJob "job_1_a" pending Sample.request None None 5 None) _ _).
  - apply reachable_step; [apply reachable_new | reflexivity].
  - reflexivity.
  - reflexivity.
Defined.

(** ** The scheduler as its callers drive it *)

Lemma createJob_rejected_state parseURL q raw (now_id : Z) (random : string) (now : Z) :
  c_error (createJob parseURL q raw now_id random now).1 <> None ->
  (createJob parseURL q raw now_id random now).2 = q.
Proof.
  unfold createJob.
  destruct (valid (validateUrl parseURL (url_text (raw_url raw)))); cbn [negb]; [|done].
  destruct (JS.truthy (url (sanitizeScreenshotParams raw))); cbn [negb]; done.
Qed.

Lemma createJob_accepted_id parseURL q raw (now_id : Z) (random : string) (now : Z) :
  c_error (createJob parseURL q raw now_id random now).1 = None ->
  jobId (createJob parseURL q raw now_id random now).1 = generateJobId now_id random.
Proof.
  unfold createJob.
  destruct (validateUrl parseURL (url_text (raw_url raw))) as [[] err] eqn:V;
    cbn [valid negb Security.error].
  2:{ simpl. intros ->. pose proof (validateUrl_error parseURL (url_text (raw_url raw))) as H.
      rewrite V in H. by destruct (H eq_refl). }
  destruct (JS.truthy (url (sanitizeScreenshotParams raw))); cbn [negb]; done.
Qed.

Lemma served_reachable parseURL base64 q :
  served parseURL base64 q -> reachable base64 q.
Proof.
  induction 1 as [|q c _ IH Hok]; [apply reachable_new|].
  destruct c as [raw now_id random now|o now iso|now]; simpl in *.
  - destruct (c_error (createJob parseURL q raw now_id random now).1) eqn:E.
    + rewrite createJob_rejected_state; [done | congruence].
    + rewrite (createJob_accepted base64) by done.
      apply reachable_step; [|done]. by apply reachable_step.
  - by apply (reachable_step base64 q (Resume o now iso)).
  - by apply (reachable_step base64 q (Cleanup now)).
Qed.

Lemma loopHead_None (queue : list string) : forall jobs0,
  (loopHead jobs0 queue).2 = None -> (loopHead jobs0 queue).1.2 = [].
Proof.
  induction queue as [|jobId rest IH]; intros jobs0; simpl; [done|].
  destruct (negb (JS.truthy jobId)); [apply IH|].
  destruct (jobs0 !! jobId); [done | apply IH].
Qed.

Lemma whileLoop_idle q :
  isProcessing q = true -> isProcessing (whileLoop q) = false ->
  processingQueue (whileLoop q) = [].
Proof.
  intros Hp. unfold whileLoop.
  pose proof (loopHead_None (processingQueue q) (jobs q)) as H.
  destruct (loopHead (jobs q) (processingQueue q)) as [[jobs' queue'] [w|]]; simpl in *.
  - congruence.
  - intros _. by apply H.
Qed.

Lemma served_idle parseURL base64 q :
  served parseURL base64 q -> isProcessing q = false -> processingQueue q = [].
Proof.
  induction 1 as [|q c Hs IH Hok]; [done|].
  pose proof (reachable_Inv base64 q (served_reachable parseURL base64 q Hs))
    as (_ & _ & Hsus & _).
  destruct c as [raw now_id random now|o now iso|now]; simpl in *.
  - destruct (c_error (createJob parseURL q raw now_id random now).1) eqn:E.
    + rewrite createJob_rejected_state; [done | congruence].
    + rewrite (createJob_accepted base64) by done. cbn [exec].
      unfold processQueue. cbn [register isProcessing jobs processingQueue suspended].
      destruct (isProcessing q) eqn:Ep; [simpl; congruence|].
      by apply whileLoop_idle.
  - unfold resume. destruct (suspended q) as [[sid sj]|]; [|done].
    destruct Hsus as (_ & _ & Hp). apply whileLoop_idle. simpl. exact Hp.
  - exact IH.
Qed.

(** X18. The worker goes idle only when nothing is left to do. In every
    state the scheduler is in between two calls ([createJob], the
    resumption of the worker, the retention sweep), with job identifiers
    drawn fresh: if [isProcessing] is cleared then the queue is empty,
    the worker is not suspended on a job, and every job of the scheduler
    is [completed] or [failed]. *)
Theorem X18_idle_means_drained parseURL base64 q :
  served parseURL base64 q ->
  isProcessing q = false ->
  processingQueue q = [] /\ suspended q = None /\
  forall jobId job, jobs q !! jobId = Some job -> terminal (status job) = true.
Proof.
  intros Hs Hidle.
  pose proof (served_reachable parseURL base64 q Hs) as Hr.
  pose proof (served_idle parseURL base64 q Hs Hidle) as Hq.
  destruct (reachable_Inv base64 q Hr) as (_ & _ & Hsus & _).
  destruct (reachable_Tracked base64 q Hr) as (T1 & T2 & _).
  assert (Hnone : suspended q = None).
  { destruct (suspended q) as [[? ?]|]; [|done]. destruct Hsus as (_ & _ & ?). congruence. }
  split_and!; [done|done|].
  intros jobId job Hj. destruct (status job) eqn:E; try done.
  - specialize (T2 _ _ Hj E). rewrite Hq in T2. by apply elem_of_nil in T2.
  - specialize (T1 _ _ Hj E). congruence.
Qed.

Lemma X18_idle_means_drained_witness :
  processingQueue
    (call Sample.parseURL Sample.base64
       (call Sample.parseURL Sample.base64 new
          (CallCreate (Sample.raw "https://example.com") 1 "a" 5))
       (CallResume (Done Sample.bytes5 false) 50 "2026-01-01T00:00:00.000Z")) = [].
Proof.
  refine (proj1 (X18_idle_means_drained Sample.parseURL Sample.base64 _ _ _)).
  - apply served_call.
    + apply served_call; [apply served_new | reflexivity].
    + vm_compute. discriminate.
  - reflexivity.
Defined.

(** X19. An accepted [createJob], called between two turns of the event
    loop with a fresh identifier, answers with the identifier it has
    generated and stores under it a job with the sanitized parameters,
    the creation time of the call, no result, no error and no completion
    time. When the worker is busy the job is [pending] at the end of the
    queue; when the worker is idle the job is [processing] by the time
    [createJob] returns and the queue is empty. Either way the worker is
    busy afterwards, and no other job has changed. *)
Theorem X19_accepted_job_is_registered parseURL base64 q raw
    (now_id : Z) (random : string) (now : Z) :
  served parseURL base64 q ->
  jobs q !! generateJobId now_id random = None ->
  c_error (createJob parseURL q raw now_id random now).1 = None ->
  let r := createJob parseURL q raw now_id random now in
  let newId := generateJobId now_id random in
  jobId r.1 = newId /\
  getJob r.2 newId =
    Some (mkJob newId (if isProcessing q then pending else processing)
                (sanitizeScreenshotParams raw) None None now None) /\
  isProcessing r.2 = true /\
  processingQueue r.2 =
    (if isProcessing q then (processingQueue q ++ [newId])%list else []) /\
  (forall other, other <> newId -> getJob r.2 other = getJob q other).
Proof.
  intros Hs Hfresh Hacc r newId. subst r.
  split; [by apply createJob_accepted_id|].
  rewrite (createJob_accepted base64) by done. cbn [exec]. fold newId.
  unfold processQueue, getJob.
  cbn [register isProcessing jobs processingQueue suspended].
  destruct (isProcessing q) eqn:Ep.
  - simpl. split_and!; try done.
    + apply lookup_insert_eq.
    + intros other Hne. by rewrite lookup_insert_ne.
  - rewrite (served_idle parseURL base64 q Hs Ep). cbn [app].
    set (job := mkJob newId pending (sanitizeScreenshotParams raw) None None now None).
    rewrite (whileLoop_cons _ newId [] job);
      [|done|apply generateJobId_truthy|apply lookup_insert_eq].
    simpl. split_and!; try done.
    + apply lookup_insert_eq.
    + intros other Hne. by rewrite !lookup_insert_ne.
Qed.

Lemma X19_accepted_job_is_registered_witness :
  status <$> getJob (createJob Sample.parseURL new (Sample.raw "https://example.com")
                       1 "a" 5).2 "job_1_a" = Some processing.
Proof.
  pose proof (X19_accepted_job_is_registered Sample.parseURL Sample.base64 new
                (Sample.raw "https://example.com") 1 "a" 5) as H.
  destruct H as (_ & H & _).
  - apply served_new.
  - reflexivity.
  - reflexivity.
  - change (generateJobId 1 "a") with "job_1_a" in H. rewrite H. reflexivity.
Defined.



(** ** Identifiers *)

Lemma includes_cons_false (a : ascii) (s p : string) :
  JS.includes (String a s) p = false -> JS.includes s p = false.
Proof. cbn [JS.includes]. intros H. by apply orb_false_elim in H as [_ H]. Qed.

Lemma pretty_N_go_no_underscore (x : N) : forall s,
  JS.includes s "_" = false -> JS.includes (pretty_N_go x s) "_" = false.
Proof.
  induction (N.lt_wf_0 x) as [x _ IH]; intros s Hs.
  assert (x = 0 \/ 0 < x)%N as [->|Hpos] by lia.
  - by rewrite pretty_N_go_0.
  - rewrite pretty_N_go_step by done. apply IH; [by apply N.div_lt|].
    unfold pretty_N_char. repeat case_match; cbn [JS.includes]; by rewrite Hs.
Qed.

Lemma pretty_Z_no_underscore (z : Z) : JS.includes (pretty z) "_" = false.
Proof.
  destruct z as [|p|p]; unfold pretty, pretty_Z; [done| |].
  - unfold pretty, pretty_positive, pretty, pretty_N.
    case_decide; [done|]. by apply pretty_N_go_no_underscore.
  - unfold pretty, pretty_positive, pretty, pretty_N.
    cbv [String.append]; fold String.append. cbn [JS.includes].
    case_decide; [done|]. simpl. by apply pretty_N_go_no_underscore.
Qed.

Lemma underscore_split (a1 : string) : forall a2 r1 r2,
  JS.includes a1 "_" = false -> JS.includes a2 "_" = false ->
  a1 +:+ String "_" r1 = a2 +:+ String "_" r2 -> a1 = a2 /\ r1 = r2.
Proof.
  induction a1 as [|c a1 IH]; intros [|c2 a2] r1 r2 H1 H2 H;
    cbv [String.append] in H; fold String.append in H.
  - by injection H as ->.
  - injection H as <- _. cbn [JS.includes] in H2. by destruct a2.
  - injection H as -> _. cbn [JS.includes] in H1. by destruct a1.
  - injection H as -> H.
    destruct (IH a2 r1 r2 (includes_cons_false _ _ _ H1)
                (includes_cons_false _ _ _ H2) H) as [-> ->]. done.
Qed.

(** X21. Two identifiers are equal only when they were generated at the
    same reading of the clock with the same random part: the text
    [job_<time>_<random>] determines both. *)
Theorem X21_job_identifiers_determine_their_inputs (now1 now2 : Z) (random1 random2 : string) :
  generateJobId now1 random1 = generateJobId now2 random2 ->
  now1 = now2 /\ random1 = random2.
Proof.
  unfold generateJobId. intros H.
  apply (inj (String.append "job_")) in H.
  change ("_" +:+ random1) with (String "_" random1) in H.
  change ("_" +:+ random2) with (String "_" random2) in H.
  destruct (underscore_split _ _ _ _ (pretty_Z_no_underscore now1)
              (pretty_Z_no_underscore now2) H) as [Hn Hr].
  split; [by apply (inj pretty) | done].
Qed.

Lemma X21_job_identifiers_determine_their_inputs_witness :
  1700000000000 = 1700000000000 /\ "k3j9x0q1z" = "k3j9x0q1z".
Proof.
  apply (X21_job_identifiers_determine_their_inputs 1700000000000 1700000000000
           "k3j9x0q1z" "k3j9x0q1z").
  reflexivity.
Defined.

(** ** The body of a job *)

(** X22. A job fails only when the cache misses and all three captures
    fail. On a cache hit the browser is not called and the job completes
    from the cache. On a miss, a capture that succeeds at the first,
    second or third attempt completes the job, whatever the disk does
    when the bytes are stored: a failure of the store never fails the
    job. And a job that fails leaves the cache as the lookup left it. *)
Theorem X22_job_fails_only_when_all_captures_fail digest attempt env job cm fs :
  let p := params job in
  let looked := Cache.get digest (io_get env) cm fs (url p) p (now_get env) in
  let r := runJob digest attempt env job cm fs in
  (forall buffer, looked.1.1 = Some buffer -> r.1.1 = (Done buffer true, [])) /\
  ((exists e, r.1.1.1 = Threw e) <->
     looked.1.1 = None /\ forall n : nat, (n < 3)%nat -> exists e, attempt n = inr e) /\
  (forall e, r.1.1.1 = Threw e -> r.1.2 = looked.1.2 /\ r.2 = looked.2).
Proof.
  intros p looked r. subst r looked. unfold runJob. fold p.
  change (S maxRetries) with 3%nat. rewrite retryLoop_three.
  destruct (Cache.get digest (io_get env) cm fs (url p) p (now_get env))
    as [[[buffer|] cm1] fs1]; cbn [fst snd].
  { split_and!.
    - by intros ? [= <-].
    - split; [by intros [e ?] | by intros [? _]].
    - done. }
  assert (Hcases :
    (exists b, attempt 0%nat = inl b) \/ (exists e0 b, attempt 0%nat = inr e0 /\ attempt 1%nat = inl b) \/
    (exists e0 e1 b, attempt 0%nat = inr e0 /\ attempt 1%nat = inr e1 /\ attempt 2%nat = inl b) \/
    (exists e0 e1 e2, attempt 0%nat = inr e0 /\ attempt 1%nat = inr e1 /\ attempt 2%nat = inr e2)).
  { destruct (attempt 0%nat); [left; by eexists|].
    destruct (attempt 1%nat); [right; left; by do 2 eexists|].
    destruct (attempt 2%nat); [right; right; left; by do 3 eexists|].
    right; right; right; by do 3 eexists. }
  destruct Hcases as [(b & E0)|[(e0 & b & E0 & E1)|[(e0 & e1 & b & E0 & E1 & E2)
                                                   |(e0 & e1 & e2 & E0 & E1 & E2)]]];
    rewrite ?E0, ?E1, ?E2; try destruct (Cache.set _ _ _ _ _ _ _ _ _); cbn [fst snd].
  - split_and!; [done| |done]. split; [by intros [? ?]|].
    intros [_ H]. destruct (H 0%nat ltac:(lia)) as [? ?]. congruence.
  - split_and!; [done| |done]. split; [by intros [? ?]|].
    intros [_ H]. destruct (H 1%nat ltac:(lia)) as [? ?]. congruence.
  - split_and!; [done| |done]. split; [by intros [? ?]|].
    intros [_ H]. destruct (H 2%nat ltac:(lia)) as [? ?]. congruence.
  - split_and!; [done| |done]. split; [|by eexists].
    intros _. split; [done|]. intros n Hn.
    assert (n = 0 \/ n = 1 \/ n = 2)%nat as [->|[->| ->]] by lia; by eexists.
Qed.

Lemma get_settings digest io c fs u p (now : Z) :
  Cache.cacheDir (Cache.get digest io c fs u p now).1.2 = Cache.cacheDir c /\
  Cache.maxCacheAge (Cache.get digest io c fs u p now).1.2 = Cache.maxCacheAge c.
Proof.
  unfold Cache.get.
  destruct (JSMap.get _ _) as [e|]; [|done].
  destruct (_ >? _).
  - pose proof (delete_index io (Cache.generateCacheKey digest u p) c fs) as Hd.
    destruct (Cache.delete io _ c fs). simpl in *. by subst.
  - destruct (Cache.readFile io fs (Cache.filePath e)); [done|].
    pose proof (delete_index io (Cache.generateCacheKey digest u p)
                  (Cache.set_cache c (JSMap.set (Cache.cache c)
                     (Cache.generateCacheKey digest u p) (Cache.touch e now))) fs) as Hd.
    destruct (Cache.delete io _ _ fs). simpl in *. by subst.
Qed.

(** What a successful [set] leaves for the next [get]. *)
Lemma set_then_get digest io_set io_get c fs u p u' p' (buffer : JS.bytes)
    (now1 now2 now : Z) :
  Cache.wf c ->
  Cache.spec_normal_form u' p' = Cache.spec_normal_form u p ->
  let key := Cache.generateCacheKey digest u p in
  let path := Cache.getFilePath c key (Cache.formatOf p) in
  let s := Cache.set digest io_set c fs u p buffer now1 now2 in
  Cache.writeFile_fails io_set path = false ->
  Cache.stat_fails io_set path = false ->
  JSMap.get (Cache.cache s.1) key <> None ->
  now - now1 <= Cache.maxCacheAge c ->
  Cache.readFile_fails io_get path = false ->
  (Cache.get digest io_get s.1 s.2 u' p' now).1.1 = Some buffer.
Proof.
  intros Hwf Hnf key path s Hw Hst Hkept Hage Hrd.
  set (fs1 := <[path := buffer]> fs).
  set (sz := Z.of_nat (length buffer)).
  assert (Hwrite : Cache.writeFile io_set fs path buffer = Some fs1)
    by (unfold Cache.writeFile; by rewrite Hw).
  assert (Hstat : Cache.stat_size io_set fs1 path = Some sz).
  { unfold Cache.stat_size. rewrite Hst. subst fs1. by rewrite lookup_insert_eq. }
  set (entry := Cache.mkCacheEntry key path
                  (Cache.mkMeta u p (Cache.formatOf p) now1 now2 sz)).
  set (c1 := Cache.set_cache c (JSMap.set (Cache.cache c) key entry)).
  assert (Hs : s = Cache.enforceSize io_set c1 fs1)
    by (subst s; by rewrite (set_success digest io_set c fs u p buffer
                               now1 now2 fs1 sz Hwrite Hstat)).
  assert (Hwf1 : Cache.wf c1).
  { apply wf_set; [done|]. split_and!; [done|done|]. simpl. subst sz. lia. }
  destruct (JSMap.get (Cache.cache s.1) key) as [e|] eqn:Hget; [clear Hkept|done].
  rewrite Hs in Hget.
  destruct (enforceSize_keeps io_set c1 fs1 key e Hwf1 Hget) as [Hget1 Hfile].
  assert (He : e = entry).
  { subst c1. simpl in Hget1. rewrite get_set_eq in Hget1. congruence. }
  subst e.
  assert (Hage' : Cache.maxCacheAge s.1 = Cache.maxCacheAge c).
  { rewrite Hs. assert (Hm := enforceSize_age io_set c1 fs1). by rewrite Hm. }
  unfold Cache.get.
  rewrite (same_normal_form_key digest _ _ _ _ Hnf). fold key.
  rewrite <- Hs in Hget. rewrite Hget. simpl.
  rewrite Hage'. destruct (Z.gtb_spec (now - now1) (Cache.maxCacheAge c)); [lia|].
  unfold Cache.readFile. rewrite Hrd.
  rewrite <- Hs in Hfile. simpl in Hfile. rewrite Hfile.
  subst fs1. by rewrite lookup_insert_eq.
Qed.

(** X23. What one job captures, the next job finds. Let a job miss the
    cache and complete with captured bytes, with the write and the
    [stat] of the store succeeding and the new entry not evicted by the
    size enforcement. Then a job that follows, for a request of the same
    normal form, made while the entry is no older than the maximum age
    and with the read succeeding, completes with the same bytes from the
    cache and the browser is not called for it. *)
Theorem X23_next_job_is_served_from_the_cache digest attempt env job cm fs
    (buffer : JS.bytes) attempt2 env2 job2 :
  Cache.bounded cm ->
  let p := params job in
  let key := Cache.generateCacheKey digest (url p) p in
  let path := Cache.getFilePath cm key (Cache.formatOf p) in
  let r := runJob digest attempt env job cm fs in
  r.1.1.1 = Done buffer false ->
  Cache.writeFile_fails (io_set env) path = false ->
  Cache.stat_fails (io_set env) path = false ->
  JSMap.get (Cache.cache r.1.2) key <> None ->
  Cache.spec_normal_form (url (params job2)) (params job2)
    = Cache.spec_normal_form (url p) p ->
  now_get env2 - now_created env <= Cache.maxCacheAge cm ->
  Cache.readFile_fails (io_get env2) path = false ->
  (runJob digest attempt2 env2 job2 r.1.2 r.2).1.1 = (Done buffer true, []).
Proof.
  intros Hb p key path r Hdone Hw Hst Hkept Hnf Hage Hrd.
  pose proof (bounded_get digest (io_get env) cm fs (url p) p (now_get env) Hb) as Hb1.
  destruct (get_settings digest (io_get env) cm fs (url p) p (now_get env)) as [Hdir Hmax].
  subst r. unfold runJob in Hdone, Hkept |- *. fold p in Hdone, Hkept |- *.
  destruct (Cache.get digest (io_get env) cm fs (url p) p (now_get env))
    as [[[hit|] cm1] fs1]; cbn [fst snd] in Hdone, Hkept, Hb1, Hdir, Hmax; [done|].
  assert (Hpath : Cache.getFilePath cm1 key (Cache.formatOf p) = path)
    by (unfold path, Cache.getFilePath; by rewrite Hdir).
  destruct (retryLoop attempt (S maxRetries) p 0) as [[b|e| |] effects].
  2-4: cbn [fst snd] in Hdone; discriminate.
  pose proof (set_then_get digest (io_set env) (io_get env2) cm1 fs1 (url p) p
                (url (params job2)) (params job2) b (now_created env)
                (now_accessed env) (now_get env2) (proj1 Hb1) Hnf) as Hget.
  cbv zeta in Hget. fold key in Hget. rewrite Hpath, Hmax in Hget.
  destruct (Cache.set digest (io_set env) cm1 fs1 (url p) p b
              (now_created env) (now_accessed env)) as [cm2 fs2].
  simpl in Hdone, Hkept, Hget |- *. injection Hdone as ->.
  specialize (Hget Hw Hst Hkept Hage Hrd).
  destruct (Cache.get digest (io_get env2) cm2 fs2 (url (params job2)) (params job2)
              (now_get env2)) as [[s2 cm3] fs3].
  simpl in Hget. by subst s2.
Qed.

Lemma X23_next_job_is_served_from_the_cache_witness :
  let r := runJob Sample.digest Sample.secondTime Sample.env Sample.job
             Sample.emptyCache ∅ in
  (runJob Sample.digest Sample.timesOut Sample.env Sample.job r.1.2 r.2).1.1
  = (Done Sample.bytes5 true, []).
Proof.
  intros r.
  refine (X23_next_job_is_served_from_the_cache Sample.digest Sample.secondTime
            Sample.env Sample.job Sample.emptyCache ∅ Sample.bytes5 Sample.timesOut
            Sample.env Sample.job _ _ _ _ _ _ _ _).
  - split_and!; [split; constructor | vm_compute; discriminate | vm_compute; discriminate].
  - reflexivity.
  - reflexivity.
  - reflexivity.
  - vm_compute. discriminate.
  - reflexivity.
  - vm_compute. discriminate.
  - reflexivity.
Defined.

(** ** The figures of [getQueueStats] *)

Lemma count_fmap {A B} (f : A -> B) (P : B -> Prop) `{!forall y, Decision (P y)}
    (l : list A) :
  length (filter P (f <$> l)) = length (filter (fun x => P (f x)) l).
Proof.
  induction l as [|x l IH]; [done|].
  rewrite fmap_cons, !filter_cons. case_decide; simpl; by rewrite IH.
Qed.

Lemma count_partition (l : list ScreenshotJob) :
  length l
  = (length (filter (fun job => status_eqb (status job) pending = true) l)
     + length (filter (fun job => status_eqb (status job) processing = true) l)
     + length (filter (fun job => status_eqb (status job) completed = true) l)
     + length (filter (fun job => status_eqb (status job) failed = true) l))%nat.
Proof.
  induction l as [|job l IH]; [done|].
  rewrite !filter_cons. destruct (status job); simpl; lia.
Qed.

Lemma NoDup_all_equal {A} (a : A) (l : list A) :
  NoDup l -> (forall x, x ∈ l -> x = a) -> (length l <= 1)%nat.
Proof.
  intros Hnd Hall. destruct l as [|x [|y l]]; simpl; [lia..|].
  apply NoDup_cons in Hnd as [Hx _]. exfalso. apply Hx.
  rewrite (Hall x), <- (Hall y); [|set_solver..]. set_solver.
Qed.

(** X24. The figures of [getQueueStats] add up: in any state, every job
    is counted in exactly one of the four statuses. In the states the
    scheduler reaches as long as every identifier that [createJob] draws
    is new, that is, not stored in the job map at the time ([createJob]
    does not look it up, and the condition is needed: see
    [reused_identifier_breaks_the_figures]), the number of pending jobs
    is the length of the queue, and the number of jobs being processed
    is one while [isProcessing] is set and zero otherwise. *)
Theorem X24_queue_stats_add_up base64 q :
  let s := getQueueStats q in
  total s = (n_pending s + n_processing s + n_completed s + n_failed s)%nat /\
  s_isProcessing s = isProcessing q /\
  (reachable base64 q ->
   n_pending s = length (processingQueue q) /\
   n_processing s = (if isProcessing q then 1 else 0)%nat).
Proof.
  simpl. unfold countStatus, getAllJobs. split_and!; [|done|].
  { rewrite <- length_map_to_list, <- (length_fmap snd). apply count_partition. }
  intros Hr. destruct (reachable_Tracked base64 q Hr) as (T1 & T2 & T3).
  destruct (reachable_Inv base64 q Hr) as (I1 & I2 & I3 & _).
  split.
  - rewrite count_fmap, <- (length_fmap fst).
    apply Permutation_length, NoDup_Permutation; [|done|].
    + apply (sublist_NoDup _ ((map_to_list (jobs q)).*1));
        [apply NoDup_fst_map_to_list|].
      apply fmap_sublist, sublist_filter.
    + intros x. rewrite list_elem_of_fmap. split.
      * intros [[k job] [-> [Hp Hin]%list_elem_of_filter]]. simpl in *.
        apply elem_of_map_to_list in Hin. apply (T2 _ _ Hin).
        by destruct (status job).
      * intros Hx. destruct (I1 x Hx) as (_ & job & Hj & Hp).
        exists (x, job). split; [done|]. apply list_elem_of_filter. split.
        -- simpl. by rewrite Hp.
        -- by apply elem_of_map_to_list.
  - rewrite count_fmap.
    set (l := filter _ _).
    assert (Hnd : NoDup l)
      by (apply (sublist_NoDup _ (map_to_list (jobs q)));
          [apply NoDup_map_to_list | apply sublist_filter]).
    assert (Hin : forall k job, (k, job) ∈ l <-> jobs q !! k = Some job /\ status job = processing).
    { intros k job. unfold l. rewrite list_elem_of_filter, elem_of_map_to_list. simpl.
      split; intros [H1 H2]; split; try done; [by destruct (status job) | by rewrite H2]. }
    destruct (suspended q) as [[sid sj]|] eqn:Hs.
    + destruct I3 as (Hj & Hp & ->).
      assert (length l <= 1)%nat.
      { apply (NoDup_all_equal (sid, sj)); [done|]. intros [k job] [H1 H2]%Hin.
        pose proof (T1 _ _ H1 H2). congruence. }
      assert ((sid, sj) ∈ l) as Hmem by by apply Hin.
      destruct l; [by apply elem_of_nil in Hmem | simpl in *; lia].
    + rewrite I3. destruct l as [|[k job] l']; [done|].
      destruct (proj1 (Hin k job) ltac:(left)) as [H1 H2].
      pose proof (T1 _ _ H1 H2). congruence.
Qed.

Lemma X24_queue_stats_add_up_witness :
  let q := exec Sample.base64 new (Register Sample.request 1 "a" 5) in
  n_pending (getQueueStats q) = length (processingQueue q).
Proof.
  intros q.
  refine (proj1 (proj2 (proj2 (X24_queue_stats_add_up Sample.base64 q)) _)).
  apply reachable_step; [apply reachable_new | reflexivity].
Defined.

(** Without new identifiers the figures come apart. A job is being
    processed when [createJob] draws its identifier again: the record of
    the job in the map gives way to a [pending] one, and the statistics
    show a busy worker and no job in status [processing]. *)
Lemma reused_identifier_breaks_the_figures :
  let raw := Sample.raw "https://example.com" in
  let q1 := (createJob Sample.parseURL new raw 1 "a" 5).2 in
  let q2 := (createJob Sample.parseURL q1 raw 1 "a" 6).2 in
  s_isProcessing (getQueueStats q2) = true /\
  n_processing (getQueueStats q2) = 0%nat /\
  n_pending (getQueueStats q2) = 1%nat /\
  total (getQueueStats q2) = 1%nat.
Proof. vm_compute. done. Qed.

End JobQueueFurther.
(* ===================================================================== *)
(** * Properties of the route handlers *)
(* ===================================================================== *)

Section RoutesProperties.

Import Security Routes.

Lemma ceil_div_spec (x : Z) :
  1000 * (ceil_div x 1000 - 1) < x <= 1000 * ceil_div x 1000.
Proof.
  unfold ceil_div.
  pose proof (Z.mul_div_le (- x) 1000 ltac:(lia)).
  pose proof (Z.mul_succ_div_gt (- x) 1000 ltac:(lia)). lia.
Qed.

Lemma validateUrl_error_truthy parseURL (u : string) :
  valid (validateUrl parseURL u) = false ->
  JS.truthy_opt (Security.error (validateUrl parseURL u)) = true.
Proof.
  unfold validateUrl. destruct (parseURL u) as [parsed|]; [|done].
  cbv zeta.
  repeat (match goal with
          | |- context [if ?x then _ else _] => destruct x
          end; simpl; [done|]).
  done.
Qed.

Lemma createJob_error_truthy parseURL q raw (now_id : Z) (random : string) (now : Z) :
  JobQueue.c_error (JobQueue.createJob parseURL q raw now_id random now).1 <> None ->
  JS.truthy_opt (JobQueue.c_error (JobQueue.createJob parseURL q raw now_id random now).1)
  = true.
Proof.
  unfold JobQueue.createJob.
  destruct (valid (validateUrl parseURL (url_text (raw_url raw)))) eqn:V; cbn [negb].
  - destruct (JS.truthy (url (sanitizeScreenshotParams raw))); cbn [negb]; done.
  - intros _. by apply validateUrl_error_truthy.
Qed.

(** ** The asynchronous route *)

(** X25. The asynchronous route answers 200, 400, 429 or 500. It counts
    every request against the limit of the client, also one whose body
    cannot be read and one whose URL is refused: the limiter after the
    call is the limiter after [checkLimit], whatever the body. It answers
    429 exactly when [checkLimit] denies the request, with a
    [Retry-After] that is the least number of whole seconds that reaches
    the reset time. Only an answer of 200 changes the job queue; it then
    carries the identifier that [createJob] generated and the status URL
    made of it. *)
Theorem X25_async_route_counts_every_request parseURL toISOString rl q request
    (now now_retry : Z) body (now_id : Z) (random : string) (now_created : Z) :
  let r := Async.POST parseURL toISOString rl q request now now_retry body
             now_id random now_created in
  let checked := RateLimiter.checkLimit rl request now in
  let newId := JobQueue.generateJobId now_id random in
  r.1.2 = checked.2 /\
  (status r.1.1 = 200 \/ status r.1.1 = 400 \/ status r.1.1 = 429 \/ status r.1.1 = 500) /\
  (status r.1.1 = 429 <-> RateLimiter.allowed checked.1 = false) /\
  (status r.1.1 = 429 ->
     exists seconds, retry_after r.1.1 = Some seconds /\
       1000 * (seconds - 1) < RateLimiter.resetAt checked.1 - now_retry <= 1000 * seconds) /\
  (status r.1.1 <> 200 -> r.2 = q) /\
  (status r.1.1 = 200 ->
     exists raw, body = inr raw /\
       JobQueue.c_error (JobQueue.createJob parseURL q raw now_id random now_created).1 = None /\
       Routes.body r.1.1 = JobCreated newId ("/api/screenshot/status/" +:+ newId) /\
       r.2 = (JobQueue.createJob parseURL q raw now_id random now_created).2).
Proof.
  intros r checked newId. subst r checked. unfold Async.POST.
  destruct (RateLimiter.checkLimit rl request now) as [[[] remaining resetAt] rl1];
    cbn [negb RateLimiter.allowed fst snd].
  2:{ cbn. split_and!; try done; try tauto.
      - intros _. eexists. split; [done|]. apply ceil_div_spec. }
  destruct body as [e|raw]; [cbn; split_and!; try done; tauto|].
  pose proof (createJob_error_truthy parseURL q raw now_id random now_created) as Ht.
  pose proof (createJob_rejected_state parseURL q raw now_id random now_created) as Hq.
  pose proof (createJob_accepted_id parseURL q raw now_id random now_created) as Hid.
  destruct (JobQueue.createJob parseURL q raw now_id random now_created)
    as [result q1] eqn:Hcj.
  cbn [fst snd] in *.
  destruct (JobQueue.c_error result) as [msg|] eqn:E.
  - rewrite Ht by done. cbn. split_and!; try done; try tauto. intros _. by apply Hq.
  - cbn. rewrite (Hid eq_refl). fold newId.
    split_and!; try done; try tauto. intros _. exists raw. by rewrite Hcj.
Qed.

Lemma createJob_lookup parseURL base64 q raw (now_id : Z) (random : string) (now : Z) :
  JobQueue.served parseURL base64 q ->
  JobQueue.jobs q !! JobQueue.generateJobId now_id random = None ->
  JobQueue.c_error (JobQueue.createJob parseURL q raw now_id random now).1 = None ->
  JobQueue.getJob (JobQueue.createJob parseURL q raw now_id random now).2
                  (JobQueue.generateJobId now_id random)
  = Some (JobQueue.mkJob (JobQueue.generateJobId now_id random)
            (if JobQueue.isProcessing q then JobQueue.pending else JobQueue.processing)
            (sanitizeScreenshotParams raw) None None now None).
Proof.
  intros Hs Hfresh Hacc.
  rewrite (createJob_accepted base64) by done. cbn [JobQueue.exec].
  set (newId := JobQueue.generateJobId now_id random).
  unfold JobQueue.processQueue, JobQueue.getJob.
  cbn [JobQueue.register JobQueue.isProcessing JobQueue.jobs JobQueue.processingQueue
       JobQueue.suspended].
  destruct (JobQueue.isProcessing q) eqn:Ep.
  - simpl. apply lookup_insert_eq.
  - rewrite (served_idle parseURL base64 q Hs Ep). cbn [app].
    set (job := JobQueue.mkJob newId JobQueue.pending (sanitizeScreenshotParams raw)
                  None None now None).
    rewrite (whileLoop_cons _ newId [] job);
      [|done|apply generateJobId_truthy|apply lookup_insert_eq].
    simpl. apply lookup_insert_eq.
Qed.

(** X26. The status URL of an accepted job resolves. When the
    asynchronous route, called between two turns of the event loop with
    a fresh identifier, answers 200, the status route answers 200 for
    the identifier it was given, at once: with that identifier, the
    creation time of the call, no completion time, no result and no
    error, and with the status [processing] if the worker was idle and
    [pending] if it was busy. *)
Theorem X26_status_url_of_an_accepted_job_resolves parseURL base64 toISOString rl q
    request (now now_retry : Z) body (now_id : Z) (random : string) (now_created : Z) :
  JobQueue.served parseURL base64 q ->
  JobQueue.jobs q !! JobQueue.generateJobId now_id random = None ->
  let r := Async.POST parseURL toISOString rl q request now now_retry body
             now_id random now_created in
  let newId := JobQueue.generateJobId now_id random in
  status r.1.1 = 200 ->
  Status.GET toISOString r.2 newId =
    mkResponse 200
      (JobStatus (JobQueue.mkResponse newId
         (if JobQueue.isProcessing q then JobQueue.pending else JobQueue.processing)
         (toISOString now_created) None None None))
      None None None None.
Proof.
  intros Hs Hfresh r newId. subst r. unfold Async.POST.
  destruct (RateLimiter.checkLimit rl request now) as [[[] remaining resetAt] rl1];
    cbn [negb RateLimiter.allowed fst snd]; [|done].
  destruct body as [e|raw]; [done|].
  pose proof (createJob_error_truthy parseURL q raw now_id random now_created) as Ht.
  pose proof (createJob_lookup parseURL base64 q raw now_id random now_created Hs Hfresh)
    as Hl.
  destruct (JobQueue.createJob parseURL q raw now_id random now_created) as [result q1].
  cbn [fst snd] in *.
  destruct (JobQueue.c_error result) as [msg|] eqn:E.
  - rewrite Ht by done. done.
  - cbn [JS.truthy_opt fst snd]. intros _. unfold Status.GET.
    fold newId in Hl. rewrite (Hl eq_refl).
    unfold newId at 1. rewrite generateJobId_truthy. done.
Qed.

Lemma X26_status_url_of_an_accepted_job_resolves_witness :
  status (Status.GET Sample.toISOString
            (Async.POST Sample.parseURL Sample.toISOString RateLimiter.rateLimiter
               JobQueue.new Sample.anonymous 0 0
               (inr (Sample.raw "https://example.com")) 1 "a" 5).2 "job_1_a") = 200.
Proof.
  pose proof (X26_status_url_of_an_accepted_job_resolves Sample.parseURL Sample.base64
                Sample.toISOString RateLimiter.rateLimiter JobQueue.new Sample.anonymous
                0 0 (inr (Sample.raw "https://example.com")) 1 "a" 5) as H.
  cbv zeta in H. change (JobQueue.generateJobId 1 "a") with "job_1_a" in H.
  rewrite H; [reflexivity | apply JobQueue.served_new | reflexivity | reflexivity].
Defined.

(** ** The synchronous route *)

Ltac simp_response :=
  cbn [fst snd status body x_cache failure rateLimitExceeded].

(** Closes the parts of a statement that hold of a request that never
    reaches the browser. *)
Ltac turned_away :=
  try done; try tauto;
  try (intros _ [?|?]; done);
  try (split; [done|]; intros (_ & ? & _ & [?|[? _]]); done).

(** X27. The synchronous route calls the browser at most once for a
    request, and only when the limiter, the sanitizer and the validator
    have let the request through and the lookup in the cache has missed.
    A request that gets as far as the cache and hits is answered 200
    with the bytes the cache returned, marked [HIT]; the browser is not
    called for it and nothing is stored. Every other answer of 200
    carries the bytes of the one capture, marked [MISS], and these bytes
    are stored by one call of [set]. A capture that fails is not tried
    again: its error is classified at once. When the answer is not 200,
    nothing is stored: the cache and its files are as they were, or as
    the lookup that missed has left them. An answer of 408 is given
    exactly for an error whose message contains [timeout], also when the
    message names an unresolved host. *)
Theorem X27_sync_route_captures_at_most_once digest parseURL base64 toISOString
    rl cm fs request (now now_retry : Z) body env captured (now_stamp : Z) :
  let r := Sync.POST digest parseURL base64 toISOString rl cm fs request now now_retry
             body env captured now_stamp in
  let response := r.1.1.1.1 in
  let effects := r.1.1.1.2 in
  let allowed := RateLimiter.allowed (RateLimiter.checkLimit rl request now).1 in
  let passes raw :=
    body = inr raw /\ allowed = true /\
    JS.truthy (url (sanitizeScreenshotParams raw)) = true /\
    valid (validateUrl parseURL (url (sanitizeScreenshotParams raw))) = true in
  let looked raw :=
    Cache.get digest (JobQueue.io_get env) cm fs (url (sanitizeScreenshotParams raw))
      (sanitizeScreenshotParams raw) (JobQueue.now_get env) in
  (effects = [] \/
   exists raw, passes raw /\ (looked raw).1.1 = None /\
     effects = [JobQueue.Capture (sanitizeScreenshotParams raw)]) /\
  (forall raw hit, passes raw -> (looked raw).1.1 = Some hit ->
     response =
       mkResponse 200
         (Image (base64 hit) (format (sanitizeScreenshotParams raw))
                (toISOString now_stamp) true)
         (Some (RateLimiter.remaining (RateLimiter.checkLimit rl request now).1))
         (Some (RateLimiter.resetAt (RateLimiter.checkLimit rl request now).1))
         None (Some "HIT") /\
     effects = [] /\ r.1.2 = (looked raw).1.2 /\ r.2 = (looked raw).2) /\
  (status response = 200 ->
     exists raw, passes raw /\
       ((exists hit, (looked raw).1.1 = Some hit) \/
        exists buffer, (looked raw).1.1 = None /\ captured = inl buffer /\
          Routes.body response =
            Image (base64 buffer) (format (sanitizeScreenshotParams raw))
                  (toISOString now_stamp) false /\
          x_cache response = Some "MISS" /\
          effects = [JobQueue.Capture (sanitizeScreenshotParams raw)] /\
          (r.1.2, r.2) =
            Cache.set digest (JobQueue.io_set env) (looked raw).1.2 (looked raw).2
              (url (sanitizeScreenshotParams raw)) (sanitizeScreenshotParams raw) buffer
              (JobQueue.now_created env) (JobQueue.now_accessed env))) /\
  (status response <> 200 -> effects <> [] ->
     exists error, captured = inr error /\ response = Sync.classify error) /\
  (status response <> 200 -> r.1.2 <> cm \/ r.2 <> fs ->
     exists raw, body = inr raw /\ (looked raw).1.1 = None /\
       r.1.2 = (looked raw).1.2 /\ r.2 = (looked raw).2) /\
  (status response = 408 <->
     allowed = true /\
     exists message, JS.includes message "timeout" = true /\
       (body = inl (JobQueue.ErrorObj message) \/
        effects <> [] /\ captured = inr (JobQueue.ErrorObj message))).
Proof.
  intros r response effects allowed passes looked.
  subst r response effects allowed passes looked. cbv beta.
  unfold Sync.POST.
  destruct (RateLimiter.checkLimit rl request now) as [[[] remaining resetAt] rl1];
    cbn [negb RateLimiter.allowed RateLimiter.remaining RateLimiter.resetAt fst snd].
  2:{ simp_response. split_and!; turned_away.
      - by intros raw hit (_ & ? & _).
      - split; [done | by intros [? _]]. }
  assert (Hclass : forall e,
    status (Sync.classify e) <> 200 /\
    (status (Sync.classify e) = 408 <->
     exists message, e = JobQueue.ErrorObj message /\ JS.includes message "timeout" = true)).
  { intros [message|]; cbn [Sync.classify].
    - destruct (JS.includes message "timeout") eqn:E1;
        [|destruct (JS.includes message "net::ERR_NAME_NOT_RESOLVED")];
        cbn; (split; [done|]); split; try done.
      + intros _. by exists message.
      + intros (m & [= <-] & Hm). congruence.
      + intros (m & [= <-] & Hm). congruence.
    - cbn. split; [done|]. split; [done | by intros (? & ? & _)]. }
  destruct body as [e|raw].
  { destruct (Hclass e) as [H200 H408]. cbn [fst snd]. split_and!.
    - by left.
    - by intros raw hit (? & _).
    - done.
    - done.
    - intros _ [?|?]; done.
    - rewrite H408. split.
      + intros (m & -> & Hm). split; [done|]. exists m. split; [done | by left].
      + intros (_ & m & Hm & [[= ->]|[? _]]); [by exists m | done]. }
  set (params := sanitizeScreenshotParams raw).
  destruct (JS.truthy (url params)) eqn:Hu; cbn [negb].
  2:{ simp_response. split_and!; turned_away.
      intros raw' hit ([= <-] & _ & Hu' & _). fold params in Hu'. congruence. }
  destruct (valid (validateUrl parseURL (url params))) eqn:Hv; cbn [negb].
  2:{ simp_response. split_and!; turned_away.
      intros raw' hit ([= <-] & _ & _ & Hv'). fold params in Hv'. congruence. }
  destruct (Cache.get digest (JobQueue.io_get env) cm fs (url params) params
              (JobQueue.now_get env)) as [[[hit|] cm1] fs1] eqn:Hget.
  { simp_response. split_and!; turned_away.
    - intros raw' hit' ([= <-] & _) Hhit. fold params in Hhit. rewrite Hget in Hhit.
      cbn in Hhit. injection Hhit as <-. fold params. by rewrite Hget.
    - intros _. exists raw. split; [done|]. left. exists hit. fold params.
      by rewrite Hget. }
  destruct captured as [buffer|e].
  - destruct (Cache.set digest (JobQueue.io_set env) cm1 fs1 (url params) params buffer
                (JobQueue.now_created env) (JobQueue.now_accessed env))
      as [cm2 fs2] eqn:Hset.
    simp_response. split_and!.
    + right. exists raw. fold params. by rewrite Hget.
    + intros raw' hit' ([= <-] & _) Hhit. fold params in Hhit. by rewrite Hget in Hhit.
    + intros _. exists raw. split; [done|]. right. exists buffer. fold params.
      rewrite Hget. cbn [fst snd]. by rewrite Hset.
    + done.
    + done.
    + split; [done|]. intros (_ & m & _ & [?|[_ ?]]); done.
  - destruct (Hclass e) as [H200 H408]. cbn [fst snd]. split_and!.
    + right. exists raw. fold params. by rewrite Hget.
    + intros raw' hit' ([= <-] & _) Hhit. fold params in Hhit. by rewrite Hget in Hhit.
    + done.
    + intros _ _. by exists e.
    + intros _ _. exists raw. fold params. by rewrite Hget.
    + rewrite H408. split.
      * intros (m & -> & Hm). split; [done|]. exists m. split; [done|]. by right.
      * intros (_ & m & Hm & [?|[_ [= ->]]]); [done | by exists m].
Qed.

(** ** The query of [GET /api/screenshot] *)

Lemma Qc_ltb_ge (a b : Qc) : (b <= a)%Qc -> Qc_ltb a b = false.
Proof.
  intros H. destruct (Qc_ltb a b) eqn:E; [|done].
  apply Qc_ltb_true in E. by apply Qcle_not_lt in H.
Qed.

Lemma or_zero (q : Qc) : (if Qc_eq_bool q 0%Qc then 0%Qc else q) = q.
Proof.
  destruct (Qc_eq_bool q 0%Qc) eqn:E; [|done].
  by apply Qc_eq_bool_correct in E.
Qed.

Lemma clamp_delay_clamp_float (d : Float) :
  clamp_delay (Sync.clamp_float d) = clamp_delay d.
Proof.
  pose proof (clamp_delay_range d) as [Hlo Hhi].
  destruct d as [| | |q]; cbn [Sync.clamp_float clamp_delay] in *; cbv zeta in *.
  - done.
  - rewrite or_zero, (Qc_ltb_ge _ _ Hlo). by rewrite Qc_ltb_ge by apply Qcle_refl.
  - rewrite or_zero. rewrite (Qc_ltb_ge 0 0) by apply Qcle_refl.
    by rewrite Qc_ltb_ge by apply zero_le_ten.
  - rewrite !or_zero in *.
    set (c := if Qc_ltb (Q2Qc 10) (if Qc_ltb q 0 then 0%Qc else q)
              then Q2Qc 10 else (if Qc_ltb q 0 then 0%Qc else q)) in *.
    rewrite (Qc_ltb_ge _ _ Hlo). by rewrite (Qc_ltb_ge _ _ Hhi).
Qed.

(** X28. The query of [GET] is read strictly. After
    [parseScreenshotParams] and [sanitizeScreenshotParams], the format
    is other than PNG only when the [format] parameter is one of [jpeg],
    [webp], [avif], [bmp] letter for letter: [jpg] and the upper-case
    spellings, which a [POST] body may use for JPEG, give PNG. A width
    or height that parses is clamped to its range, so that [0] becomes
    the minimum and not the default as in a [POST] body, and one that
    does not parse is the default. The delay is clamped as in a body,
    [fullPage] is set by [1] and [true] only, and the URL is the trimmed
    parameter. *)
Theorem X28_get_query_is_read_strictly parseInt parseFloat (sp : Sync.SearchParams) :
  let p := sanitizeScreenshotParams (Sync.parseScreenshotParams parseInt parseFloat sp) in
  (forall f, f <> png ->
     (format p = f <-> Sync.sp_format sp = Some (format_str f))) /\
  (forall s, Sync.sp_format sp = Some s -> JS.toLowerCase s = "jpg" ->
     format p = png /\
     forall raw, raw_format raw = s -> format (sanitizeScreenshotParams raw) = jpeg) /\
  width p = match parseInt (Sync.or_text (Sync.sp_width sp) "1280") with
            | Some w => Z.min (Z.max w 320) 3840
            | None => 1280
            end /\
  height p = match parseInt (Sync.or_text (Sync.sp_height sp) "800") with
             | Some h => Z.min (Z.max h 240) 2160
             | None => 800
             end /\
  delay p = clamp_delay (parseFloat (Sync.or_text (Sync.sp_delay sp) "0")) /\
  (fullPage p = true <->
     Sync.sp_fullPage sp = Some "1" \/ Sync.sp_fullPage sp = Some "true") /\
  url p = JS.trim (Sync.or_text (Sync.sp_url sp) "").
Proof.
  intros p. subst p.
  assert (Hfmt : forall s,
    let formatParam := Sync.or_text (Some s) "png" in
    let text := if existsb (String.eqb formatParam) ["png"; "jpeg"; "webp"; "avif"; "bmp"]
                then formatParam else "png" in
    (text = s /\ (s = "png" \/ s = "jpeg" \/ s = "webp" \/ s = "avif" \/ s = "bmp")) \/
    (text = "png" /\ s <> "jpeg" /\ s <> "webp" /\ s <> "avif" /\ s <> "bmp")).
  { intros s. cbn [Sync.or_text]. destruct (JS.truthy s) eqn:Hs.
    - cbn [existsb].
      destruct (String.eqb_spec s "png") as [->|N1]; [left; tauto|].
      destruct (String.eqb_spec s "jpeg") as [->|N2]; [left; tauto|].
      destruct (String.eqb_spec s "webp") as [->|N3]; [left; tauto|].
      destruct (String.eqb_spec s "avif") as [->|N4]; [left; tauto|].
      destruct (String.eqb_spec s "bmp") as [->|N5]; [left; tauto|].
      right. done.
    - unfold JS.truthy in Hs. apply negb_false_iff, String.eqb_eq in Hs. subst s.
      right. done. }
  split_and!.
  - intros f Hf. cbn [sanitizeScreenshotParams Sync.parseScreenshotParams format raw_format].
    destruct (Sync.sp_format sp) as [s|] eqn:Es.
    + destruct (Hfmt s) as [[-> Hs]|[-> Hs]].
      * destruct Hs as [->|[->|[->|[->| ->]]]]; destruct f; vm_compute; split; congruence.
      * vm_compute. split; [by intros <-|]. intros [= ->]. destruct f; cbn in Hs; tauto.
    + vm_compute. split; [by intros <-|done].
  - intros s Es Hjpg. split.
    + cbn [sanitizeScreenshotParams Sync.parseScreenshotParams format raw_format].
      rewrite Es. destruct (Hfmt s) as [[-> Hs]|[-> Hs]]; [|done].
      destruct Hs as [->|[->|[->|[->| ->]]]]; vm_compute in Hjpg; by try discriminate.
    + intros raw <-. cbn [sanitizeScreenshotParams format]. by rewrite Hjpg.
  - cbn [sanitizeScreenshotParams Sync.parseScreenshotParams width raw_width].
    destruct (parseInt _) as [w|]; cbn [Sync.clamp_int or_int]; [|done].
    destruct (Z.eqb_spec (Z.min (Z.max w 320) 3840) 0); lia.
  - cbn [sanitizeScreenshotParams Sync.parseScreenshotParams height raw_height].
    destruct (parseInt _) as [h|]; cbn [Sync.clamp_int or_int]; [|done].
    destruct (Z.eqb_spec (Z.min (Z.max h 240) 2160) 0); lia.
  - cbn [sanitizeScreenshotParams Sync.parseScreenshotParams delay raw_delay].
    apply clamp_delay_clamp_float.
  - cbn [sanitizeScreenshotParams Sync.parseScreenshotParams fullPage raw_fullPage].
    rewrite orb_true_iff, !bool_decide_eq_true. done.
  - done.
Qed.

End RoutesProperties.
